(** * Generation swaps in front of a Vite dev server

    A shallow embedding of [server.ts] of the reproduction
    [vitejs-vite-20609-browser-hash-conflict].  The file carries two
    versions of the server:

    - the hold-and-drain coordinator (module [HoldDrain]): [restartVite]
      guarded by [restartPromise], the [onRequest] hook that parks requests
      in [pendingHttpRequests], and the HMR WebSocket proxy that parks
      upgrade connections in [pendingWsConnections];
    - the waterfall version (module [Waterfall]): a restart fired by the
      twentieth request of a waterfall.

    JavaScript runs one synchronous segment at a time.  An [await] cuts an
    async function into segments; the continuation of an [await] runs as a
    job of the microtask queue once the awaited promise is settled.  The
    model keeps every async function invocation as a frame (program point
    plus locals), the microtask queue as a FIFO list of jobs, and lets the
    environment settle the outstanding I/O operations ([fs.rm], [getPort],
    [createServer], [ssrLoadModule], [close]) with a result of its choice. *)

From stdpp Require Import base option list gmap strings.
From Stdlib Require Import Lia.

Set Default Proof Using "Type".
#[local] Set Warnings "-tactics".

(** ** Shared vocabulary *)

(** Object identities.  A [ViteDevServer] is identified by the number the
    source prints for it ([Server #n]): the value of [serverIdCounter]
    right after its creation. *)
Abbreviation Server := nat (only parsing).
Abbreviation Port := nat (only parsing).
Abbreviation Build := nat (only parsing).
Abbreviation PromiseId := nat (only parsing).
Abbreviation ReqId := nat (only parsing).
Abbreviation ConnId := nat (only parsing).
Abbreviation Buffer := (list nat) (only parsing).

(** The way an awaited operation settles; the payload is the port, or the
    identity of the loaded [ServerBuild], where the operation has one. *)
Inductive Result := ROk (v : nat) | RErr.

(** [s.includes(needle)] *)
Fixpoint includes (needle s : string) : bool :=
  if String.prefix needle s then true
  else match s with
       | EmptyString => false
       | String _ s' => includes needle s'
       end.

(** Occurrences in a log. *)
Definition occurrences {A} `{EqDecision A} (a : A) (l : list A) : nat :=
  length (filter (λ x, x = a) l).

Module HoldDrain.

(** ** Frames *)

(** Suspension points of the async body of [restartVite] (lines 194-259). *)
Inductive SwapPc :=
| AwaitRm                        (* line 202: await fs.rm(viteCache) *)
| AwaitPort                      (* line 208: await getPort() *)
| AwaitCreate (hmrPort : Port)   (* line 212: await createServer(..) *)
| AwaitLoad (newServer : Server) (* line 230, inside getServerBuild at line 183 *)
| AwaitBuild (newServer : Server)(* line 230: await getServerBuild(newServer) *)
| AwaitClose.                    (* line 251: await oldServer.close() *)

Record SwapFrame := mkSwapFrame {
  oldServer : option Server;
  oldServerId : nat;
  spc : SwapPc;
  sinbox : option Result
}.

(** The promise of one run of the async body, with the requests that await
    it through [ensureFirstServer]. *)
Inductive PState :=
| Pending (f : SwapFrame) (waiters : list ReqId)
| Fulfilled
| Rejected.

(** Suspension points of the [onRequest] hook (lines 277-305). *)
Inductive ReqPc :=
| RHold                 (* line 291: await new Promise(resolve => push(resolve)) *)
| RFirst                (* line 298: await ensureFirstServer() *)
| RLoad (s : Server)    (* line 302, inside getServerBuild at line 183 *)
| RBuild                (* line 302: await getServerBuild(activeVite!) *)
| RDone
| RThrown.

Record Request := mkRequest {
  url : string;
  viteServer : option Server;
  serverBuild : option Build;
  rpc : ReqPc;
  rinbox : option Result
}.

(** An upgrade connection accepted by the proxy (lines 316-374). *)
Inductive ConnPc :=
| CHold                         (* line 322 *)
| CConnecting (targetPort : Port) (* line 338: net.connect issued *)
| CPiped (targetPort : Port)    (* lines 347-354 *)
| CDestroyed.                   (* socket.destroy() *)

Record Conn := mkConn {
  chead : Buffer;
  cpc : ConnPc;
  cinbox : bool;
  cclosed : bool
}.

(** An entry of [pendingWsConnections]. *)
Record WsHold := mkWsHold {
  socket : ConnId;
  head : Buffer;
  resolve : ConnId
}.

Inductive Job :=
| JSwap (p : PromiseId)
| JReq (r : ReqId)
| JConn (c : ConnId).

(** What the program did, in order. *)
Inductive Event :=
| ESwapStart (p : PromiseId) (old : option Server)
| ERmCache (p : PromiseId)
| EGetPort (p : PromiseId)
| ECreateServer (p : PromiseId) (hmrPort : Port)
| EServerStarted (p : PromiseId) (s : Server) (hmrPort : Port)
| ELoad (s : Server)
| ECacheSet (s : Server) (b : Build)
| ECacheDelete (s : Server)
| EClose (p : PromiseId) (s : Server)
| ESwapDone (p : PromiseId)
| ESwapFailed (p : PromiseId)
| EHoldHttp (r : ReqId) (active : option Server)
| EResolveHttp (p : PromiseId) (r : ReqId)
| EBind (r : ReqId) (s : Server)
| EHoldWs (c : ConnId)
| EResolveWs (p : PromiseId) (c : ConnId)
| EConnect (c : ConnId) (port : Port)
| EForward (c : ConnId)
| EDestroy (c : ConnId)
| EClientClose (c : ConnId)
| ETargetDestroy (c : ConnId).

#[global] Instance Event_eq_dec : EqDecision Event.
Proof. solve_decision. Defined.

(** ** The state of the process *)

Record St := mkSt {
  activeVite : option Server;
  activeHmrPort : option Port;
  serverIdCounter : nat;
  restartPromise : option PromiseId;
  pendingHttpRequests : list ReqId;
  pendingWsConnections : list WsHold;
  serverBuildCache : gmap Server Build;
  isFirstStart : bool;
  hasTriggeredRestart : bool;
  initialServerPromise : option PromiseId;
  promises : list PState;
  requests : list Request;
  conns : list Conn;
  microtasks : list Job;
  log : list Event
}.

Definition init : St := {|
  activeVite := None;
  activeHmrPort := None;
  serverIdCounter := 0;
  restartPromise := None;
  pendingHttpRequests := [];
  pendingWsConnections := [];
  serverBuildCache := ∅;
  isFirstStart := true;
  hasTriggeredRestart := false;
  initialServerPromise := None;
  promises := [];
  requests := [];
  conns := [];
  microtasks := [];
  log := []
|}.

Definition set_activeVite v st :=
  mkSt v (activeHmrPort st) (serverIdCounter st) (restartPromise st)
    (pendingHttpRequests st) (pendingWsConnections st) (serverBuildCache st)
    (isFirstStart st) (hasTriggeredRestart st) (initialServerPromise st)
    (promises st) (requests st) (conns st) (microtasks st) (log st).
Definition set_activeHmrPort v st :=
  mkSt (activeVite st) v (serverIdCounter st) (restartPromise st)
    (pendingHttpRequests st) (pendingWsConnections st) (serverBuildCache st)
    (isFirstStart st) (hasTriggeredRestart st) (initialServerPromise st)
    (promises st) (requests st) (conns st) (microtasks st) (log st).
Definition set_serverIdCounter v st :=
  mkSt (activeVite st) (activeHmrPort st) v (restartPromise st)
    (pendingHttpRequests st) (pendingWsConnections st) (serverBuildCache st)
    (isFirstStart st) (hasTriggeredRestart st) (initialServerPromise st)
    (promises st) (requests st) (conns st) (microtasks st) (log st).
Definition set_restartPromise v st :=
  mkSt (activeVite st) (activeHmrPort st) (serverIdCounter st) v
    (pendingHttpRequests st) (pendingWsConnections st) (serverBuildCache st)
    (isFirstStart st) (hasTriggeredRestart st) (initialServerPromise st)
    (promises st) (requests st) (conns st) (microtasks st) (log st).
Definition set_pendingHttpRequests v st :=
  mkSt (activeVite st) (activeHmrPort st) (serverIdCounter st) (restartPromise st)
    v (pendingWsConnections st) (serverBuildCache st)
    (isFirstStart st) (hasTriggeredRestart st) (initialServerPromise st)
    (promises st) (requests st) (conns st) (microtasks st) (log st).
Definition set_pendingWsConnections v st :=
  mkSt (activeVite st) (activeHmrPort st) (serverIdCounter st) (restartPromise st)
    (pendingHttpRequests st) v (serverBuildCache st)
    (isFirstStart st) (hasTriggeredRestart st) (initialServerPromise st)
    (promises st) (requests st) (conns st) (microtasks st) (log st).
Definition set_serverBuildCache v st :=
  mkSt (activeVite st) (activeHmrPort st) (serverIdCounter st) (restartPromise st)
    (pendingHttpRequests st) (pendingWsConnections st) v
    (isFirstStart st) (hasTriggeredRestart st) (initialServerPromise st)
    (promises st) (requests st) (conns st) (microtasks st) (log st).
Definition set_isFirstStart v st :=
  mkSt (activeVite st) (activeHmrPort st) (serverIdCounter st) (restartPromise st)
    (pendingHttpRequests st) (pendingWsConnections st) (serverBuildCache st)
    v (hasTriggeredRestart st) (initialServerPromise st)
    (promises st) (requests st) (conns st) (microtasks st) (log st).
Definition set_hasTriggeredRestart v st :=
  mkSt (activeVite st) (activeHmrPort st) (serverIdCounter st) (restartPromise st)
    (pendingHttpRequests st) (pendingWsConnections st) (serverBuildCache st)
    (isFirstStart st) v (initialServerPromise st)
    (promises st) (requests st) (conns st) (microtasks st) (log st).
Definition set_initialServerPromise v st :=
  mkSt (activeVite st) (activeHmrPort st) (serverIdCounter st) (restartPromise st)
    (pendingHttpRequests st) (pendingWsConnections st) (serverBuildCache st)
    (isFirstStart st) (hasTriggeredRestart st) v
    (promises st) (requests st) (conns st) (microtasks st) (log st).
Definition set_promises v st :=
  mkSt (activeVite st) (activeHmrPort st) (serverIdCounter st) (restartPromise st)
    (pendingHttpRequests st) (pendingWsConnections st) (serverBuildCache st)
    (isFirstStart st) (hasTriggeredRestart st) (initialServerPromise st)
    v (requests st) (conns st) (microtasks st) (log st).
Definition set_requests v st :=
  mkSt (activeVite st) (activeHmrPort st) (serverIdCounter st) (restartPromise st)
    (pendingHttpRequests st) (pendingWsConnections st) (serverBuildCache st)
    (isFirstStart st) (hasTriggeredRestart st) (initialServerPromise st)
    (promises st) v (conns st) (microtasks st) (log st).
Definition set_conns v st :=
  mkSt (activeVite st) (activeHmrPort st) (serverIdCounter st) (restartPromise st)
    (pendingHttpRequests st) (pendingWsConnections st) (serverBuildCache st)
    (isFirstStart st) (hasTriggeredRestart st) (initialServerPromise st)
    (promises st) (requests st) v (microtasks st) (log st).
Definition set_microtasks v st :=
  mkSt (activeVite st) (activeHmrPort st) (serverIdCounter st) (restartPromise st)
    (pendingHttpRequests st) (pendingWsConnections st) (serverBuildCache st)
    (isFirstStart st) (hasTriggeredRestart st) (initialServerPromise st)
    (promises st) (requests st) (conns st) v (log st).
Definition set_log v st :=
  mkSt (activeVite st) (activeHmrPort st) (serverIdCounter st) (restartPromise st)
    (pendingHttpRequests st) (pendingWsConnections st) (serverBuildCache st)
    (isFirstStart st) (hasTriggeredRestart st) (initialServerPromise st)
    (promises st) (requests st) (conns st) (microtasks st) v.

Definition emit (e : Event) (st : St) : St := set_log (log st ++ [e]) st.
Definition enqueue (j : Job) (st : St) : St :=
  set_microtasks (microtasks st ++ [j]) st.

Definition set_rpc pc (q : Request) :=
  mkRequest (url q) (viteServer q) (serverBuild q) pc (rinbox q).
Definition set_rinbox i (q : Request) :=
  mkRequest (url q) (viteServer q) (serverBuild q) (rpc q) i.
Definition set_viteServer v (q : Request) :=
  mkRequest (url q) v (serverBuild q) (rpc q) (rinbox q).
Definition set_serverBuild v (q : Request) :=
  mkRequest (url q) (viteServer q) v (rpc q) (rinbox q).

Definition upd_request (r : ReqId) (g : Request → Request) (st : St) : St :=
  set_requests (alter g r (requests st)) st.

Definition upd_conn (c : ConnId) (g : Conn → Conn) (st : St) : St :=
  set_conns (alter g c (conns st)) st.

Definition set_cpc pc (k : Conn) := mkConn (chead k) pc (cinbox k) (cclosed k).
Definition set_cinbox b (k : Conn) := mkConn (chead k) (cpc k) b (cclosed k).
Definition set_cclosed b (k : Conn) := mkConn (chead k) (cpc k) (cinbox k) b.

(** Settling the promise a request awaits: the result is handed to its
    frame and its continuation becomes a job of the microtask queue. *)
Definition deliver_req (res : Result) (st : St) (r : ReqId) : St :=
  enqueue (JReq r) (upd_request r (set_rinbox (Some res)) st).

(** Calling the [resolve] of a held connection. *)
Definition deliver_conn (st : St) (c : ConnId) : St :=
  enqueue (JConn c) (upd_conn c (set_cinbox true) st).

(** ** getServerBuild (lines 177-188) *)

(** Up to the [await]: the cached build, or [None] after [ssrLoadModule]
    has been invoked. *)
Definition getServerBuild (viteServer : Server) (st : St) : St * option Build :=
  match serverBuildCache st !! viteServer with
  | Some cached => (st, Some cached)
  | None => (emit (ELoad viteServer) st, None)
  end.

(** After the [await]: [serverBuildCache.set(viteServer, build)]. *)
Definition getServerBuild_loaded (viteServer : Server) (build : Build) (st : St) : St :=
  emit (ECacheSet viteServer build)
    (set_serverBuildCache (<[viteServer := build]> (serverBuildCache st)) st).

(** ** restartVite (lines 190-262) *)

Definition new_promise (f : SwapFrame) (st : St) : St :=
  set_promises (promises st ++ [Pending f []]) st.

(** The call, up to the first [await] of the async body.  The body's promise
    is what [restartPromise] holds and what the call returns. *)
Definition restartVite (st : St) : St * PromiseId :=
  match restartPromise st with
  | Some p => (st, p)
  | None =>
      let p := length (promises st) in
      let fr pc := mkSwapFrame (activeVite st) (serverIdCounter st) pc None in
      let st1 := emit (ESwapStart p (activeVite st)) st in
      let st2 :=
        if isFirstStart st1
        then emit (ERmCache p) (new_promise (fr AwaitRm) st1)
        else emit (EGetPort p) (new_promise (fr AwaitPort) st1) in
      (set_restartPromise (Some p) st2, p)
  end.

Definition suspend (p : PromiseId) (f : SwapFrame) (ws : list ReqId) (st : St) : St :=
  set_promises (<[p := Pending f ws]> (promises st)) st.

Definition at_pc (pc : SwapPc) (i : option Result) (f : SwapFrame) : SwapFrame :=
  mkSwapFrame (oldServer f) (oldServerId f) pc i.

(** The async body throws: its promise rejects.  [restartPromise] is left
    as it is. *)
Definition reject (p : PromiseId) (ws : list ReqId) (st : St) : St :=
  foldl (deliver_req RErr)
    (emit (ESwapFailed p) (set_promises (<[p := Rejected]> (promises st)) st)) ws.

(** The async body returns: its promise fulfils. *)
Definition fulfil (p : PromiseId) (ws : list ReqId) (st : St) : St :=
  foldl (deliver_req (ROk 0))
    (emit (ESwapDone p) (set_promises (<[p := Fulfilled]> (promises st)) st)) ws.

(** Lines 232-237. *)
Definition flush_http (p : PromiseId) (st : St) : St :=
  let pendingHttp := pendingHttpRequests st in
  foldl (λ s r, deliver_req (ROk 0) (emit (EResolveHttp p r) s) r)
    (set_pendingHttpRequests [] st) pendingHttp.

(** Lines 239-244. *)
Definition flush_ws (p : PromiseId) (st : St) : St :=
  let pendingWs := pendingWsConnections st in
  foldl (λ s pending,
           deliver_conn (emit (EResolveWs p (socket pending)) s) (resolve pending))
    (set_pendingWsConnections [] st) pendingWs.

(** One segment of the async body: from the [await] the frame is suspended
    at, with the result [res] of the awaited operation, to the next one. *)
Definition swap_step (p : PromiseId) (f : SwapFrame) (ws : list ReqId)
    (res : Result) (st : St) : St :=
  match spc f, res with
  | AwaitRm, _ =>
      (* try/catch: a failure is swallowed *)
      suspend p (at_pc AwaitPort None f) ws
        (emit (EGetPort p) (set_isFirstStart false st))
  | AwaitPort, ROk hmrPort =>
      suspend p (at_pc (AwaitCreate hmrPort) None f) ws
        (emit (ECreateServer p hmrPort) st)
  | AwaitPort, RErr => reject p ws st
  | AwaitCreate hmrPort, ROk _ =>
      let newServer := S (serverIdCounter st) in
      let st1 := set_serverIdCounter (S (serverIdCounter st)) st in
      let st2 := emit (EServerStarted p newServer hmrPort) st1 in
      let st3 := set_activeHmrPort (Some hmrPort) (set_activeVite (Some newServer) st2) in
      match getServerBuild newServer st3 with
      | (st4, Some b) =>
          enqueue (JSwap p)
            (suspend p (at_pc (AwaitBuild newServer) (Some (ROk b)) f) ws st4)
      | (st4, None) =>
          suspend p (at_pc (AwaitLoad newServer) None f) ws st4
      end
  | AwaitCreate _, RErr => reject p ws st
  | AwaitLoad newServer, ROk build =>
      enqueue (JSwap p)
        (suspend p (at_pc (AwaitBuild newServer) (Some (ROk build)) f) ws
           (getServerBuild_loaded newServer build st))
  | AwaitLoad newServer, RErr =>
      enqueue (JSwap p)
        (suspend p (at_pc (AwaitBuild newServer) (Some RErr) f) ws st)
  | AwaitBuild _, ROk _ =>
      let st1 := flush_ws p (flush_http p st) in
      match oldServer f with
      | Some o =>
          let st2 :=
            emit (ECacheDelete o)
              (set_serverBuildCache (delete o (serverBuildCache st1)) st1) in
          suspend p (at_pc AwaitClose None f) ws (emit (EClose p o) st2)
      | None => fulfil p ws (set_restartPromise None st1)
      end
  | AwaitBuild _, RErr => reject p ws st
  | AwaitClose, _ =>
      (* try/catch: a failure of close() is logged only *)
      fulfil p ws (set_restartPromise None st)
  end.

(** ** ensureFirstServer (lines 269-275) *)

(** [None]: returned [undefined]; [Some p]: returned the promise [p]. *)
Definition ensureFirstServer (st : St) : St * option PromiseId :=
  match activeVite st with
  | Some _ => (st, None)
  | None =>
      match initialServerPromise st with
      | Some p => (st, Some p)
      | None =>
          let '(st1, p) := restartVite st in
          (set_initialServerPromise (Some p) st1, Some p)
      end
  end.

(** ** The onRequest hook (lines 277-305) *)

Definition await_promise (p : PromiseId) (r : ReqId) (st : St) : St :=
  match promises st !! p with
  | Some (Pending f ws) => set_promises (<[p := Pending f (ws ++ [r])]> (promises st)) st
  | Some Fulfilled => deliver_req (ROk 0) st r
  | Some Rejected => deliver_req RErr st r
  | None => st
  end.

(** Line 298. *)
Definition after_hold (r : ReqId) (st : St) : St :=
  let st0 := upd_request r (λ q, set_rinbox None (set_rpc RFirst q)) st in
  match ensureFirstServer st0 with
  | (st1, None) => deliver_req (ROk 0) st1 r
  | (st1, Some p) => await_promise p r st1
  end.

(** Lines 277-295, run when the request arrives. *)
Definition onRequest (u : string) (st : St) : St :=
  let r := length (requests st) in
  let st0 := set_requests (requests st ++ [mkRequest u None None RHold None]) st in
  let st1 :=
    if includes "env.mjs" u && negb (hasTriggeredRestart st0)
    then fst (restartVite (set_hasTriggeredRestart true st0))
    else st0 in
  match restartPromise st1 with
  | Some _ =>
      emit (EHoldHttp r (activeVite st1))
        (set_pendingHttpRequests (pendingHttpRequests st1 ++ [r]) st1)
  | None => after_hold r st1
  end.

(** One segment of the hook, resumed with the result [res]. *)
Definition req_step (r : ReqId) (q : Request) (res : Result) (st : St) : St :=
  match rpc q, res with
  | RHold, _ => after_hold r st
  | RFirst, ROk _ =>
      match activeVite st with
      | Some s =>
          let st1 := emit (EBind r s) (upd_request r (set_viteServer (Some s)) st) in
          match getServerBuild s st1 with
          | (st2, Some b) =>
              deliver_req (ROk b) (upd_request r (λ q, set_rinbox None (set_rpc RBuild q)) st2) r
          | (st2, None) =>
              upd_request r (λ q, set_rinbox None (set_rpc (RLoad s) q)) st2
          end
      | None => upd_request r (λ q, set_rinbox None (set_rpc RThrown q)) st
      end
  | RFirst, RErr => upd_request r (λ q, set_rinbox None (set_rpc RThrown q)) st
  | RLoad s, ROk build =>
      deliver_req (ROk build)
        (upd_request r (λ q, set_rinbox None (set_rpc RBuild q))
           (getServerBuild_loaded s build st)) r
  | RLoad s, RErr =>
      deliver_req RErr (upd_request r (λ q, set_rinbox None (set_rpc RBuild q)) st) r
  | RBuild, ROk b =>
      upd_request r (λ q, set_rinbox None (set_rpc RDone (set_serverBuild (Some b) q))) st
  | RBuild, RErr => upd_request r (λ q, set_rinbox None (set_rpc RThrown q)) st
  | RDone, _ => st
  | RThrown, _ => st
  end.

(** ** The HMR proxy (lines 316-374) *)

(** Lines 328-374. *)
Definition proxy (c : ConnId) (st : St) : St :=
  match activeHmrPort st with
  | Some (S n) =>
      emit (EConnect c (S n)) (upd_conn c (set_cpc (CConnecting (S n))) st)
  | _ => emit (EDestroy c) (upd_conn c (set_cpc CDestroyed) st)
  end.

(** Lines 316-326, run when the upgrade request arrives. *)
Definition onUpgrade (h : Buffer) (st : St) : St :=
  let c := length (conns st) in
  let st0 := set_conns (conns st ++ [mkConn h CHold false false]) st in
  match restartPromise st0 with
  | Some _ =>
      emit (EHoldWs c)
        (set_pendingWsConnections (pendingWsConnections st0 ++ [mkWsHold c h c]) st0)
  | None => proxy c st0
  end.

(** The client's socket emits [close]: the listeners registered on it run
    (line 367, registered once the connect has been issued). *)
Definition onClientClose (c : ConnId) (k : Conn) (st : St) : St :=
  let st1 := emit (EClientClose c) (upd_conn c (set_cclosed true) st) in
  match cpc k with
  | CConnecting _ | CPiped _ => emit (ETargetDestroy c) st1
  | _ => st1
  end.

(** ** The event loop *)

Inductive Input :=
| Tick                                     (* run the first microtask *)
| InRequest (u : string)                   (* an HTTP request arrives *)
| InUpgrade (h : Buffer)                   (* an upgrade request arrives *)
| InSwapIO (p : PromiseId) (res : Result)  (* an operation awaited by restartVite settles *)
| InLoadIO (r : ReqId) (res : Result)      (* ssrLoadModule awaited for a request settles *)
| InClientClose (c : ConnId)               (* a client socket closes *)
| InConnected (c : ConnId)                 (* the connect callback, line 338 *)
| InTargetError (c : ConnId).              (* the target socket errors, line 357 *)

Definition run_job (j : Job) (st : St) : St :=
  match j with
  | JSwap p =>
      match promises st !! p with
      | Some (Pending f ws) =>
          match sinbox f with
          | Some res => swap_step p f ws res st
          | None => st
          end
      | _ => st
      end
  | JReq r =>
      match requests st !! r with
      | Some q =>
          match rinbox q with
          | Some res => req_step r q res st
          | None => st
          end
      | None => st
      end
  | JConn c =>
      match conns st !! c with
      | Some k =>
          match cpc k, cinbox k with
          | CHold, true => proxy c st
          | _, _ => st
          end
      | None => st
      end
  end.

(** Does the frame wait for the environment? *)
Definition awaits_io (f : SwapFrame) : bool :=
  match spc f, sinbox f with
  | AwaitBuild _, _ => false
  | _, None => true
  | _, Some _ => false
  end.

(** New requests and socket events are delivered between turns of the event
    loop, when no microtask is left; an awaited operation may settle at any
    time, and its continuation joins the queue. *)
Definition step (i : Input) (st : St) : option St :=
  match i with
  | Tick =>
      match microtasks st with
      | j :: q => Some (run_job j (set_microtasks q st))
      | [] => None
      end
  | InRequest u =>
      match microtasks st with [] => Some (onRequest u st) | _ => None end
  | InUpgrade h =>
      match microtasks st with [] => Some (onUpgrade h st) | _ => None end
  | InSwapIO p res =>
      match promises st !! p with
      | Some (Pending f ws) =>
          if awaits_io f
          then Some (enqueue (JSwap p)
                       (suspend p (at_pc (spc f) (Some res) f) ws st))
          else None
      | _ => None
      end
  | InLoadIO r res =>
      match requests st !! r with
      | Some q =>
          match rpc q, rinbox q with
          | RLoad _, None => Some (deliver_req res st r)
          | _, _ => None
          end
      | None => None
      end
  | InClientClose c =>
      match microtasks st, conns st !! c with
      | [], Some k => if cclosed k then None else Some (onClientClose c k st)
      | _, _ => None
      end
  | InConnected c =>
      match microtasks st, conns st !! c with
      | [], Some k =>
          match cpc k with
          | CConnecting port =>
              Some (emit (EForward c) (upd_conn c (set_cpc (CPiped port)) st))
          | _ => None
          end
      | _, _ => None
      end
  | InTargetError c =>
      match microtasks st, conns st !! c with
      | [], Some k =>
          match cpc k with
          | CConnecting _ | CPiped _ =>
              Some (emit (EDestroy c) (upd_conn c (set_cpc CDestroyed) st))
          | _ => None
          end
      | _, _ => None
      end
  end.

Fixpoint run (tr : list Input) (st : St) : option St :=
  match tr with
  | [] => Some st
  | i :: tr' =>
      match step i st with
      | Some st' => run tr' st'
      | None => None
      end
  end.

(** ** Closed forms of the loops *)

Definition mark_reqs (res : Result) (l : list Request) (rs : list ReqId) : list Request :=
  foldl (λ l r, alter (set_rinbox (Some res)) r l) l rs.

Definition mark_conns (l : list Conn) (cs : list ConnId) : list Conn :=
  foldl (λ l c, alter (set_cinbox true) c l) l cs.

Lemma foldl_deliver_req res ws st :
  foldl (deliver_req res) st ws =
  set_microtasks (microtasks st ++ map JReq ws)
    (set_requests (mark_reqs res (requests st) ws) st).
Proof.
  revert st. induction ws as [|r ws IH]; intros st.
  - destruct st; cbn. by rewrite app_nil_r.
  - cbn [foldl]. rewrite IH. destruct st; cbn.
    by rewrite <- app_assoc.
Qed.

Lemma flush_http_loop p hs s0 :
  foldl (λ s r, deliver_req (ROk 0) (emit (EResolveHttp p r) s) r) s0 hs =
  set_log (log s0 ++ map (EResolveHttp p) hs)
    (set_microtasks (microtasks s0 ++ map JReq hs)
       (set_requests (mark_reqs (ROk 0) (requests s0) hs) s0)).
Proof.
  revert s0. induction hs as [|r hs IH]; intros s0.
  - destruct s0; cbn. by rewrite !app_nil_r.
  - cbn [foldl]. rewrite IH. destruct s0; cbn.
    by rewrite <- !app_assoc.
Qed.

Lemma flush_ws_loop p cs s0 :
  foldl (λ s pending,
           deliver_conn (emit (EResolveWs p (socket pending)) s) (resolve pending))
    s0 cs =
  set_log (log s0 ++ map (λ h, EResolveWs p (socket h)) cs)
    (set_microtasks (microtasks s0 ++ map (λ h, JConn (resolve h)) cs)
       (set_conns (mark_conns (conns s0) (map resolve cs)) s0)).
Proof.
  revert s0. induction cs as [|c cs IH]; intros s0.
  - destruct s0; cbn. by rewrite !app_nil_r.
  - cbn [foldl]. rewrite IH. destruct s0; cbn.
    by rewrite <- !app_assoc.
Qed.

(** ** Well-formed logs

    Every event is emitted under a guard on the events emitted before it.
    What the claims say about the order of events is read off the guards. *)

Definition guard (l : list Event) (e : Event) : Prop :=
  (∀ l0 s, l = l0 ++ [ECacheDelete s] → ∃ p, e = EClose p s) ∧
  match e with
  | ESwapStart p _ => ∀ old', ¬ In (ESwapStart p old') l
  | EServerStarted p _ _ =>
      (∃ old, In (ESwapStart p old) l) ∧
      ∀ s' h', ¬ In (EServerStarted p s' h') l
  | ESwapDone p => ∃ s h, In (EServerStarted p s h) l
  | EResolveHttp p _ | EResolveWs p _ =>
      (∃ old, In (ESwapStart p old) l) ∧
      (∃ s h b, In (EServerStarted p s h) l ∧ In (ECacheSet s b) l) ∧
      (∀ o, ¬ In (EClose p o) l)
  | EBind r s =>
      ∀ p o, In (EResolveHttp p r) l → In (ESwapStart p (Some o)) l → o < s
  | ECacheDelete s => ¬ In (ECacheDelete s) l
  | EClose _ s => ∃ l0, l = l0 ++ [ECacheDelete s]
  | _ => True
  end.

Inductive wf_log : list Event → Prop :=
| wf_nil : wf_log []
| wf_snoc l e : wf_log l → guard l e → wf_log (l ++ [e]).

Lemma snoc_split {A} (l : list A) e l1 x l2 :
  l ++ [e] = l1 ++ x :: l2 →
  (∃ l2', l = l1 ++ x :: l2' ∧ l2 = l2' ++ [e]) ∨ (l1 = l ∧ x = e ∧ l2 = []).
Proof.
  destruct l2 as [|y l2 _] using rev_ind.
  - intros H. right. change (l1 ++ [x]) with (l1 ++ [x]) in H.
    apply app_inj_tail in H as [-> ->]. done.
  - intros H. left. exists l2.
    rewrite app_comm_cons, app_assoc in H.
    apply app_inj_tail in H as [-> ->]. done.
Qed.

(** The guard of an event holds of the events before it. *)
Lemma wf_guard l l1 e l2 :
  wf_log l → l = l1 ++ e :: l2 → guard l1 e.
Proof.
  intros Hwf. revert l1 e l2.
  induction Hwf as [|l e' Hwf IH Hg]; intros l1 e l2 Heq.
  - by destruct l1.
  - apply snoc_split in Heq as [(l2' & -> & _) | (-> & -> & _)]; eauto.
Qed.

Lemma wf_prefix l1 l2 : wf_log (l1 ++ l2) → wf_log l1.
Proof.
  induction l2 as [|e l2 IH] using rev_ind.
  - by rewrite app_nil_r.
  - rewrite app_assoc. inversion 1 as [H0|l e' Hwf Hg Heq].
    + by destruct (l1 ++ l2).
    + apply app_inj_tail in Heq as [-> ->]. auto.
Qed.

Lemma wf_start_unique l p a b :
  wf_log l → In (ESwapStart p a) l → In (ESwapStart p b) l → a = b.
Proof.
  induction 1 as [|l e Hwf IH Hg]; [done|].
  rewrite !in_app_iff; cbn.
  intros [Ha|[Ha|[]]] [Hb|[Hb|[]]]; subst; eauto.
  - destruct Hg as [_ Hg]. by destruct (Hg a).
  - destruct Hg as [_ Hg]. by destruct (Hg b).
  - congruence.
Qed.

Lemma occurrences_snoc (a e : Event) l :
  occurrences a (l ++ [e]) = occurrences a l + (if decide (e = a) then 1 else 0).
Proof.
  unfold occurrences. rewrite filter_app, length_app. f_equal.
  cbn. unfold filter, list_filter. by destruct (decide (e = a)).
Qed.

Lemma occurrences_0 (a : Event) l : ¬ In a l → occurrences a l = 0.
Proof.
  unfold occurrences. induction l as [|x l IH]; [done|].
  intros Hn. rewrite filter_cons. destruct (decide (x = a)) as [->|].
  - destruct Hn. by left.
  - apply IH. intros ?. apply Hn. by right.
Qed.

Lemma wf_delete_once l s : wf_log l → occurrences (ECacheDelete s) l ≤ 1.
Proof.
  induction 1 as [|l e Hwf IH Hg]; [cbn; lia|].
  rewrite occurrences_snoc. destruct (decide (e = ECacheDelete s)) as [->|]; [|lia].
  destruct Hg as [_ Hg]. rewrite occurrences_0; [lia|exact Hg].
Qed.

(** ** The invariant of the coordinator *)

Definition neutral (e : Event) : bool :=
  match e with
  | ESwapStart _ _ | EServerStarted _ _ _ | ECacheDelete _ | EClose _ _
  | ESwapDone _ | EResolveHttp _ _ | EResolveWs _ _ | EBind _ _ => false
  | _ => true
  end.

Definition promise_of (e : Event) : option PromiseId :=
  match e with
  | ESwapStart p _ | EServerStarted p _ _ | EClose p _
  | ESwapDone p | EResolveHttp p _ | EResolveWs p _ => Some p
  | _ => None
  end.

(** What is known of the run [p] of the async body while it is suspended. *)
Definition frame_ok (st : St) (p : PromiseId) (f : SwapFrame) : Prop :=
  restartPromise st = Some p ∧
  (∀ o, oldServer f = Some o → o = oldServerId f) ∧
  In (ESwapStart p (oldServer f)) (log st) ∧
  (∀ o, In (ECacheDelete o) (log st) → spc f ≠ AwaitClose → o < oldServerId f) ∧
  match spc f with
  | AwaitRm | AwaitPort | AwaitCreate _ =>
      oldServer f = activeVite st ∧ oldServerId f = serverIdCounter st ∧
      (∀ s h, ¬ In (EServerStarted p s h) (log st)) ∧
      (∀ o, ¬ In (EClose p o) (log st))
  | AwaitLoad n =>
      n = serverIdCounter st ∧ oldServerId f < n ∧
      (∃ h, In (EServerStarted p n h) (log st)) ∧
      (∀ o, ¬ In (EClose p o) (log st))
  | AwaitBuild n =>
      n = serverIdCounter st ∧ oldServerId f < n ∧
      (∃ h, In (EServerStarted p n h) (log st)) ∧
      (∀ o, ¬ In (EClose p o) (log st)) ∧
      (∀ b, sinbox f = Some (ROk b) → ∃ b', In (ECacheSet n b') (log st))
  | AwaitClose =>
      oldServerId f < serverIdCounter st ∧
      ∃ s h, In (EServerStarted p s h) (log st)
  end.

Record Inv (st : St) : Prop := mkInv {
  inv_active :
    match activeVite st with
    | None => serverIdCounter st = 0 ∧ activeHmrPort st = None
    | Some a => a = serverIdCounter st ∧ 0 < a ∧ is_Some (activeHmrPort st)
    end;
  inv_frame : ∀ p f ws,
    promises st !! p = Some (Pending f ws) → frame_ok st p f;
  inv_cache : ∀ s b,
    serverBuildCache st !! s = Some b → s ≤ serverIdCounter st;
  inv_rload :
    Forall (λ q, ∀ s, rpc q = RLoad s → s ≤ serverIdCounter st) (requests st);
  inv_wf : wf_log (log st);
  inv_nd : ∀ l0 s, log st ≠ l0 ++ [ECacheDelete s];
  inv_lp : ∀ e p,
    In e (log st) → promise_of e = Some p → p < length (promises st);
  inv_g3 : ∀ p r o,
    In (EResolveHttp p r) (log st) → In (ESwapStart p (Some o)) (log st) →
    o < serverIdCounter st;
  inv_del : ∀ o, In (ECacheDelete o) (log st) → o < serverIdCounter st
}.

Definition view (st : St) :=
  (activeVite st, activeHmrPort st, serverIdCounter st, restartPromise st,
   serverBuildCache st, promises st, log st, requests st).

Lemma Inv_ext st st' : view st' = view st → Inv st → Inv st'.
Proof.
  unfold view. intros [= E1 E2 E3 E4 E5 E6 E7 E8] [HA HF HC HR HW HN HL HG HD].
  split; unfold frame_ok in *; rewrite ?E1, ?E2, ?E3, ?E4, ?E5, ?E6, ?E7, ?E8; auto.
Qed.

Lemma neutral_promise_of e : neutral e = true → promise_of e = None.
Proof. by destruct e. Qed.

Lemma In_snoc_neutral x e (l : list Event) :
  neutral e = true → neutral x = false → In x (l ++ [e]) → In x l.
Proof.
  intros He Hx [?|[<-|[]]]%in_app_or; [done|congruence].
Qed.

Lemma Inv_emit e st : neutral e = true → Inv st → Inv (emit e st).
Proof.
  intros He [HA HF HC HR HW HN HL HG HD].
  assert (∀ x, neutral x = false → In x (log st ++ [e]) → In x (log st)) as Hin
    by eauto using In_snoc_neutral.
  split; cbn; [done| |done|done|..].
  - intros p f ws Hl. specialize (HF p f ws Hl).
    unfold frame_ok in *; cbn.
    destruct HF as (? & ? & ? & Hdel & Hpc).
    split; [done|]. split; [done|]. split; [apply in_or_app; auto|].
    split; [intros o Ho; apply Hdel; by apply Hin|].
    destruct (spc f); cbn in *.
    all: repeat match goal with H : _ ∧ _ |- _ => destruct H end.
    all: repeat match goal with H : ∃ _, _ |- _ => destruct H end.
    all: repeat split; auto.
    all: try (intros ? ? ?%Hin; [|done]; naive_solver).
    all: try (intros ? ?%Hin; [|done]; naive_solver).
    all: try (intros b Hb;
              match goal with H : ∀ _, _ → ∃ _, _ |- _ =>
                destruct (H b Hb) as [b' ?]; exists b' end).
    all: eauto using in_or_app.
  - apply wf_snoc; [done|]. split.
    + intros l0 s Hl. by destruct (HN l0 s).
    + by destruct e.
  - intros l0 s Heq. apply app_inj_tail in Heq as [_ ->]. done.
  - intros x p [?|[<-|[]]]%in_app_or Hp; [eauto|].
    rewrite neutral_promise_of in Hp; done.
  - intros p r o H1%Hin H2%Hin; eauto.
  - intros o H1%Hin; eauto.
Qed.

(** Changes outside the view. *)
Lemma Inv_set_microtasks v st : Inv st → Inv (set_microtasks v st).
Proof. by apply Inv_ext. Qed.
Lemma Inv_set_conns v st : Inv st → Inv (set_conns v st).
Proof. by apply Inv_ext. Qed.
Lemma Inv_set_pendingHttpRequests v st : Inv st → Inv (set_pendingHttpRequests v st).
Proof. by apply Inv_ext. Qed.
Lemma Inv_set_pendingWsConnections v st : Inv st → Inv (set_pendingWsConnections v st).
Proof. by apply Inv_ext. Qed.
Lemma Inv_set_isFirstStart v st : Inv st → Inv (set_isFirstStart v st).
Proof. by apply Inv_ext. Qed.
Lemma Inv_set_hasTriggeredRestart v st : Inv st → Inv (set_hasTriggeredRestart v st).
Proof. by apply Inv_ext. Qed.
Lemma Inv_set_initialServerPromise v st : Inv st → Inv (set_initialServerPromise v st).
Proof. by apply Inv_ext. Qed.
Lemma Inv_enqueue j st : Inv st → Inv (enqueue j st).
Proof. by apply Inv_ext. Qed.
Lemma Inv_upd_conn c g st : Inv st → Inv (upd_conn c g st).
Proof. by apply Inv_ext. Qed.
Lemma Inv_deliver_conn st c : Inv st → Inv (deliver_conn st c).
Proof. by apply Inv_ext. Qed.

(** Changes of the requests. *)
Lemma Inv_set_requests rs st :
  Forall (λ q, ∀ s, rpc q = RLoad s → s ≤ serverIdCounter st) rs →
  Inv st → Inv (set_requests rs st).
Proof.
  intros Hrs [HA HF HC HR HW HN HL HG HD]. by split.
Qed.

Lemma Inv_upd_request r g st :
  (∀ q s, rpc (g q) = RLoad s → rpc q = RLoad s ∨ s ≤ serverIdCounter st) →
  Inv st → Inv (upd_request r g st).
Proof.
  intros Hg HI. apply Inv_set_requests; [|done].
  apply Forall_alter; [apply HI|].
  intros q _ Hq s Hs. destruct (Hg q s Hs); auto.
Qed.

Lemma Inv_deliver_req res st r : Inv st → Inv (deliver_req res st r).
Proof.
  intros HI. apply Inv_enqueue, Inv_upd_request; [|done]. by left.
Qed.

Lemma Inv_foldl_deliver_req res ws st :
  Inv st → Inv (foldl (deliver_req res) st ws).
Proof.
  revert st. induction ws as [|r ws IH]; intros st HI; [done|].
  cbn. by apply IH, Inv_deliver_req.
Qed.

Lemma Inv_new_request q st :
  rpc q = RHold → Inv st → Inv (set_requests (requests st ++ [q]) st).
Proof.
  intros Hq HI. apply Inv_set_requests; [|done].
  apply Forall_app. split; [apply HI|].
  apply Forall_singleton. intros s. by rewrite Hq.
Qed.

(** Replacing the frame of a suspended run. *)
Lemma frame_ok_set_promises ps st p f :
  frame_ok (set_promises ps st) p f ↔ frame_ok st p f.
Proof. done. Qed.

Lemma Inv_suspend p f ws st :
  Inv st → p < length (promises st) → frame_ok st p f →
  Inv (suspend p f ws st).
Proof.
  intros [HA HF HC HR HW HN HL HG HD] Hp Hf.
  split; cbn; try done.
  - intros p' f' ws' Hl.
    apply list_lookup_insert_Some in Hl as [(-> & [= <- <-] & _) | (_ & Hl)].
    + done.
    + apply (HF _ _ _ Hl).
  - intros e q He Hq. rewrite length_insert. eauto.
Qed.

(** Settling the promise of a run. *)
Lemma Inv_settle p x st :
  (∀ f ws, x ≠ Pending f ws) →
  Inv st → Inv (set_promises (<[p := x]> (promises st)) st).
Proof.
  intros Hx [HA HF HC HR HW HN HL HG HD].
  split; cbn; try done.
  - intros p' f' ws' Hl.
    apply list_lookup_insert_Some in Hl as [(-> & -> & _) | (_ & Hl)].
    + by destruct (Hx f' ws').
    + apply (HF _ _ _ Hl).
  - intros e q He Hq. rewrite length_insert. eauto.
Qed.

(** At most one run is suspended at a time. *)
Lemma Inv_one_frame st p f ws p' f' ws' :
  Inv st →
  promises st !! p = Some (Pending f ws) →
  promises st !! p' = Some (Pending f' ws') →
  p' = p.
Proof.
  intros HI H1 H2.
  destruct (inv_frame _ HI _ _ _ H1) as [E1 _].
  destruct (inv_frame _ HI _ _ _ H2) as [E2 _]. congruence.
Qed.

Lemma Inv_no_frame st p f ws :
  Inv st → restartPromise st = None →
  promises st !! p = Some (Pending f ws) → False.
Proof.
  intros HI Hr Hl. destruct (inv_frame _ HI _ _ _ Hl) as [E _]. congruence.
Qed.

(** Emitting an event that no frame forbids. *)
Definition harmless (e : Event) : bool :=
  match e with
  | ESwapStart _ _ | EServerStarted _ _ _ | ECacheDelete _ | EClose _ _ => false
  | _ => true
  end.

Lemma In_snoc_harmless x e (l : list Event) :
  harmless e = true → harmless x = false → In x (l ++ [e]) → In x l.
Proof.
  intros He Hx [?|[<-|[]]]%in_app_or; [done|congruence].
Qed.

Lemma frame_ok_emit e st p f :
  harmless e = true → frame_ok st p f → frame_ok (emit e st) p f.
Proof.
  intros He.
  assert (∀ x, harmless x = false → In x (log st ++ [e]) → In x (log st)) as Hin
    by eauto using In_snoc_harmless.
  unfold frame_ok; cbn.
  intros (? & ? & ? & Hdel & Hpc).
  split; [done|]. split; [done|]. split; [apply in_or_app; auto|].
  split; [intros o Ho; apply Hdel; by apply Hin|].
  destruct (spc f); cbn in *.
  all: repeat match goal with H : _ ∧ _ |- _ => destruct H end.
  all: repeat match goal with H : ∃ _, _ |- _ => destruct H end.
  all: repeat split; auto.
  all: try (intros ? ? ?%Hin; [|done]; naive_solver).
  all: try (intros ? ?%Hin; [|done]; naive_solver).
  all: try (intros b Hb;
            match goal with H : ∀ _, _ → ∃ _, _ |- _ =>
              destruct (H b Hb) as [b' ?]; exists b' end).
  all: eauto using in_or_app.
Qed.

Lemma Inv_emit_gen e st :
  harmless e = true →
  guard (log st) e →
  (∀ p, promise_of e = Some p → p < length (promises st)) →
  (∀ p r o, e = EResolveHttp p r → In (ESwapStart p (Some o)) (log st) →
            o < serverIdCounter st) →
  Inv st → Inv (emit e st).
Proof.
  intros He Hg Hp Hr [HA HF HC HR HW HN HL HG HD].
  assert (∀ x, harmless x = false → In x (log st ++ [e]) → In x (log st)) as Hin
    by eauto using In_snoc_harmless.
  split; cbn; [done| |done|done|..].
  - intros p f ws Hl. apply (frame_ok_emit e st); eauto.
  - by apply wf_snoc.
  - intros l0 s Heq. apply app_inj_tail in Heq as [_ ->]. done.
  - intros x p [?|[<-|[]]]%in_app_or Hx; eauto.
  - intros p r o H1 H2%Hin; [|done].
    apply in_app_or in H1 as [?|[->|[]]]; eauto.
  - intros o H1%Hin; eauto.
Qed.

Lemma neutral_harmless e : neutral e = true → harmless e = true.
Proof. by destruct e. Qed.

Lemma guard_neutral e st : neutral e = true → Inv st → guard (log st) e.
Proof.
  intros He HI. split.
  - intros l0 s Hl. by destruct (inv_nd _ HI l0 s).
  - by destruct e.
Qed.

(** Changing the cache. *)
Lemma Inv_set_serverBuildCache c st :
  (∀ s b, c !! s = Some b → s ≤ serverIdCounter st) →
  Inv st → Inv (set_serverBuildCache c st).
Proof.
  intros Hc [HA HF HC HR HW HN HL HG HD]. by split.
Qed.

Lemma Inv_getServerBuild_loaded s b st :
  s ≤ serverIdCounter st → Inv st → Inv (getServerBuild_loaded s b st).
Proof.
  intros Hs HI. unfold getServerBuild_loaded.
  apply Inv_emit; [done|]. apply Inv_set_serverBuildCache; [|done].
  intros s' b' [[-> _]|[_ Hl]]%lookup_insert_Some; [done|].
  by apply (inv_cache _ HI s' b').
Qed.

Lemma Inv_getServerBuild s st st1 o :
  getServerBuild s st = (st1, o) → Inv st → Inv st1.
Proof.
  unfold getServerBuild. destruct (serverBuildCache st !! s).
  - by intros [= <- <-].
  - intros [= <- <-] HI. by apply Inv_emit.
Qed.

(** The call of [restartVite] that starts a run. *)
Lemma Inv_start pc st :
  Inv st → restartPromise st = None → pc = AwaitRm ∨ pc = AwaitPort →
  Inv (set_restartPromise (Some (length (promises st)))
         (new_promise (mkSwapFrame (activeVite st) (serverIdCounter st) pc None)
            (emit (ESwapStart (length (promises st)) (activeVite st)) st))).
Proof.
  intros HI Hr Hpc. pose proof HI as [HA HF HC HR HW HN HL HG HD].
  set (p := length (promises st)).
  assert (∀ x, promise_of x = Some p → ¬ In x (log st)) as Hfresh.
  { intros x Hx Hin. pose proof (HL x p Hin Hx). unfold p in *. lia. }
  split; cbn; [done| |done|done|..].
  - intros p' f' ws' [Hl|[Hlen Hl]]%lookup_app_Some.
    { by destruct (Inv_no_frame _ _ _ _ HI Hr Hl). }
    apply list_lookup_singleton_Some in Hl as [Hz [= <- <-]].
    assert (p' = p) as -> by (unfold p; lia).
    unfold frame_ok; cbn.
    split; [done|]. split.
    { intros o Ho. rewrite Ho in HA. by destruct HA. }
    split; [apply in_or_app; right; by left|].
    split.
    { intros o [Ho|[[=]|[]]]%in_app_or _. auto. }
    assert (oldServer_early :
      activeVite st = activeVite st ∧ serverIdCounter st = serverIdCounter st ∧
      (∀ s h, ¬ In (EServerStarted p s h) (log st ++ [ESwapStart p (activeVite st)])) ∧
      (∀ o, ¬ In (EClose p o) (log st ++ [ESwapStart p (activeVite st)]))).
    { repeat split.
      - intros s h [H|[[=]|[]]]%in_app_or. by eapply Hfresh in H.
      - intros o [H|[[=]|[]]]%in_app_or. by eapply Hfresh in H. }
    by destruct Hpc as [-> | ->].
  - apply wf_snoc; [done|]. split.
    + intros l0 s Hl. by destruct (HN l0 s).
    + intros old' H. by eapply Hfresh in H.
  - intros l0 s Heq. apply app_inj_tail in Heq as [_ [=]].
  - intros x q [Hx|[<-|[]]]%in_app_or Hq.
    + rewrite length_app; cbn. specialize (HL x q Hx Hq). lia.
    + injection Hq as <-. rewrite length_app; cbn. unfold p. lia.
  - intros q r o [H1|[[=]|[]]]%in_app_or [H2|[[= <- _]|[]]]%in_app_or; eauto.
    by eapply Hfresh in H1.
  - intros o [H|[[=]|[]]]%in_app_or. eauto.
Qed.

Lemma Inv_restartVite st st1 p :
  restartVite st = (st1, p) → Inv st → Inv st1 ∧ restartPromise st1 = Some p.
Proof.
  unfold restartVite. destruct (restartPromise st) as [p0|] eqn:Hr.
  - by intros [= <- <-].
  - intros [= <- <-] HI. split; [|done]. cbn [isFirstStart emit set_log].
    destruct (isFirstStart st).
    + eapply Inv_ext; [|apply (Inv_emit (ERmCache (length (promises st))));
                         [done|apply (Inv_start AwaitRm); eauto]].
      done.
    + eapply Inv_ext; [|apply (Inv_emit (EGetPort (length (promises st))));
                         [done|apply (Inv_start AwaitPort); eauto]].
      done.
Qed.

(** ** The segments of the async body keep the invariant *)

Lemma frame_ok_early pc i st p f :
  frame_ok st p f →
  (spc f = AwaitRm ∨ spc f = AwaitPort ∨ ∃ h, spc f = AwaitCreate h) →
  (pc = AwaitRm ∨ pc = AwaitPort ∨ ∃ h, pc = AwaitCreate h) →
  frame_ok st p (at_pc pc i f).
Proof.
  unfold frame_ok; cbn. intros (? & ? & ? & Hd & Hpc) Hf Hpc'.
  split; [done|]. split; [done|]. split; [done|].
  split.
  { intros o Ho _. apply Hd; [done|]. by destruct Hf as [->|[->|[? ->]]]. }
  destruct Hf as [Hf|[Hf|[? Hf]]]; rewrite Hf in Hpc;
    by destruct Hpc' as [->|[->|[? ->]]].
Qed.

(** Line 222-230: the server is created. *)
Lemma Inv_created p f ws h h0 st :
  Inv st → promises st !! p = Some (Pending f ws) → spc f = AwaitCreate h0 →
  Inv (suspend p (at_pc (AwaitLoad (S (serverIdCounter st))) None f) ws
         (emit (ELoad (S (serverIdCounter st)))
            (set_activeHmrPort (Some h)
               (set_activeVite (Some (S (serverIdCounter st)))
                  (emit (EServerStarted p (S (serverIdCounter st)) h)
                     (set_serverIdCounter (S (serverIdCounter st)) st)))))).
Proof.
  intros HI Hl Hpc. pose proof HI as [HA HF HC HR HW HN HL HG HD].
  pose proof (HF _ _ _ Hl) as (Hrp & Hold & Hst & Hdel & Hearly).
  rewrite Hpc in Hearly. destruct Hearly as (Ho1 & Ho2 & Hns & Hnc).
  set (n := S (serverIdCounter st)).
  split; cbn; fold n.
  - split; [done|]. split; [lia|]. by eexists.
  - intros p' f' ws' Hl'.
    apply list_lookup_insert_Some in Hl' as [(-> & [= <- <-] & _) | (Hne & Hl')].
    2: { by destruct Hne; eapply Inv_one_frame. }
    unfold frame_ok; cbn; fold n.
    split; [done|]. split; [done|].
    split; [rewrite !in_app_iff; auto|].
    split.
    { intros o [[Ho|[[=]|[]]]%in_app_or|[[=]|[]]]%in_app_or _.
      apply Hdel; [done|]. by rewrite Hpc. }
    split; [done|]. split; [lia|]. split.
    + exists h. rewrite !in_app_iff; cbn; auto.
    + intros o [[Ho|[[=]|[]]]%in_app_or|[[=]|[]]]%in_app_or. by eapply Hnc.
  - intros s b Hs. specialize (HC s b Hs). lia.
  - eapply Forall_impl; [done|]. cbn. intros q Hq s Hs. specialize (Hq s Hs). lia.
  - apply wf_snoc; [apply wf_snoc; [done|]|]; split.
    + intros l0 s Heq. by destruct (HN l0 s).
    + split; [eauto|done].
    + intros l0 s Heq. apply app_inj_tail in Heq as [_ [=]].
    + done.
  - intros l0 s Heq. apply app_inj_tail in Heq as [_ [=]].
  - intros e q Hin Hq. rewrite length_insert.
    apply in_app_or in Hin as [Hin|[<-|[]]]; [|done].
    apply in_app_or in Hin as [Hin|[<-|[]]]; [eauto|].
    injection Hq as <-. by eapply lookup_lt_Some.
  - intros q r o [[H1|[[=]|[]]]%in_app_or|[[=]|[]]]%in_app_or
                 [[H2|[[=]|[]]]%in_app_or|[[=]|[]]]%in_app_or.
    specialize (HG q r o H1 H2). lia.
  - intros o [[H1|[[=]|[]]]%in_app_or|[[=]|[]]]%in_app_or.
    specialize (HD o H1). lia.
Qed.

(** A hold is released by the run [p], whose artifact is loaded. *)
Lemma guard_resolve st p f ws n b e :
  Inv st → promises st !! p = Some (Pending f ws) →
  spc f = AwaitBuild n → sinbox f = Some (ROk b) →
  (∃ x, e = EResolveHttp p x ∨ e = EResolveWs p x) →
  guard (log st) e.
Proof.
  intros HI Hl Hpc Hin [x He].
  pose proof (inv_frame _ HI _ _ _ Hl) as (Hrp & Hold & Hst & Hdel & Hlate).
  rewrite Hpc in Hlate. destruct Hlate as (-> & Hlt & [h Hh] & Hnc & Hb).
  destruct (Hb b Hin) as [b' Hb'].
  split.
  - intros l0 s Heq. by destruct (inv_nd _ HI l0 s).
  - destruct He as [-> | ->]; cbn; (split; [eauto|split; [eauto 6|done]]).
Qed.

Lemma Inv_emit_resolve st p f ws n b e :
  Inv st → promises st !! p = Some (Pending f ws) →
  spc f = AwaitBuild n → sinbox f = Some (ROk b) →
  (∃ x, e = EResolveHttp p x ∨ e = EResolveWs p x) →
  Inv (emit e st).
Proof.
  intros HI Hl Hpc Hin He.
  pose proof (guard_resolve _ _ _ _ _ _ _ HI Hl Hpc Hin He) as Hg.
  pose proof (inv_frame _ HI _ _ _ Hl) as (Hrp & Hold & Hst & Hdel & Hlate).
  rewrite Hpc in Hlate. destruct Hlate as (-> & Hlt & _).
  apply Inv_emit_gen; [by destruct He as [x [-> | ->]]|done| | |done].
  - intros q Hq. assert (q = p) as ->.
    { destruct He as [x [-> | ->]]; cbn in Hq; congruence. }
    by eapply lookup_lt_Some.
  - intros q r o -> Ho.
    assert (q = p) as -> by (destruct He as [x [[=]|[=]]]; done).
    pose proof (wf_start_unique _ _ _ _ (inv_wf _ HI) Hst Ho) as Heq.
    specialize (Hold o Heq). lia.
Qed.

Lemma Inv_flush_http st p f ws n b :
  Inv st → promises st !! p = Some (Pending f ws) →
  spc f = AwaitBuild n → sinbox f = Some (ROk b) →
  Inv (flush_http p st) ∧ promises (flush_http p st) = promises st.
Proof.
  intros HI Hl Hpc Hin. unfold flush_http.
  assert (Inv (set_pendingHttpRequests [] st)) as HI0
    by by apply Inv_set_pendingHttpRequests.
  assert (promises (set_pendingHttpRequests [] st) = promises st) as Hp0 by done.
  revert HI0 Hp0. generalize (set_pendingHttpRequests [] st) as s0.
  induction (pendingHttpRequests st) as [|r hs IH]; intros s0 HI0 Hp0; [done|].
  cbn [foldl]. apply IH; [|done].
  apply Inv_deliver_req. eapply Inv_emit_resolve; eauto.
  rewrite Hp0. done.
Qed.

Lemma Inv_flush_ws st p f ws n b :
  Inv st → promises st !! p = Some (Pending f ws) →
  spc f = AwaitBuild n → sinbox f = Some (ROk b) →
  Inv (flush_ws p st) ∧ promises (flush_ws p st) = promises st.
Proof.
  intros HI Hl Hpc Hin. unfold flush_ws.
  assert (Inv (set_pendingWsConnections [] st)) as HI0
    by by apply Inv_set_pendingWsConnections.
  assert (promises (set_pendingWsConnections [] st) = promises st) as Hp0 by done.
  revert HI0 Hp0. generalize (set_pendingWsConnections [] st) as s0.
  induction (pendingWsConnections st) as [|r hs IH]; intros s0 HI0 Hp0; [done|].
  cbn [foldl]. apply IH; [|done].
  apply Inv_deliver_conn. eapply Inv_emit_resolve; eauto.
  rewrite Hp0. done.
Qed.

(** Lines 246-251: the entry of the old server is removed and its close is
    initiated. *)
Lemma Inv_close p f ws n o st :
  Inv st → promises st !! p = Some (Pending f ws) →
  spc f = AwaitBuild n → oldServer f = Some o →
  Inv (suspend p (at_pc AwaitClose None f) ws
         (emit (EClose p o)
            (emit (ECacheDelete o)
               (set_serverBuildCache (delete o (serverBuildCache st)) st)))).
Proof.
  intros HI Hl Hpc Ho. pose proof HI as [HA HF HC HR HW HN HL HG HD].
  pose proof (HF _ _ _ Hl) as (Hrp & Hold & Hst & Hdel & Hlate).
  rewrite Hpc in Hlate. destruct Hlate as (-> & Hlt & [h Hh] & Hnc & Hb).
  pose proof (Hold o Ho) as ->.
  assert (¬ In (ECacheDelete (oldServerId f)) (log st)) as Hfresh.
  { intros Hin. apply Hdel in Hin; [lia|]. by rewrite Hpc. }
  split; cbn; [done| | |done|..].
  - intros p' f' ws' Hl'.
    apply list_lookup_insert_Some in Hl' as [(-> & [= <- <-] & _) | (Hne & Hl')].
    2: { by destruct Hne; eapply Inv_one_frame. }
    unfold frame_ok; cbn.
    split; [done|]. split; [done|].
    split; [rewrite !in_app_iff; auto|].
    split; [done|]. split; [lia|].
    exists (serverIdCounter st), h. rewrite !in_app_iff; auto.
  - intros s b [_ Hs]%lookup_delete_Some. eauto.
  - apply wf_snoc; [apply wf_snoc; [done|]|]; split.
    + intros l0 s Heq. by destruct (HN l0 s).
    + done.
    + intros l0 s Heq. apply app_inj_tail in Heq as [_ [= <-]]. eauto.
    + cbn. eauto.
  - intros l0 s Heq. apply app_inj_tail in Heq as [_ [=]].
  - intros e q Hin Hq. rewrite length_insert.
    apply in_app_or in Hin as [Hin|[<-|[]]].
    + apply in_app_or in Hin as [Hin|[<-|[]]]; [eauto|done].
    + injection Hq as <-. by eapply lookup_lt_Some.
  - intros q r x [[H1|[[=]|[]]]%in_app_or|[[=]|[]]]%in_app_or
                 [[H2|[[=]|[]]]%in_app_or|[[=]|[]]]%in_app_or. eauto.
  - intros x [[H1|[[= <-]|[]]]%in_app_or|[[=]|[]]]%in_app_or; [eauto|lia].
Qed.

(** Line 258: the run ends. *)
Lemma Inv_finish p f ws st :
  Inv st → promises st !! p = Some (Pending f ws) →
  (spc f = AwaitClose ∨ ∃ n, spc f = AwaitBuild n) →
  Inv (emit (ESwapDone p)
         (set_promises (<[p := Fulfilled]> (promises st))
            (set_restartPromise None st))).
Proof.
  intros HI Hl Hpc. pose proof HI as [HA HF HC HR HW HN HL HG HD].
  pose proof (HF _ _ _ Hl) as (Hrp & Hold & Hst & Hdel & Hlate).
  assert (∃ s h, In (EServerStarted p s h) (log st)) as Hs.
  { destruct Hpc as [Hpc|[n Hpc]]; rewrite Hpc in Hlate.
    - by destruct Hlate.
    - destruct Hlate as (_ & _ & [h Hh] & _). eauto. }
  apply Inv_emit_gen; [done| | |done|].
  - split; [|done]. intros l0 s Heq. by destruct (HN l0 s).
  - intros q [= <-]. cbn. rewrite length_insert. by eapply lookup_lt_Some.
  - split; cbn; try done.
    + intros p' f' ws' Hl'.
      apply list_lookup_insert_Some in Hl' as [(-> & [=] & _) | (Hne & Hl')].
      by destruct Hne; eapply Inv_one_frame.
    + intros e q He Hq. rewrite length_insert. eauto.
Qed.

Lemma Inv_fulfil p f ws st :
  Inv st → promises st !! p = Some (Pending f ws) →
  (spc f = AwaitClose ∨ ∃ n, spc f = AwaitBuild n) →
  Inv (fulfil p ws (set_restartPromise None st)).
Proof.
  intros HI Hl Hpc. unfold fulfil. apply Inv_foldl_deliver_req.
  exact (Inv_finish p f ws st HI Hl Hpc).
Qed.

Lemma Inv_reject p ws st : Inv st → Inv (reject p ws st).
Proof.
  intros HI. unfold reject. apply Inv_foldl_deliver_req.
  apply Inv_emit; [done|]. by apply Inv_settle.
Qed.

Lemma frame_ok_build st p f n i :
  frame_ok st p f → spc f = AwaitLoad n →
  (∀ b, i = Some (ROk b) → ∃ b', In (ECacheSet n b') (log st)) →
  frame_ok st p (at_pc (AwaitBuild n) i f).
Proof.
  unfold frame_ok; cbn. intros (? & ? & ? & Hd & Hpc) Hf Hi.
  rewrite Hf in Hpc. destruct Hpc as (? & ? & ? & ?).
  split; [done|]. split; [done|]. split; [done|].
  split; [|done]. intros o Ho _. apply Hd; [done|]. by rewrite Hf.
Qed.

Lemma Inv_swap_step p f ws res st :
  Inv st → promises st !! p = Some (Pending f ws) → sinbox f = Some res →
  Inv (swap_step p f ws res st).
Proof.
  intros HI Hl Hin. pose proof (lookup_lt_Some _ _ _ Hl) as Hlt.
  pose proof (inv_frame _ HI _ _ _ Hl) as Hf.
  unfold swap_step. destruct (spc f) as [| |h|n|n|] eqn:Hpc.
  - apply Inv_suspend; [by apply Inv_emit, Inv_set_isFirstStart|done|].
    apply (frame_ok_emit (EGetPort p)); [done|].
    apply frame_ok_early; auto.
  - destruct res as [hmrPort|]; [|by apply Inv_reject].
    apply Inv_suspend; [by apply Inv_emit|done|].
    apply (frame_ok_emit (ECreateServer p hmrPort)); [done|].
    apply frame_ok_early; eauto.
  - destruct res as [v|]; [|by apply Inv_reject].
    unfold getServerBuild; cbn.
    match goal with
    | |- context [@lookup ?K ?A ?M ?L ?k (serverBuildCache st)] =>
        destruct (@lookup K A M L k (serverBuildCache st)) as [b|] eqn:Hc
    end.
    { apply (inv_cache _ HI (S (serverIdCounter st)) b) in Hc. lia. }
    by eapply Inv_created.
  - destruct res as [build|].
    + destruct Hf as (? & ? & ? & ? & Hlate). pose proof Hlate as Hlate'.
      rewrite Hpc in Hlate'. destruct Hlate' as (-> & _).
      apply Inv_enqueue, Inv_suspend.
      * by apply Inv_getServerBuild_loaded.
      * done.
      * apply frame_ok_build; [|done|].
        -- apply (frame_ok_emit (ECacheSet _ build)); done.
        -- intros b _. exists build. cbn. apply in_or_app. right. by left.
    + apply Inv_enqueue, Inv_suspend; [done..|].
      by apply frame_ok_build.
  - destruct res as [b|]; [|by apply Inv_reject].
    destruct (Inv_flush_http st p f ws n b HI Hl Hpc Hin) as [HI1 Hp1].
    rewrite <- Hp1 in Hl.
    destruct (Inv_flush_ws _ p f ws n b HI1 Hl Hpc Hin) as [HI2 Hp2].
    rewrite <- Hp2 in Hl.
    destruct (oldServer f) as [o|] eqn:Ho.
    + by eapply Inv_close.
    + eapply Inv_fulfil; eauto.
  - eapply Inv_fulfil; eauto.
Qed.

(** ** The hook and the proxy keep the invariant *)

Lemma Inv_await_promise p r st : Inv st → Inv (await_promise p r st).
Proof.
  intros HI. unfold await_promise.
  destruct (promises st !! p) as [[f ws| |]|] eqn:Hl; [|by apply Inv_deliver_req..|done].
  apply Inv_suspend; [done|by eapply lookup_lt_Some|].
  by eapply inv_frame.
Qed.

Lemma Inv_ensureFirstServer st st1 ret :
  ensureFirstServer st = (st1, ret) → Inv st → Inv st1.
Proof.
  unfold ensureFirstServer. destruct (activeVite st); [by intros [= <- <-]|].
  destruct (initialServerPromise st); [by intros [= <- <-]|].
  destruct (restartVite st) as [st2 p] eqn:Hr. intros [= <- <-] HI.
  apply Inv_set_initialServerPromise. by eapply Inv_restartVite.
Qed.

Lemma Inv_after_hold r st : Inv st → Inv (after_hold r st).
Proof.
  intros HI. unfold after_hold.
  match goal with
  | |- context [ensureFirstServer ?s] =>
      destruct (ensureFirstServer s) as [st1 [p|]] eqn:He
  end.
  - apply Inv_await_promise. eapply Inv_ensureFirstServer; [done|].
    apply Inv_upd_request; [|done]. by intros q s [=].
  - apply Inv_deliver_req. eapply Inv_ensureFirstServer; [done|].
    apply Inv_upd_request; [|done]. by intros q s [=].
Qed.

Lemma Inv_onRequest u st : Inv st → Inv (onRequest u st).
Proof.
  intros HI. unfold onRequest.
  set (st0 := set_requests _ st).
  assert (Inv st0) as HI0 by by apply Inv_new_request.
  assert (∀ st1, Inv st1 →
            Inv match restartPromise st1 with
                | Some _ =>
                    emit (EHoldHttp (length (requests st)) (activeVite st1))
                      (set_pendingHttpRequests
                         (pendingHttpRequests st1 ++ [length (requests st)]) st1)
                | None => after_hold (length (requests st)) st1
                end) as Hrest.
  { intros st1 HI1. destruct (restartPromise st1).
    - apply Inv_emit; [done|]. by apply Inv_set_pendingHttpRequests.
    - by apply Inv_after_hold. }
  match goal with |- context [andb ?a ?b] => destruct (andb a b) end.
  - apply Hrest.
    match goal with
    | |- context [restartVite ?s] => destruct (restartVite s) as [st2 p] eqn:Hr
    end. cbn.
    eapply Inv_restartVite; [done|]. by apply Inv_set_hasTriggeredRestart.
  - by apply Hrest.
Qed.

Lemma Inv_req_step r q res st :
  Inv st → requests st !! r = Some q → Inv (req_step r q res st).
Proof.
  intros HI Hq. unfold req_step.
  assert (∀ pc, (∀ s, pc ≠ RLoad s) → ∀ st',
            Inv st' → Inv (upd_request r (λ q, set_rinbox None (set_rpc pc q)) st'))
    as Hupd.
  { intros pc Hpc st' HI'. apply Inv_upd_request; [|done].
    intros q' s Hs. by destruct (Hpc s). }
  destruct (rpc q) as [| |s| | |] eqn:Hpc; [by apply Inv_after_hold|..|done|done].
  - destruct res as [v|]; [|by apply Hupd].
    destruct (activeVite st) as [s|] eqn:Ha; [|by apply Hupd].
    pose proof (inv_active _ HI) as HA. rewrite Ha in HA. destruct HA as (-> & _).
    set (st1 := emit _ _).
    assert (Inv st1) as HI1.
    { apply Inv_emit_gen; [done| |done|done|].
      - split; cbn.
        + intros l0 s0 Heq. by destruct (inv_nd _ HI l0 s0).
        + intros p o. apply (inv_g3 _ HI).
      - apply Inv_upd_request; [|done]. by left. }
    destruct (getServerBuild _ st1) as [st2 [b|]] eqn:Hg.
    + apply Inv_deliver_req, Hupd; [done|]. by eapply Inv_getServerBuild.
    + apply Inv_upd_request; [|by eapply Inv_getServerBuild].
      intros q' s0 Hs0. cbn in Hs0. injection Hs0 as <-. right.
      unfold getServerBuild in Hg.
      destruct (serverBuildCache st1 !! _); by injection Hg as <-.
  - assert (s ≤ serverIdCounter st) as Hs.
    { pose proof (inv_rload _ HI) as HR.
      rewrite Forall_lookup in HR. by apply (HR r q Hq). }
    destruct res as [build|].
    + apply Inv_deliver_req, Hupd; [done|]. by apply Inv_getServerBuild_loaded.
    + by apply Inv_deliver_req, Hupd.
  - destruct res as [b|]; [|by apply Hupd].
    apply Inv_upd_request; [|done]. by intros q' s [=].
Qed.

Lemma Inv_proxy c st : Inv st → Inv (proxy c st).
Proof.
  intros HI. unfold proxy.
  destruct (activeHmrPort st) as [[|n]|]; by apply Inv_emit, Inv_upd_conn.
Qed.

Lemma Inv_onUpgrade h st : Inv st → Inv (onUpgrade h st).
Proof.
  intros HI. unfold onUpgrade.
  destruct (restartPromise _).
  - by apply Inv_emit, Inv_set_pendingWsConnections, Inv_set_conns.
  - by apply Inv_proxy, Inv_set_conns.
Qed.

Lemma Inv_onClientClose c k st : Inv st → Inv (onClientClose c k st).
Proof.
  intros HI. unfold onClientClose.
  assert (Inv (emit (EClientClose c) (upd_conn c (set_cclosed true) st)))
    by by apply Inv_emit, Inv_upd_conn.
  destruct (cpc k); try done; by apply Inv_emit.
Qed.

Lemma Inv_run_job j st : Inv st → Inv (run_job j st).
Proof.
  intros HI. destruct j as [p|r|c]; cbn.
  - destruct (promises st !! p) as [[f ws| |]|] eqn:Hl; try done.
    destruct (sinbox f) as [res|] eqn:Hin; [|done].
    by apply Inv_swap_step.
  - destruct (requests st !! r) as [q|] eqn:Hq; [|done].
    destruct (rinbox q); [|done]. by apply Inv_req_step.
  - destruct (conns st !! c) as [k|]; [|done].
    destruct (cpc k), (cinbox k); try done. by apply Inv_proxy.
Qed.

Lemma frame_ok_inbox st p f i :
  awaits_io f = true → frame_ok st p f → frame_ok st p (at_pc (spc f) i f).
Proof.
  unfold awaits_io, frame_ok; cbn. by destruct (spc f).
Qed.

Theorem step_Inv i st st' : Inv st → step i st = Some st' → Inv st'.
Proof.
  intros HI. destruct i as [|u|h|p res|r res|c|c|c]; cbn.
  - destruct (microtasks st) as [|j q]; [done|]. intros [= <-].
    by apply Inv_run_job, Inv_set_microtasks.
  - destruct (microtasks st); [|done]. intros [= <-]. by apply Inv_onRequest.
  - destruct (microtasks st); [|done]. intros [= <-]. by apply Inv_onUpgrade.
  - destruct (promises st !! p) as [[f ws| |]|] eqn:Hl; try done.
    destruct (awaits_io f) eqn:Hio; [|done]. intros [= <-].
    apply Inv_enqueue, Inv_suspend; [done|by eapply lookup_lt_Some|].
    apply frame_ok_inbox; [done|]. by eapply inv_frame.
  - destruct (requests st !! r) as [q|]; [|done].
    destruct (rpc q), (rinbox q); try done. intros [= <-].
    by apply Inv_deliver_req.
  - destruct (microtasks st); [|done].
    destruct (conns st !! c) as [k|]; [|done].
    destruct (cclosed k); [done|]. intros [= <-]. by apply Inv_onClientClose.
  - destruct (microtasks st); [|done].
    destruct (conns st !! c) as [k|]; [|done].
    destruct (cpc k); try done. intros [= <-]. by apply Inv_emit, Inv_upd_conn.
  - destruct (microtasks st); [|done].
    destruct (conns st !! c) as [k|]; [|done].
    destruct (cpc k); try done; intros [= <-]; by apply Inv_emit, Inv_upd_conn.
Qed.

Lemma Inv_init : Inv init.
Proof.
  split; cbn; try done.
  - constructor.
  - intros l0 s H. by destruct l0.
Qed.

Lemma run_Inv_from tr st st' : Inv st → run tr st = Some st' → Inv st'.
Proof.
  revert st. induction tr as [|i tr IH]; intros st HI; cbn.
  - by intros [= <-].
  - destruct (step i st) as [st1|] eqn:Hs; [|done].
    eauto using step_Inv.
Qed.

Theorem run_Inv tr st : run tr init = Some st → Inv st.
Proof. apply run_Inv_from, Inv_init. Qed.

(** ** When no run can start any more

    No run of the async body is suspended, and neither call site of
    [restartVite] can start one: either [restartPromise] is set (line 192
    returns it), or the restart has been triggered (line 279) and a server
    is active (line 270). *)

Definition swap_event (e : Event) : bool :=
  match e with
  | ESwapStart _ _ | EServerStarted _ _ _ | ECacheDelete _ | EClose _ _
  | ESwapDone _ | EResolveHttp _ _ | EResolveWs _ _ => true
  | _ => false
  end.

Definition no_pending (st : St) : Prop :=
  ∀ p f ws, promises st !! p ≠ Some (Pending f ws).

Definition never_restarts (st : St) : Prop :=
  is_Some (restartPromise st) ∨
  (hasTriggeredRestart st = true ∧ is_Some (activeVite st)).

Record quiet (st st' : St) : Prop := mkQuiet {
  q_activeVite : activeVite st' = activeVite st;
  q_activeHmrPort : activeHmrPort st' = activeHmrPort st;
  q_serverIdCounter : serverIdCounter st' = serverIdCounter st;
  q_restartPromise : restartPromise st' = restartPromise st;
  q_promises : promises st' = promises st;
  q_triggered : hasTriggeredRestart st = true → hasTriggeredRestart st' = true;
  q_http : ∃ l, pendingHttpRequests st' = pendingHttpRequests st ++ l;
  q_ws : ∃ l, pendingWsConnections st' = pendingWsConnections st ++ l;
  q_events : ∀ e, swap_event e = true → In e (log st') → In e (log st)
}.

Lemma quiet_refl st : quiet st st.
Proof. split; auto; exists []; by rewrite app_nil_r. Qed.

Lemma quiet_trans st1 st2 st3 : quiet st1 st2 → quiet st2 st3 → quiet st1 st3.
Proof.
  intros [A1 B1 C1 D1 E1 F1 [l1 G1] [k1 H1] I1] [A2 B2 C2 D2 E2 F2 [l2 G2] [k2 H2] I2].
  split; try congruence; auto.
  - exists (l1 ++ l2). by rewrite G2, G1, app_assoc.
  - exists (k1 ++ k2). by rewrite H2, H1, app_assoc.
Qed.

Lemma quiet_no_pending st st' : quiet st st' → no_pending st → no_pending st'.
Proof. intros Hq Hn p f ws. rewrite (q_promises _ _ Hq). apply Hn. Qed.

Lemma quiet_never_restarts st st' :
  quiet st st' → never_restarts st → never_restarts st'.
Proof.
  intros Hq [Hr|[Ht Ha]]; [left|right].
  - by rewrite (q_restartPromise _ _ Hq).
  - split; [by apply (q_triggered _ _ Hq)|by rewrite (q_activeVite _ _ Hq)].
Qed.

(** A state change that leaves the coordinator's variables alone and
    releases nothing. *)
Definition qview (st : St) :=
  (activeVite st, activeHmrPort st, serverIdCounter st, restartPromise st,
   promises st, hasTriggeredRestart st, pendingHttpRequests st,
   pendingWsConnections st, log st).

Lemma quiet_qview st st' : qview st' = qview st → quiet st st'.
Proof.
  unfold qview. intros [= E1 E2 E3 E4 E5 E6 E7 E8 E9].
  split; try congruence.
  - exists []. by rewrite app_nil_r.
  - exists []. by rewrite app_nil_r.
Qed.

Lemma quiet_emit e st : swap_event e = false → quiet st (emit e st).
Proof.
  intros He. split; cbn; auto.
  - exists []. by rewrite app_nil_r.
  - exists []. by rewrite app_nil_r.
  - intros x Hx [?|[<-|[]]]%in_app_or; [done|congruence].
Qed.

Lemma quiet_upd_request r g st : quiet st (upd_request r g st).
Proof. by apply quiet_qview. Qed.
Lemma quiet_upd_conn c g st : quiet st (upd_conn c g st).
Proof. by apply quiet_qview. Qed.
Lemma quiet_enqueue j st : quiet st (enqueue j st).
Proof. by apply quiet_qview. Qed.
Lemma quiet_set_microtasks v st : quiet st (set_microtasks v st).
Proof. by apply quiet_qview. Qed.
Lemma quiet_set_requests v st : quiet st (set_requests v st).
Proof. by apply quiet_qview. Qed.
Lemma quiet_set_conns v st : quiet st (set_conns v st).
Proof. by apply quiet_qview. Qed.
Lemma quiet_set_initialServerPromise v st : quiet st (set_initialServerPromise v st).
Proof. by apply quiet_qview. Qed.
Lemma quiet_set_serverBuildCache v st : quiet st (set_serverBuildCache v st).
Proof. by apply quiet_qview. Qed.
Lemma quiet_deliver_req res st r : quiet st (deliver_req res st r).
Proof. by apply quiet_qview. Qed.

Lemma quiet_set_hasTriggeredRestart st : quiet st (set_hasTriggeredRestart true st).
Proof.
  split; cbn; auto; exists []; by rewrite app_nil_r.
Qed.

Lemma quiet_push_http r st :
  quiet st (set_pendingHttpRequests (pendingHttpRequests st ++ [r]) st).
Proof.
  split; cbn; eauto. exists []. by rewrite app_nil_r.
Qed.

Lemma quiet_push_ws h st :
  quiet st (set_pendingWsConnections (pendingWsConnections st ++ [h]) st).
Proof.
  split; cbn; eauto. exists []. by rewrite app_nil_r.
Qed.

Create HintDb quiet.
#[local] Hint Resolve quiet_refl quiet_emit quiet_upd_request quiet_upd_conn
  quiet_enqueue quiet_set_microtasks quiet_set_requests quiet_set_conns
  quiet_set_initialServerPromise quiet_set_serverBuildCache quiet_deliver_req
  quiet_set_hasTriggeredRestart quiet_push_http quiet_push_ws : quiet.

Lemma quiet_getServerBuild s st st1 o :
  getServerBuild s st = (st1, o) → quiet st st1.
Proof.
  unfold getServerBuild. destruct (serverBuildCache st !! s); intros [= <- <-].
  - apply quiet_refl.
  - by apply quiet_emit.
Qed.

Lemma quiet_getServerBuild_loaded s b st : quiet st (getServerBuild_loaded s b st).
Proof.
  unfold getServerBuild_loaded.
  eapply quiet_trans; [apply quiet_set_serverBuildCache|by apply quiet_emit].
Qed.

Lemma quiet_restartVite st st1 p :
  is_Some (restartPromise st) → restartVite st = (st1, p) → st1 = st.
Proof.
  unfold restartVite. intros [p0 ->]. by intros [= <- <-].
Qed.

Lemma quiet_ensureFirstServer st st1 ret :
  never_restarts st → ensureFirstServer st = (st1, ret) → quiet st st1.
Proof.
  intros Hn. unfold ensureFirstServer.
  destruct (activeVite st) eqn:Ha; [intros [= <- <-]; apply quiet_refl|].
  destruct (initialServerPromise st); [intros [= <- <-]; apply quiet_refl|].
  destruct Hn as [Hr|[_ [? Hs]]]; [|congruence].
  destruct (restartVite st) as [st2 p] eqn:Hrv.
  apply quiet_restartVite in Hrv as ->; [|done].
  intros [= <- <-]. apply quiet_set_initialServerPromise.
Qed.

Lemma quiet_await_promise p r st :
  no_pending st → quiet st (await_promise p r st).
Proof.
  intros Hn. unfold await_promise.
  destruct (promises st !! p) as [[f ws| |]|] eqn:Hl; auto with quiet.
  by destruct (Hn p f ws).
Qed.

Lemma quiet_after_hold r st :
  no_pending st → never_restarts st → quiet st (after_hold r st).
Proof.
  intros Hn Hr. unfold after_hold.
  set (st0 := upd_request _ _ st).
  assert (quiet st st0) as H0 by apply quiet_upd_request.
  destruct (ensureFirstServer st0) as [st1 [p|]] eqn:He.
  - apply quiet_ensureFirstServer in He; [|by eapply quiet_never_restarts].
    eapply quiet_trans; [exact H0|]. eapply quiet_trans; [exact He|].
    apply quiet_await_promise. eauto using quiet_no_pending, quiet_trans.
  - apply quiet_ensureFirstServer in He; [|by eapply quiet_never_restarts].
    eauto using quiet_trans, quiet_deliver_req.
Qed.

Lemma quiet_onRequest u st :
  no_pending st → never_restarts st → quiet st (onRequest u st).
Proof.
  intros Hn Hr. unfold onRequest.
  set (st0 := set_requests _ st).
  assert (quiet st st0) as H0 by apply quiet_set_requests.
  assert (∀ st1, quiet st st1 →
            quiet st match restartPromise st1 with
                     | Some _ =>
                         emit (EHoldHttp (length (requests st)) (activeVite st1))
                           (set_pendingHttpRequests
                              (pendingHttpRequests st1 ++ [length (requests st)]) st1)
                     | None => after_hold (length (requests st)) st1
                     end) as Hrest.
  { intros st1 H1. destruct (restartPromise st1).
    - eapply quiet_trans; [exact H1|].
      eapply quiet_trans; [apply quiet_push_http|by apply quiet_emit].
    - eapply quiet_trans; [exact H1|].
      apply quiet_after_hold; eauto using quiet_no_pending, quiet_never_restarts. }
  match goal with |- context [andb ?a ?b] => destruct (andb a b) eqn:Hb end.
  - apply Hrest.
    apply andb_prop in Hb as [_ Hb]. apply negb_true_iff in Hb.
    match goal with
    | |- context [restartVite ?s] => destruct (restartVite s) as [st2 p] eqn:Hrv
    end. cbn.
    apply quiet_restartVite in Hrv as ->.
    + eapply quiet_trans; [exact H0|apply quiet_set_hasTriggeredRestart].
    + destruct Hr as [Hr|[Ht _]]; [done|]. cbn in Hb. congruence.
  - by apply Hrest.
Qed.

Lemma quiet_req_step r q res st :
  no_pending st → never_restarts st → quiet st (req_step r q res st).
Proof.
  intros Hn Hr. unfold req_step.
  destruct (rpc q) as [| |s| | |]; [by apply quiet_after_hold|..];
    try apply quiet_refl.
  - destruct res as [v|]; [|apply quiet_upd_request].
    destruct (activeVite st) as [s|]; [|apply quiet_upd_request].
    set (st1 := emit _ _).
    assert (quiet st st1) as H1.
    { eapply quiet_trans; [apply quiet_upd_request|by apply quiet_emit]. }
    destruct (getServerBuild s st1) as [st2 [b|]] eqn:Hg;
      apply quiet_getServerBuild in Hg.
    + eapply quiet_trans; [exact H1|]. eapply quiet_trans; [exact Hg|].
      eapply quiet_trans; [apply quiet_upd_request|apply quiet_deliver_req].
    + eapply quiet_trans; [exact H1|]. eapply quiet_trans; [exact Hg|].
      apply quiet_upd_request.
  - destruct res as [build|].
    + eapply quiet_trans; [apply quiet_getServerBuild_loaded|].
      eapply quiet_trans; [apply quiet_upd_request|apply quiet_deliver_req].
    + eapply quiet_trans; [apply quiet_upd_request|apply quiet_deliver_req].
  - destruct res; apply quiet_upd_request.
Qed.

Lemma quiet_proxy c st : quiet st (proxy c st).
Proof.
  unfold proxy. destruct (activeHmrPort st) as [[|n]|];
    (eapply quiet_trans; [apply quiet_upd_conn|by apply quiet_emit]).
Qed.

Lemma quiet_step i st st' :
  no_pending st → never_restarts st → step i st = Some st' → quiet st st'.
Proof.
  intros Hn Hr. destruct i as [|u|h|p res|r res|c|c|c]; cbn.
  - destruct (microtasks st) as [|j l]; [done|]. intros [= <-].
    eapply quiet_trans; [apply (quiet_set_microtasks l)|].
    destruct j as [p|r|c]; cbn.
    + destruct (promises st !! p) as [[f ws| |]|] eqn:Hl; try apply quiet_refl.
      by destruct (Hn p f ws).
    + destruct (requests st !! r) as [q|]; [|apply quiet_refl].
      destruct (rinbox q); [|apply quiet_refl]. by apply quiet_req_step.
    + destruct (conns st !! c) as [k|]; [|apply quiet_refl].
      destruct (cpc k), (cinbox k); try apply quiet_refl. apply quiet_proxy.
  - destruct (microtasks st); [|done]. intros [= <-]. by apply quiet_onRequest.
  - destruct (microtasks st); [|done]. intros [= <-]. unfold onUpgrade.
    destruct (restartPromise _).
    + eapply quiet_trans; [apply quiet_set_conns|].
      eapply quiet_trans; [apply quiet_push_ws|by apply quiet_emit].
    + eapply quiet_trans; [apply quiet_set_conns|apply quiet_proxy].
  - destruct (promises st !! p) as [[f ws| |]|] eqn:Hl; try done.
    by destruct (Hn p f ws).
  - destruct (requests st !! r) as [q|]; [|done].
    destruct (rpc q), (rinbox q); try done. intros [= <-].
    apply quiet_deliver_req.
  - destruct (microtasks st); [|done].
    destruct (conns st !! c) as [k|]; [|done].
    destruct (cclosed k); [done|]. intros [= <-]. unfold onClientClose.
    assert (quiet st (emit (EClientClose c) (upd_conn c (set_cclosed true) st))).
    { eapply quiet_trans; [apply quiet_upd_conn|by apply quiet_emit]. }
    destruct (cpc k); try done;
      (eapply quiet_trans; [eassumption|by apply quiet_emit]).
  - destruct (microtasks st); [|done].
    destruct (conns st !! c) as [k|]; [|done].
    destruct (cpc k); try done. intros [= <-].
    eapply quiet_trans; [apply quiet_upd_conn|by apply quiet_emit].
  - destruct (microtasks st); [|done].
    destruct (conns st !! c) as [k|]; [|done].
    destruct (cpc k); try done; intros [= <-];
      (eapply quiet_trans; [apply quiet_upd_conn|by apply quiet_emit]).
Qed.

Lemma quiet_run tr st st' :
  no_pending st → never_restarts st → run tr st = Some st' → quiet st st'.
Proof.
  revert st. induction tr as [|i tr IH]; intros st Hn Hr; cbn.
  - intros [= <-]. apply quiet_refl.
  - destruct (step i st) as [st1|] eqn:Hs; [|done]. intros Hrun.
    pose proof (quiet_step _ _ _ Hn Hr Hs) as H1.
    eapply quiet_trans; [exact H1|].
    apply IH; eauto using quiet_no_pending, quiet_never_restarts.
Qed.

(** ** Traces used as concrete inputs *)

Definition state_after (tr : list Input) : St := default init (run tr init).

(** The first request starts the first server on port 4000. *)
Definition first_swap_until_create : list Input :=
  [InRequest "/a"; InSwapIO 0 (ROk 0); Tick; InSwapIO 0 (ROk 4000); Tick].

Definition first_swap : list Input :=
  first_swap_until_create ++
  [InSwapIO 0 (ROk 0); Tick; InSwapIO 0 (ROk 77); Tick; Tick; Tick; Tick].



(** ** C1: a failed swap *)






(** ** C2: concurrent triggers collapse *)


Lemma restartVite_in_flight st p :
  restartPromise st = Some p → restartVite st = (st, p).
Proof. unfold restartVite. by intros ->. Qed.





(** The second swap, triggered by a request for [env.mjs], up to its end;
    two requests and an upgrade connection arrive while it is in flight. *)
Definition second_swap : list Input :=
  first_swap ++
  [InRequest "/env.mjs"; InRequest "/b"; InSwapIO 1 (ROk 4001); Tick;
   InSwapIO 1 (ROk 0); Tick; InRequest "/c/env.mjs"; InUpgrade [1];
   InSwapIO 1 (ROk 78); Tick; Tick;
   Tick; Tick; Tick; Tick; Tick; Tick; Tick; Tick; Tick; Tick;
   InSwapIO 1 (ROk 0); Tick].


(** ** C3: the generation a held request is bound to *)

Lemma req_step_binds r q v s st :
  requests st !! r = Some q → rpc q = RFirst → activeVite st = Some s →
  ∃ q', requests (req_step r q (ROk v) st) !! r = Some q' ∧
        viteServer q' = Some s ∧
        log (req_step r q (ROk v) st) =
          log st ++ EBind r s ::
            match serverBuildCache st !! s with
            | Some _ => []
            | None => [ELoad s]
            end.
Proof.
  intros Hq Hpc Ha. unfold req_step. rewrite Hpc, Ha.
  unfold getServerBuild. cbn.
  destruct (serverBuildCache st !! s) as [b|]; cbn.
  - rewrite !list_lookup_alter_eq, Hq. cbn. eauto.
  - rewrite !list_lookup_alter_eq, Hq. cbn. rewrite <- app_assoc. eauto.
Qed.

(** C3, as the code has it.  A request released from the hold queue by a
    swap and bound afterwards is never bound to the server that was active
    when that swap began; the server is read from [activeVite] in the
    segment that runs after the release. *)
Theorem held_request_leaves_old_generation :
  (∀ tr st p r s old l1 l2,
     run tr init = Some st →
     log st = l1 ++ EResolveHttp p r :: l2 →
     In (EBind r s) l2 →
     In (ESwapStart p old) (log st) →
     old ≠ Some s) ∧
  (∀ st r q v s,
     requests st !! r = Some q → rpc q = RFirst →
     rinbox q = Some (ROk v) → activeVite st = Some s →
     ∃ q', requests (run_job (JReq r) st) !! r = Some q' ∧
           viteServer q' = Some s ∧
           In (EBind r s) (log (run_job (JReq r) st))).
Proof.
  split.
  - intros tr st p r s old l1 l2 Hrun Hlog Hbind Hstart.
    pose proof (run_Inv _ _ Hrun) as HI. pose proof (inv_wf _ HI) as Hwf.
    destruct (wf_guard _ _ _ _ Hwf Hlog) as [_ ([old' Hold'] & _)].
    assert (old' = old) as ->.
    { eapply wf_start_unique; [exact Hwf| |exact Hstart].
      rewrite Hlog. apply in_or_app. by left. }
    apply in_split in Hbind as (k1 & k2 & ->).
    assert (log st = (l1 ++ EResolveHttp p r :: k1) ++ EBind r s :: k2) as Hlog'.
    { by rewrite Hlog, <- app_assoc. }
    destruct (wf_guard _ _ _ _ Hwf Hlog') as [_ Hg]. cbn in Hg.
    intros ->. 
    assert (s < s); [|lia].
    apply (Hg p s).
    + apply in_or_app. right. by left.
    + apply in_or_app. by left.
  - intros st r q v s Hq Hpc Hin Ha. cbn. rewrite Hq, Hin.
    destruct (req_step_binds r q v s st Hq Hpc Ha) as (q' & H1 & H2 & H3).
    exists q'. split; [done|]. split; [done|].
    rewrite H3. apply in_or_app. right. by left.
Qed.

Lemma held_request_leaves_old_generation_witness :
  Some 1 ≠ Some 2.
Proof.
  apply (proj1 held_request_leaves_old_generation second_swap
           (state_after second_swap) 1 2 2 (Some 1)
           [ESwapStart 0 None; ERmCache 0; EGetPort 0; ECreateServer 0 4000;
            EServerStarted 0 1 4000; ELoad 1; ECacheSet 1 77; ESwapDone 0;
            EBind 0 1; ESwapStart 1 (Some 1); EGetPort 1;
            EHoldHttp 1 (Some 1); EHoldHttp 2 (Some 1); ECreateServer 1 4001;
            EServerStarted 1 2 4001; ELoad 2; EHoldHttp 3 (Some 2); EHoldWs 0;
            ECacheSet 2 78; EResolveHttp 1 1]
           [EResolveHttp 1 3; EResolveWs 1 0; ECacheDelete 1; EClose 1 1;
            EConnect 0 4001; EBind 1 2; EBind 2 2; EBind 3 2; ESwapDone 1]).
  - vm_compute. reflexivity.
  - vm_compute. reflexivity.
  - cbn. tauto.
  - vm_compute. tauto.
Defined.

(** C3 as stated fails: request 3 arrives while the artifact of server 2 is
    being loaded, so its hold begins with server 2 already in [activeVite],
    and server 2 is what it is bound to after its release. *)
Lemma held_request_counterexample :
  ∃ st l1 l2 l3,
    run second_swap init = Some st ∧
    log st = l1 ++ EHoldHttp 3 (Some 2) :: l2 ++ EResolveHttp 1 3 :: l3 ∧
    In (EBind 3 2) l3 ∧
    (∃ q, requests st !! 3 = Some q ∧ viteServer q = Some 2).
Proof.
  eexists.
  exists [ESwapStart 0 None; ERmCache 0; EGetPort 0; ECreateServer 0 4000;
          EServerStarted 0 1 4000; ELoad 1; ECacheSet 1 77; ESwapDone 0;
          EBind 0 1; ESwapStart 1 (Some 1); EGetPort 1;
          EHoldHttp 1 (Some 1); EHoldHttp 2 (Some 1); ECreateServer 1 4001;
          EServerStarted 1 2 4001; ELoad 2].
  exists [EHoldWs 0; ECacheSet 2 78; EResolveHttp 1 1; EResolveHttp 1 2].
  exists [EResolveWs 1 0; ECacheDelete 1; EClose 1 1; EConnect 0 4001;
          EBind 1 2; EBind 2 2; EBind 3 2; ESwapDone 1].
  split; [vm_compute; reflexivity|].
  split; [vm_compute; reflexivity|].
  split; [cbn; tauto|].
  eexists. split; [vm_compute; reflexivity|reflexivity].
Qed.

(** ** C4: when the new server becomes the active one *)

(** The second swap, up to the moment [createServer] has returned: two
    requests are held. *)
Definition second_swap_created : list Input :=
  first_swap ++
  [InRequest "/env.mjs"; InRequest "/b"; InSwapIO 1 (ROk 4001); Tick;
   InSwapIO 1 (ROk 0)].

(** C4, as the code has it.  [activeVite] is switched to the new server in
    the segment that follows [createServer] (lines 222-227): the artifact
    of the new server is not cached yet, its load is only started, and no
    hold is released.  The holds are released later, by a segment that
    runs after the server was started and its artifact stored in the
    cache. *)
Theorem active_switch_precedes_preload :
  (∀ tr st p f ws h v q,
     run tr init = Some st →
     microtasks st = JSwap p :: q →
     promises st !! p = Some (Pending f ws) →
     spc f = AwaitCreate h → sinbox f = Some (ROk v) →
     ∃ st', step Tick st = Some st' ∧
       activeVite st' = Some (S (serverIdCounter st)) ∧
       activeVite st' ≠ activeVite st ∧
       serverBuildCache st' !! S (serverIdCounter st) = None ∧
       pendingHttpRequests st' = pendingHttpRequests st ∧
       pendingWsConnections st' = pendingWsConnections st ∧
       log st' = log st ++ [EServerStarted p (S (serverIdCounter st)) h;
                            ELoad (S (serverIdCounter st))]) ∧
  (∀ tr st p x l1 l2,
     run tr init = Some st →
     (log st = l1 ++ EResolveHttp p x :: l2 ∨
      log st = l1 ++ EResolveWs p x :: l2) →
     ∃ s h b, In (EServerStarted p s h) l1 ∧ In (ECacheSet s b) l1).
Proof.
  split.
  - intros tr st p f ws h v q Hrun Hq Hl Hpc Hin.
    pose proof (run_Inv _ _ Hrun) as HI.
    assert (serverBuildCache st !! S (serverIdCounter st) = None) as Hc.
    { destruct (serverBuildCache st !! S (serverIdCounter st)) as [b|] eqn:Hc;
        [|done].
      apply (inv_cache _ HI) in Hc. lia. }
    eexists. split.
    { cbn. rewrite Hq. cbn. rewrite Hl, Hin. unfold swap_step. rewrite Hpc.
      unfold getServerBuild. cbn. rewrite Hc. reflexivity. }
    cbn. split; [done|]. split.
    { pose proof (inv_active _ HI) as HA.
      destruct (activeVite st) as [a|]; [|done].
      destruct HA as (-> & _). intros [=]. lia. }
    split; [done|]. split; [done|]. split; [done|].
    by rewrite <- app_assoc.
  - intros tr st p x l1 l2 Hrun Hlog.
    pose proof (run_Inv _ _ Hrun) as HI. pose proof (inv_wf _ HI) as Hwf.
    destruct Hlog as [Hlog|Hlog];
      destruct (wf_guard _ _ _ _ Hwf Hlog) as [_ (_ & Hs & _)]; exact Hs.
Qed.

Lemma active_switch_precedes_preload_witness :
  ∃ st', step Tick (state_after second_swap_created) = Some st' ∧
    activeVite st' = Some 2 ∧
    activeVite st' ≠ activeVite (state_after second_swap_created) ∧
    serverBuildCache st' !! 2 = None ∧
    pendingHttpRequests st' =
      pendingHttpRequests (state_after second_swap_created) ∧
    pendingWsConnections st' =
      pendingWsConnections (state_after second_swap_created) ∧
    log st' = log (state_after second_swap_created) ++
              [EServerStarted 1 2 4001; ELoad 2].
Proof.
  apply (proj1 active_switch_precedes_preload second_swap_created
           (state_after second_swap_created) 1
           (mkSwapFrame (Some 1) 1 (AwaitCreate 4001) (Some (ROk 0))) [] 4001 0 []).
  - vm_compute. reflexivity.
  - vm_compute. reflexivity.
  - vm_compute. reflexivity.
  - reflexivity.
  - reflexivity.
Defined.

(** C4 as stated fails: right after [createServer] has returned in the
    second swap, server 2 is the active one although its artifact is not
    in the cache and requests 1 and 2 are still held. *)
Lemma active_switch_counterexample :
  ∃ st, run (second_swap_created ++ [Tick]) init = Some st ∧
        activeVite st = Some 2 ∧
        serverBuildCache st !! 2 = None ∧
        pendingHttpRequests st = [1; 2] ∧
        ∀ p r, ¬ In (EResolveHttp p r) (log st).
Proof.
  eexists. split; [vm_compute; reflexivity|].
  split; [reflexivity|]. split; [reflexivity|]. split; [reflexivity|].
  intros p r. vm_compute. intuition discriminate.
Qed.

(** ** C9: the drain *)

Lemma flush_http_eq p st :
  flush_http p st =
  set_log (log st ++ map (EResolveHttp p) (pendingHttpRequests st))
    (set_microtasks (microtasks st ++ map JReq (pendingHttpRequests st))
       (set_requests (mark_reqs (ROk 0) (requests st) (pendingHttpRequests st))
          (set_pendingHttpRequests [] st))).
Proof. unfold flush_http. by rewrite flush_http_loop. Qed.

Lemma flush_ws_eq p st :
  flush_ws p st =
  set_log (log st ++ map (λ h, EResolveWs p (socket h)) (pendingWsConnections st))
    (set_microtasks
       (microtasks st ++ map (λ h, JConn (resolve h)) (pendingWsConnections st))
       (set_conns (mark_conns (conns st) (map resolve (pendingWsConnections st)))
          (set_pendingWsConnections [] st))).
Proof. unfold flush_ws. by rewrite flush_ws_loop. Qed.

Lemma mark_reqs_pc res rs l :
  Forall2 (λ q q', rpc q' = rpc q ∧ viteServer q' = viteServer q) l
    (mark_reqs res l rs).
Proof.
  revert l. induction rs as [|r rs IH]; intros l; cbn.
  - by apply Forall2_same_length_lookup_2; [|intros ??? -> [= ->]].
  - specialize (IH (alter (set_rinbox (Some res)) r l)).
    apply Forall2_same_length_lookup. apply Forall2_same_length_lookup in IH.
    destruct IH as [Hlen IH]. rewrite length_alter in Hlen. split; [done|].
    intros i q q' Hq Hq'.
    destruct (decide (r = i)) as [->|Hne].
    + destruct (IH i (set_rinbox (Some res) q) q') as [-> ->]; [|done..].
      by rewrite list_lookup_alter_eq, Hq.
    + apply (IH i q q'); [|done]. by rewrite list_lookup_alter_ne.
Qed.

Lemma mark_conns_pc cs l :
  Forall2 (λ k k', cpc k' = cpc k) l (mark_conns l cs).
Proof.
  revert l. induction cs as [|c cs IH]; intros l; cbn.
  - by apply Forall2_same_length_lookup_2; [|intros ??? -> [= ->]].
  - specialize (IH (alter (set_cinbox true) c l)).
    apply Forall2_same_length_lookup. apply Forall2_same_length_lookup in IH.
    destruct IH as [Hlen IH]. rewrite length_alter in Hlen. split; [done|].
    intros i k k' Hk Hk'.
    destruct (decide (c = i)) as [->|Hne].
    + rewrite (IH i (set_cinbox true k) k'); [done| |done].
      by rewrite list_lookup_alter_eq, Hk.
    + apply (IH i k k'); [|done]. by rewrite list_lookup_alter_ne.
Qed.

(** C9.  The segment that drains the queues (lines 232-244) leaves both
    queues empty; it calls the [resolve] of every hold once, the HTTP holds
    in queue order first and the connection holds in queue order next; the
    continuations of the holds join the microtask queue in that same order,
    behind the jobs already there, and none of them has run when the
    segment ends: every request and connection is still at the program
    point it had. *)
Theorem drain_is_fifo st p f ws n b q :
  microtasks st = JSwap p :: q →
  promises st !! p = Some (Pending f ws) →
  spc f = AwaitBuild n → sinbox f = Some (ROk b) →
  ∃ st', step Tick st = Some st' ∧
    pendingHttpRequests st' = [] ∧
    pendingWsConnections st' = [] ∧
    microtasks st' =
      q ++ map JReq (pendingHttpRequests st)
        ++ map (λ h, JConn (resolve h)) (pendingWsConnections st)
        ++ match oldServer f with Some _ => [] | None => map JReq ws end ∧
    log st' =
      log st ++ map (EResolveHttp p) (pendingHttpRequests st)
        ++ map (λ h, EResolveWs p (socket h)) (pendingWsConnections st)
        ++ match oldServer f with
           | Some o => [ECacheDelete o; EClose p o]
           | None => [ESwapDone p]
           end ∧
    Forall2 (λ r r', rpc r' = rpc r ∧ viteServer r' = viteServer r)
      (requests st) (requests st') ∧
    Forall2 (λ k k', cpc k' = cpc k) (conns st) (conns st').
Proof.
  intros Hq Hl Hpc Hin. eexists. split.
  { cbn. rewrite Hq. cbn. rewrite Hl, Hin. unfold swap_step. rewrite Hpc.
    reflexivity. }
  rewrite flush_http_eq, flush_ws_eq. cbn.
  destruct (oldServer f) as [o|]; cbn.
  - rewrite app_nil_r, <- !app_assoc. cbn.
    repeat split; try done.
    + apply mark_reqs_pc.
    + apply mark_conns_pc.
  - unfold fulfil. rewrite foldl_deliver_req. cbn.
    rewrite <- !app_assoc. cbn.
    repeat split; try done.
    + eapply Forall2_trans; [|apply mark_reqs_pc|apply mark_reqs_pc].
      intros x y z [E1 E2] [E3 E4]. split; congruence.
    + apply mark_conns_pc.
Qed.

(** The second swap, up to the moment the artifact of the new server is
    loaded: three requests and one connection are held. *)
Definition second_swap_loaded : list Input :=
  second_swap_created ++
  [Tick; InRequest "/c/env.mjs"; InUpgrade [1]; InClientClose 0;
   InSwapIO 1 (ROk 78); Tick].

Lemma drain_is_fifo_witness :
  ∃ st', step Tick (state_after second_swap_loaded) = Some st' ∧
    pendingHttpRequests st' = [] ∧
    pendingWsConnections st' = [] ∧
    microtasks st' = [JReq 1; JReq 2; JReq 3; JConn 0] ∧
    log st' =
      log (state_after second_swap_loaded) ++
      [EResolveHttp 1 1; EResolveHttp 1 2; EResolveHttp 1 3; EResolveWs 1 0;
       ECacheDelete 1; EClose 1 1] ∧
    Forall2 (λ r r', rpc r' = rpc r ∧ viteServer r' = viteServer r)
      (requests (state_after second_swap_loaded)) (requests st') ∧
    Forall2 (λ k k', cpc k' = cpc k)
      (conns (state_after second_swap_loaded)) (conns st').
Proof.
  apply (drain_is_fifo (state_after second_swap_loaded) 1
           (mkSwapFrame (Some 1) 1 (AwaitBuild 2) (Some (ROk 78))) [] 2 78 []).
  - vm_compute. reflexivity.
  - vm_compute. reflexivity.
  - reflexivity.
  - reflexivity.
Defined.

(** ** C6: a held connection whose client disconnects *)

(** C6, as the code has it.  No listener is registered on the socket of a
    held connection (the listeners of lines 357-373 are registered after
    the hold).  When its client disconnects, the entry stays in
    [pendingWsConnections] and nothing else happens; once the swap has
    called its [resolve], the continuation of the hold connects to the
    active HMR port, whether the client has gone or not. *)
Theorem closed_hold_is_still_proxied :
  (∀ st c k st',
     conns st !! c = Some k → cpc k = CHold →
     step (InClientClose c) st = Some st' →
     pendingWsConnections st' = pendingWsConnections st ∧
     microtasks st' = microtasks st ∧
     log st' = log st ++ [EClientClose c] ∧
     ∃ k', conns st' !! c = Some k' ∧ cpc k' = CHold ∧ cclosed k' = true) ∧
  (∀ st c k n,
     conns st !! c = Some k → cpc k = CHold → cinbox k = true →
     activeHmrPort st = Some (S n) →
     log (run_job (JConn c) st) = log st ++ [EConnect c (S n)]).
Proof.
  split.
  - intros st c k st' Hk Hpc. cbn. rewrite Hk.
    destruct (microtasks st) eqn:Hm; [|done]. destruct (cclosed k); [done|].
    intros [= <-]. unfold onClientClose. rewrite Hpc.
    split; [done|]. split; [exact Hm|]. split; [done|].
    exists (set_cclosed true k). split; [|by rewrite <- Hpc].
    change (alter (set_cclosed true) c (conns st) !! c = Some (set_cclosed true k)).
    by rewrite list_lookup_alter_eq, Hk.
  - intros st c k n Hk Hpc Hin Hport. cbn. rewrite Hk, Hpc, Hin.
    unfold proxy. by rewrite Hport.
Qed.

Lemma closed_hold_is_still_proxied_witness :
  log (run_job (JConn 0) (state_after (second_swap_loaded ++ [Tick]))) =
  log (state_after (second_swap_loaded ++ [Tick])) ++ [EConnect 0 4001].
Proof.
  apply (proj2 closed_hold_is_still_proxied
           (state_after (second_swap_loaded ++ [Tick])) 0
           (mkConn [1] CHold true true) 4000).
  - vm_compute. reflexivity.
  - reflexivity.
  - reflexivity.
  - vm_compute. reflexivity.
Defined.

(** C6 as stated fails: connection 0 is held during the second swap, its
    client disconnects before the drain, the entry is still in the queue
    afterwards, and once released an outbound connect to port 4001 is made
    for it. *)
Lemma closed_hold_counterexample :
  ∃ held st l1 l2 l3,
    run second_swap_loaded init = Some held ∧
    pendingWsConnections held = [mkWsHold 0 [1] 0] ∧
    run (second_swap_loaded ++ [Tick; Tick; Tick; Tick; Tick]) init = Some st ∧
    log st = l1 ++ EHoldWs 0 :: EClientClose 0 :: l2 ++ EResolveWs 1 0 :: l3 ∧
    In (EConnect 0 4001) l3.
Proof.
  eexists. eexists.
  exists [ESwapStart 0 None; ERmCache 0; EGetPort 0; ECreateServer 0 4000;
          EServerStarted 0 1 4000; ELoad 1; ECacheSet 1 77; ESwapDone 0;
          EBind 0 1; ESwapStart 1 (Some 1); EGetPort 1;
          EHoldHttp 1 (Some 1); EHoldHttp 2 (Some 1); ECreateServer 1 4001;
          EServerStarted 1 2 4001; ELoad 2; EHoldHttp 3 (Some 2)].
  exists [ECacheSet 2 78; EResolveHttp 1 1; EResolveHttp 1 2; EResolveHttp 1 3].
  exists [ECacheDelete 1; EClose 1 1; EConnect 0 4001].
  split; [vm_compute; reflexivity|].
  split; [reflexivity|].
  split; [vm_compute; reflexivity|].
  split; [vm_compute; reflexivity|].
  cbn. tauto.
Qed.

(** ** C10: an upgrade before any server exists *)

(** C10.  When an upgrade request arrives while no swap is in flight and
    no server has become active, there is no active HMR port: the socket is
    destroyed, no connect is issued and nothing is scheduled. *)
Theorem upgrade_without_server_is_destroyed tr st h st' :
  run tr init = Some st →
  restartPromise st = None → activeVite st = None →
  step (InUpgrade h) st = Some st' →
  activeHmrPort st = None ∧
  log st' = log st ++ [EDestroy (length (conns st))] ∧
  conns st' = conns st ++ [mkConn h CDestroyed false false] ∧
  pendingWsConnections st' = pendingWsConnections st ∧
  microtasks st' = [].
Proof.
  intros Hrun Hr Ha. pose proof (run_Inv _ _ Hrun) as HI.
  pose proof (inv_active _ HI) as HA. rewrite Ha in HA. destruct HA as [_ Hp].
  cbn. destruct (microtasks st) eqn:Hm; [|done]. intros [= <-].
  unfold onUpgrade. cbn. rewrite Hr. unfold proxy. cbn. rewrite Hp. cbn.
  split; [done|]. split; [done|]. split; [|done].
  change (alter (set_cpc CDestroyed) (length (conns st))
            (conns st ++ [mkConn h CHold false false]) =
          conns st ++ [mkConn h CDestroyed false false]).
  rewrite alter_app_r_alt; [|done]. by rewrite Nat.sub_diag.
Qed.

Lemma upgrade_without_server_is_destroyed_witness :
  activeHmrPort init = None ∧
  log (state_after [InUpgrade [7]]) = log init ++ [EDestroy 0] ∧
  conns (state_after [InUpgrade [7]]) =
    conns init ++ [mkConn [7] CDestroyed false false] ∧
  pendingWsConnections (state_after [InUpgrade [7]]) =
    pendingWsConnections init ∧
  microtasks (state_after [InUpgrade [7]]) = [].
Proof.
  apply (upgrade_without_server_is_destroyed [] init [7]
           (state_after [InUpgrade [7]])); reflexivity.
Defined.

(** ** C8: the cache of server builds *)

Lemma wf_delete_then_close l s l1 l2 :
  wf_log l → (∀ l0 s', l ≠ l0 ++ [ECacheDelete s']) →
  l = l1 ++ ECacheDelete s :: l2 → ∃ p l3, l2 = EClose p s :: l3.
Proof.
  intros Hwf Hnd Heq. destruct l2 as [|e l3].
  - by destruct (Hnd l1 s).
  - assert (l = (l1 ++ [ECacheDelete s]) ++ e :: l3) as Heq'.
    { by rewrite Heq, <- app_assoc. }
    destruct (wf_guard _ _ _ _ Hwf Heq') as [Hg _].
    destruct (Hg l1 s eq_refl) as [p ->]. eauto.
Qed.

(** C8.  [getServerBuild] returns the cached build when there is one and
    then neither loads nor changes the state; otherwise it invokes
    [ssrLoadModule] once, stores the build it gets under the server and
    hands it to its caller.  Over a whole run the entry of a server is
    removed at most once, and a removal and the call of [close] on that
    server always come together, the removal first. *)
Theorem build_cache_get_and_evict :
  (∀ s st b,
     serverBuildCache st !! s = Some b → getServerBuild s st = (st, Some b)) ∧
  (∀ s st,
     serverBuildCache st !! s = None →
     getServerBuild s st = (emit (ELoad s) st, None) ∧
     occurrences (ELoad s) (log (fst (getServerBuild s st))) =
       S (occurrences (ELoad s) (log st))) ∧
  (∀ s build st,
     serverBuildCache (getServerBuild_loaded s build st) !! s = Some build ∧
     ∀ s', s' ≠ s →
       serverBuildCache (getServerBuild_loaded s build st) !! s' =
       serverBuildCache st !! s') ∧
  (∀ r q s build st,
     requests st !! r = Some q → rpc q = RLoad s →
     serverBuildCache (req_step r q (ROk build) st) !! s = Some build ∧
     ∃ q', requests (req_step r q (ROk build) st) !! r = Some q' ∧
           rpc q' = RBuild ∧ rinbox q' = Some (ROk build)) ∧
  (∀ st p f ws n b q o,
     microtasks st = JSwap p :: q →
     promises st !! p = Some (Pending f ws) →
     spc f = AwaitBuild n → sinbox f = Some (ROk b) → oldServer f = Some o →
     ∃ st', step Tick st = Some st' ∧
            serverBuildCache st' = delete o (serverBuildCache st)) ∧
  (∀ tr st,
     run tr init = Some st → ∀ s,
     occurrences (ECacheDelete s) (log st) ≤ 1 ∧
     (∀ l1 l2, log st = l1 ++ ECacheDelete s :: l2 →
               ∃ p l3, l2 = EClose p s :: l3) ∧
     (∀ l1 l2 p, log st = l1 ++ EClose p s :: l2 →
                 ∃ l0, l1 = l0 ++ [ECacheDelete s])).
Proof.
  split; [|split; [|split; [|split; [|split]]]].
  - intros s st b Hc. unfold getServerBuild. by rewrite Hc.
  - intros s st Hc. unfold getServerBuild. rewrite Hc. split; [done|].
    change (occurrences (ELoad s) (log st ++ [ELoad s]) =
            S (occurrences (ELoad s) (log st))).
    rewrite occurrences_snoc. rewrite decide_True by done. lia.
  - intros s build st. split.
    + apply (lookup_insert_eq (serverBuildCache st)).
    + intros s' Hne. by apply (lookup_insert_ne (serverBuildCache st)).
  - intros r q s build st Hq Hpc. unfold req_step. rewrite Hpc. split.
    + apply (lookup_insert_eq (serverBuildCache st)).
    + change (∃ q',
        alter (set_rinbox (Some (ROk build))) r
          (alter (λ q, set_rinbox None (set_rpc RBuild q)) r (requests st))
          !! r = Some q' ∧ rpc q' = RBuild ∧ rinbox q' = Some (ROk build)).
      rewrite !list_lookup_alter_eq, Hq. eexists. by split.
  - intros st p f ws n b q o Hq Hl Hpc Hin Ho. eexists. split.
    { cbn. rewrite Hq. cbn. rewrite Hl, Hin. unfold swap_step.
      rewrite Hpc, Ho. reflexivity. }
    rewrite flush_http_eq, flush_ws_eq. done.
  - intros tr st Hrun s. pose proof (run_Inv _ _ Hrun) as HI.
    pose proof (inv_wf _ HI) as Hwf. split; [|split].
    + by apply wf_delete_once.
    + intros l1 l2 Heq. eapply wf_delete_then_close; [done|apply HI|done].
    + intros l1 l2 p Heq. by destruct (wf_guard _ _ _ _ Hwf Heq) as [_ Hg].
Qed.

Lemma build_cache_get_and_evict_witness :
  occurrences (ECacheDelete 1) (log (state_after second_swap)) ≤ 1 ∧
  (∀ l1 l2, log (state_after second_swap) = l1 ++ ECacheDelete 1 :: l2 →
            ∃ p l3, l2 = EClose p 1 :: l3) ∧
  (∀ l1 l2 p, log (state_after second_swap) = l1 ++ EClose p 1 :: l2 →
              ∃ l0, l1 = l0 ++ [ECacheDelete 1]).
Proof.
  apply (proj2 (proj2 (proj2 (proj2 (proj2 build_cache_get_and_evict))))
           second_swap (state_after second_swap)).
  vm_compute. reflexivity.
Defined.

(** ** C5: a request that arrives while the old server is closing *)

(** The second swap with a request that arrives after the drain, while
    [oldServer.close()] is pending; then the close completes and the swap
    ends. *)
Definition late_hold : list Input :=
  second_swap_loaded ++
  [Tick; Tick; Tick; Tick; Tick; Tick; Tick; Tick; Tick; Tick; Tick;
   InRequest "/late"; InSwapIO 1 (ROk 0); Tick].

(** C5 fails at this input.  Request 4 is held during the second swap
    (its hold begins while [restartPromise] is set), but after the drain
    and after the close of server 1 was initiated.  The swap ends with
    the request still in [pendingHttpRequests], and whatever happens
    afterwards it stays there and its [resolve] is never called. *)
Theorem late_hold_is_never_released :
  (∃ l1 l2 l3,
     log (state_after late_hold) =
       l1 ++ EClose 1 1 :: l2 ++ EHoldHttp 4 (Some 2) :: l3 ∧
     In (ESwapDone 1) l3) ∧
  restartPromise (state_after late_hold) = None ∧
  pendingHttpRequests (state_after late_hold) = [4] ∧
  ∀ tr st,
    run tr (state_after late_hold) = Some st →
    In 4 (pendingHttpRequests st) ∧ ∀ p, ¬ In (EResolveHttp p 4) (log st).
Proof.
  split.
  { exists [ESwapStart 0 None; ERmCache 0; EGetPort 0; ECreateServer 0 4000;
            EServerStarted 0 1 4000; ELoad 1; ECacheSet 1 77; ESwapDone 0;
            EBind 0 1; ESwapStart 1 (Some 1); EGetPort 1;
            EHoldHttp 1 (Some 1); EHoldHttp 2 (Some 1); ECreateServer 1 4001;
            EServerStarted 1 2 4001; ELoad 2; EHoldHttp 3 (Some 2); EHoldWs 0;
            EClientClose 0; ECacheSet 2 78; EResolveHttp 1 1; EResolveHttp 1 2;
            EResolveHttp 1 3; EResolveWs 1 0; ECacheDelete 1].
    exists [EConnect 0 4001; EBind 1 2; EBind 2 2; EBind 3 2].
    exists [ESwapDone 1].
    split; [vm_compute; reflexivity|]. left. reflexivity. }
  split; [vm_compute; reflexivity|]. split; [vm_compute; reflexivity|].
  intros tr st Hrun.
  assert (no_pending (state_after late_hold)) as Hn.
  { intros [|[|p]] f ws; vm_compute; discriminate. }
  assert (never_restarts (state_after late_hold)) as Hr.
  { right. split; [vm_compute; reflexivity|].
    exists 2. vm_compute. reflexivity. }
  destruct (quiet_run _ _ _ Hn Hr Hrun) as [_ _ _ _ _ _ [l Hl] _ He].
  split.
  - rewrite Hl. apply in_or_app. left. vm_compute. by left.
  - intros p Hin. apply He in Hin; [|done].
    vm_compute in Hin. intuition discriminate.
Qed.

Lemma late_hold_is_never_released_witness :
  In 4 (pendingHttpRequests (state_after (late_hold ++ [InRequest "/x"; Tick]))) ∧
  ∀ p, ¬ In (EResolveHttp p 4)
         (log (state_after (late_hold ++ [InRequest "/x"; Tick]))).
Proof.
  apply (proj2 (proj2 (proj2 late_hold_is_never_released))
           [InRequest "/x"; Tick]).
  vm_compute. reflexivity.
Defined.

(** * Further properties of the coordinator *)

(** ** The active server *)

(** X1.  On every reachable state [activeVite] and [activeHmrPort] are set
    together: both are null as long as no server has been created, and from
    then on [activeVite] is the server created last (the one the source
    prints as [#serverIdCounter]) and an HMR port is recorded for it.  The
    two variables never go back to null. *)
Theorem active_server_is_newest tr st :
  run tr init = Some st →
  match activeVite st with
  | None => serverIdCounter st = 0 ∧ activeHmrPort st = None
  | Some a => a = serverIdCounter st ∧ 0 < a ∧ is_Some (activeHmrPort st)
  end.
Proof. intros Hrun. exact (inv_active _ (run_Inv _ _ Hrun)). Qed.

Lemma active_server_is_newest_witness :
  match activeVite (state_after second_swap) with
  | None => serverIdCounter (state_after second_swap) = 0 ∧
            activeHmrPort (state_after second_swap) = None
  | Some a => a = serverIdCounter (state_after second_swap) ∧ 0 < a ∧
              is_Some (activeHmrPort (state_after second_swap))
  end.
Proof.
  apply (active_server_is_newest second_swap (state_after second_swap)).
  vm_compute. reflexivity.
Defined.

(** X2.  The server whose build is evicted from the cache, or that is
    closed, is an older one than the active server: the active server is
    never evicted and never closed, and a closed server does not become
    active again. *)
Theorem evicted_server_is_not_active tr st o :
  run tr init = Some st →
  In (ECacheDelete o) (log st) ∨ (∃ p, In (EClose p o) (log st)) →
  o < serverIdCounter st ∧ activeVite st ≠ Some o.
Proof.
  intros Hrun Hev. pose proof (run_Inv _ _ Hrun) as HI.
  assert (In (ECacheDelete o) (log st)) as Hdel.
  { destruct Hev as [H|[p H]]; [done|].
    apply in_split in H as (l1 & l2 & Hl).
    destruct (wf_guard _ _ _ _ (inv_wf _ HI) Hl) as [_ [l0 ->]].
    rewrite Hl. apply in_or_app. left. apply in_or_app. right. by left. }
  pose proof (inv_del _ HI o Hdel) as Hlt. split; [done|].
  pose proof (inv_active _ HI) as Ha.
  destruct (activeVite st) as [a|]; [|done].
  destruct Ha as (Ha & _). intros [= ->]. lia.
Qed.

Lemma evicted_server_is_not_active_witness :
  1 < serverIdCounter (state_after second_swap) ∧
  activeVite (state_after second_swap) ≠ Some 1.
Proof.
  apply (evicted_server_is_not_active second_swap (state_after second_swap) 1).
  - vm_compute. reflexivity.
  - left. vm_compute. tauto.
Defined.

(** ** How many swaps a process runs *)

Definition b2n (b : bool) : nat := if b then 1 else 0.

Definition early_pc (pc : SwapPc) : nat :=
  match pc with
  | AwaitRm | AwaitPort | AwaitCreate _ => 1
  | _ => 0
  end.

(** The swap in flight has not created its server yet. *)
Definition early (st : St) : nat :=
  match restartPromise st with
  | Some p =>
      match promises st !! p with
      | Some (Pending f _) => early_pc (spc f)
      | _ => 0
      end
  | None => 0
  end.

(** Every run of the async body of [restartVite] is paid for by one of the
    two flags that guard its call sites ([hasTriggeredRestart], line 279,
    and [initialServerPromise], line 271), and every server by a run. *)
Record Budget (st : St) : Prop := mkBudget {
  bd_trig :
    hasTriggeredRestart st =
    existsb (includes "env.mjs") (map url (requests st));
  bd_promises :
    length (promises st) ≤
    b2n (hasTriggeredRestart st) +
    match initialServerPromise st with Some _ => 1 | None => 0 end;
  bd_servers : serverIdCounter st + early st ≤ length (promises st)
}.

Definition bview (st : St) :=
  (hasTriggeredRestart st, initialServerPromise st, length (promises st),
   early st, serverIdCounter st, map url (requests st)).

Lemma Budget_ext st st' : bview st' = bview st → Budget st → Budget st'.
Proof.
  unfold bview. intros [= E1 E2 E3 E4 E5 E6] [H1 H2 H3].
  split; rewrite ?E1, ?E2, ?E3, ?E4, ?E5, ?E6; done.
Qed.

Lemma map_url_alter (g : Request → Request) r l :
  (∀ q, url (g q) = url q) → map url (alter g r l) = map url l.
Proof.
  intros Hg. revert r. induction l as [|q l IH]; intros [|r]; cbn; [done..| |].
  - by rewrite Hg.
  - f_equal. apply IH.
Qed.

Lemma bview_upd_request r g st :
  (∀ q, url (g q) = url q) → bview (upd_request r g st) = bview st.
Proof. intros Hg. unfold bview. cbn. by rewrite map_url_alter. Qed.

Lemma bview_deliver_req res st r : bview (deliver_req res st r) = bview st.
Proof. unfold bview. cbn. by rewrite map_url_alter. Qed.

Lemma map_url_mark res l rs : map url (mark_reqs res l rs) = map url l.
Proof.
  revert l. induction rs as [|r rs IH]; intros l; [done|].
  cbn. change (foldl _ ?a rs) with (mark_reqs res a rs).
  by rewrite IH, map_url_alter.
Qed.

Lemma early_insert_same p f f' ws ws' st :
  promises st !! p = Some (Pending f ws) → spc f' = spc f →
  early (set_promises (<[p := Pending f' ws']> (promises st)) st) = early st.
Proof.
  intros Hl Hpc. unfold early. cbn. destruct (restartPromise st) as [p0|]; [|done].
  destruct (decide (p0 = p)) as [->|Hne].
  - rewrite list_lookup_insert_eq by (by eapply lookup_lt_Some).
    by rewrite Hl, Hpc.
  - by rewrite list_lookup_insert_ne.
Qed.

Lemma bview_await_promise p r st :
  bview (await_promise p r st) = bview st.
Proof.
  unfold await_promise.
  destruct (promises st !! p) as [[f ws| |]|] eqn:Hl;
    [|apply bview_deliver_req..|done].
  unfold bview.
  rewrite (early_insert_same p f f ws _ st Hl eq_refl). cbn.
  by rewrite length_insert.
Qed.

(** A call of [restartVite] that starts a run. *)
Lemma restartVite_starts st :
  restartPromise st = None →
  bview (restartVite st).1 =
  (hasTriggeredRestart st, initialServerPromise st, S (length (promises st)),
   1, serverIdCounter st, map url (requests st)) ∧
  early st = 0.
Proof.
  intros Hr. unfold restartVite, early. rewrite Hr. split; [|done].
  unfold bview, early. cbn [isFirstStart emit set_log].
  destruct (isFirstStart st); cbn; rewrite length_app, list_lookup_middle by done;
    cbn; repeat f_equal; lia.
Qed.

Lemma Budget_ensureFirstServer st :
  Budget st → Budget (ensureFirstServer st).1.
Proof.
  intros HB. unfold ensureFirstServer.
  destruct (activeVite st); [done|].
  destruct (initialServerPromise st) as [p0|] eqn:Hi; [done|].
  destruct (restartPromise st) as [p|] eqn:Hr.
  - rewrite (restartVite_in_flight _ _ Hr). cbn.
    destruct HB as [H1 H2 H3]. split; cbn; try done.
    rewrite Hi in H2. lia.
  - destruct (restartVite_starts st Hr) as [Hv He].
    destruct (restartVite st) as [st1 p] eqn:Hrv. cbn in Hv |- *.
    injection Hv as E1 E2 E3 E4 E5 E6.
    destruct HB as [H1 H2 H3]. split; cbn.
    + by rewrite E1, E6.
    + rewrite E1, E3. rewrite Hi in H2. lia.
    + change (early (set_initialServerPromise (Some p) st1)) with (early st1).
      rewrite E3, E4, E5. lia.
Qed.

Lemma Budget_after_hold r st : Budget st → Budget (after_hold r st).
Proof.
  intros HB. unfold after_hold.
  set (st0 := upd_request _ _ st).
  assert (Budget st0) as H0.
  { eapply Budget_ext; [|exact HB]. by apply bview_upd_request. }
  pose proof (Budget_ensureFirstServer st0 H0) as H1.
  destruct (ensureFirstServer st0) as [st1 [p|]]; cbn in H1.
  - eapply Budget_ext; [apply bview_await_promise|done].
  - eapply Budget_ext; [apply bview_deliver_req|done].
Qed.

Lemma existsb_snoc {A} (f : A → bool) l x :
  existsb f (l ++ [x]) = existsb f l || f x.
Proof. rewrite existsb_app. cbn. by rewrite orb_false_r. Qed.

Ltac st_simpl :=
  cbn [activeVite activeHmrPort serverIdCounter restartPromise
       pendingHttpRequests pendingWsConnections serverBuildCache isFirstStart
       hasTriggeredRestart initialServerPromise promises requests conns
       microtasks log
       set_activeVite set_activeHmrPort set_serverIdCounter set_restartPromise
       set_pendingHttpRequests set_pendingWsConnections set_serverBuildCache
       set_isFirstStart set_hasTriggeredRestart set_initialServerPromise
       set_promises set_requests set_conns set_microtasks set_log
       emit enqueue upd_request upd_conn deliver_req deliver_conn new_promise
       suspend fst snd].

Ltac trig_field :=
  symmetry; etrans; [eassumption|]; st_simpl;
  repeat match goal with H : hasTriggeredRestart _ = _ |- _ => rewrite H end.

Lemma Budget_arrival u st :
  Budget st →
  let st0 :=
    set_requests (requests st ++ [mkRequest u None None RHold None]) st in
  Budget (if includes "env.mjs" u && negb (hasTriggeredRestart st0)
          then fst (restartVite (set_hasTriggeredRestart true st0))
          else st0).
Proof.
  intros [H1 H2 H3] st0.
  assert (existsb (includes "env.mjs") (map url (requests st0)) =
          hasTriggeredRestart st || includes "env.mjs" u) as Hex.
  { unfold st0. st_simpl. rewrite map_app.
    change (map url [_]) with [u]. by rewrite existsb_snoc, <- H1. }
  assert (early st0 = early st) as He by done.
  change (hasTriggeredRestart st0) with (hasTriggeredRestart st).
  destruct (includes "env.mjs" u) eqn:Hu;
    destruct (hasTriggeredRestart st) eqn:Ht; cbn [andb negb].
  - split; [by trig_field|subst st0; st_simpl; by rewrite Ht|done].
  - destruct (restartPromise st) as [p|] eqn:Hr.
    + rewrite (restartVite_in_flight _ p) by done. st_simpl.
      split; [by trig_field|subst st0; st_simpl; cbn in H2 |- *; lia|done].
    + destruct (restartVite_starts (set_hasTriggeredRestart true st0) Hr) as [Hv _].
      destruct (restartVite _) as [st2 p]. cbn [fst] in Hv |- *.
      injection Hv as E1 E2 E3 E4 E5 E6.
      split; rewrite ?E1, ?E2, ?E3, ?E4, ?E5, ?E6.
      * by trig_field.
      * subst st0. st_simpl. cbn in H2 |- *. lia.
      * subst st0. st_simpl. lia.
  - split; [by trig_field|subst st0; st_simpl; by rewrite Ht|done].
  - split; [by trig_field|subst st0; st_simpl; by rewrite Ht|done].
Qed.

Lemma Budget_onRequest u st : Budget st → Budget (onRequest u st).
Proof.
  intros HB. unfold onRequest.
  pose proof (Budget_arrival u st HB) as H1. cbn zeta in H1.
  set (r := length (requests st)) in *.
  match goal with
  | H : Budget ?s |- _ => generalize dependent s
  end.
  intros st1 HB1.
  destruct (restartPromise st1) eqn:Hr.
  - eapply Budget_ext; [|exact HB1]. unfold bview, early. st_simpl. by rewrite Hr.
  - by apply Budget_after_hold.
Qed.

Lemma bview_getServerBuild s st :
  bview (getServerBuild s st).1 = bview st.
Proof. unfold getServerBuild. by destruct (serverBuildCache st !! s). Qed.

Lemma Budget_req_step r q res st : Budget st → Budget (req_step r q res st).
Proof.
  intros HB. unfold req_step.
  destruct (rpc q) as [| |s| | |]; [by apply Budget_after_hold|..]; try done.
  - destruct res as [v|];
      [|eapply Budget_ext; [by apply bview_upd_request|done]].
    destruct (activeVite st) as [s|];
      [|eapply Budget_ext; [by apply bview_upd_request|done]].
    set (st1 := emit _ _).
    assert (bview st1 = bview st) as E1.
    { unfold st1, bview, early. cbn. by rewrite map_url_alter. }
    pose proof (bview_getServerBuild s st1) as E2.
    destruct (getServerBuild s st1) as [st2 [b|]]; cbn in E2.
    + eapply Budget_ext; [|exact HB].
      by rewrite bview_deliver_req, bview_upd_request, E2, E1.
    + eapply Budget_ext; [|exact HB].
      by rewrite bview_upd_request, E2, E1.
  - destruct res as [build|]; (eapply Budget_ext; [|exact HB]).
    + by rewrite bview_deliver_req, bview_upd_request.
    + by rewrite bview_deliver_req, bview_upd_request.
  - destruct res; (eapply Budget_ext; [by apply bview_upd_request|done]).
Qed.

Lemma early_at p f ws st :
  restartPromise st = Some p → promises st !! p = Some (Pending f ws) →
  early st = early_pc (spc f).
Proof. intros Hr Hl. unfold early. by rewrite Hr, Hl. Qed.

(** The part of the state [Budget] reads, after the promise [p] of the
    swap in flight has been replaced by [x]. *)
Lemma Budget_swap p f ws x n (st st' : St) :
  Budget st →
  restartPromise st = Some p → promises st !! p = Some (Pending f ws) →
  hasTriggeredRestart st' = hasTriggeredRestart st →
  initialServerPromise st' = initialServerPromise st →
  map url (requests st') = map url (requests st) →
  promises st' = <[p := x]> (promises st) →
  (restartPromise st' = Some p ∨ restartPromise st' = None) →
  serverIdCounter st' = serverIdCounter st + n →
  n + match x with Pending f' _ => early_pc (spc f') | _ => 0 end
    ≤ early_pc (spc f) →
  Budget st'.
Proof.
  intros [H1 H2 H3] Hr Hl E1 E2 E3 E4 E5 E6 Hn.
  rewrite (early_at p f ws st Hr Hl) in H3.
  pose proof (lookup_lt_Some _ _ _ Hl) as Hlt.
  split.
  - by rewrite E1, E3.
  - by rewrite E1, E2, E4, length_insert.
  - rewrite E4, length_insert, E6.
    assert (early st' ≤ match x with Pending f' _ => early_pc (spc f') | _ => 0 end);
      [|lia].
    unfold early. destruct E5 as [-> | ->]; [|lia].
    rewrite E4, list_lookup_insert_eq by done. by destruct x.
Qed.

Lemma reject_view p ws st :
  hasTriggeredRestart (reject p ws st) = hasTriggeredRestart st ∧
  initialServerPromise (reject p ws st) = initialServerPromise st ∧
  map url (requests (reject p ws st)) = map url (requests st) ∧
  promises (reject p ws st) = <[p := Rejected]> (promises st) ∧
  restartPromise (reject p ws st) = restartPromise st ∧
  serverIdCounter (reject p ws st) = serverIdCounter st.
Proof.
  unfold reject. rewrite foldl_deliver_req. st_simpl.
  by rewrite map_url_mark.
Qed.

Lemma fulfil_view p ws st :
  hasTriggeredRestart (fulfil p ws st) = hasTriggeredRestart st ∧
  initialServerPromise (fulfil p ws st) = initialServerPromise st ∧
  map url (requests (fulfil p ws st)) = map url (requests st) ∧
  promises (fulfil p ws st) = <[p := Fulfilled]> (promises st) ∧
  restartPromise (fulfil p ws st) = restartPromise st ∧
  serverIdCounter (fulfil p ws st) = serverIdCounter st.
Proof.
  unfold fulfil. rewrite foldl_deliver_req. st_simpl.
  by rewrite map_url_mark.
Qed.

Lemma flush_view p st :
  hasTriggeredRestart (flush_ws p (flush_http p st)) = hasTriggeredRestart st ∧
  initialServerPromise (flush_ws p (flush_http p st)) = initialServerPromise st ∧
  map url (requests (flush_ws p (flush_http p st))) = map url (requests st) ∧
  promises (flush_ws p (flush_http p st)) = promises st ∧
  restartPromise (flush_ws p (flush_http p st)) = restartPromise st ∧
  serverIdCounter (flush_ws p (flush_http p st)) = serverIdCounter st.
Proof.
  rewrite flush_ws_eq, flush_http_eq. st_simpl. by rewrite map_url_mark.
Qed.

Lemma Budget_swap_step p f ws res st :
  Budget st →
  restartPromise st = Some p → promises st !! p = Some (Pending f ws) →
  Budget (swap_step p f ws res st).
Proof.
  intros HB Hr Hl. unfold swap_step.
  pose proof (reject_view p ws st) as (R1 & R2 & R3 & R4 & R5 & R6).
  pose proof (flush_view p st) as (E1 & E2 & E3 & E4 & E5 & E6).
  assert (Budget (reject p ws st)) as Hrej.
  { eapply (Budget_swap p f ws _ 0 st _ HB Hr Hl);
      [done|done|done|done|rewrite R5; auto|by rewrite R6|cbn; lia]. }
  destruct (spc f) as [| |hmrPort|n|n|] eqn:Hpc.
  - eapply (Budget_swap p f ws _ 0 st _ HB Hr Hl);
      [done|done|done|done|st_simpl; auto|done|cbn; rewrite Hpc; cbn; lia].
  - destruct res as [hmrPort|]; [|done].
    eapply (Budget_swap p f ws _ 0 st _ HB Hr Hl);
      [done|done|done|done|st_simpl; auto|done|cbn; rewrite Hpc; cbn; lia].
  - destruct res as [v|]; [|done].
    unfold getServerBuild. st_simpl.
    destruct (serverBuildCache st !! S (serverIdCounter st));
      (eapply (Budget_swap p f ws _ 1 st _ HB Hr Hl);
       [done|done|done|done|st_simpl; auto|st_simpl; lia
       |cbn; rewrite Hpc; cbn; lia]).
  - destruct res as [build|];
      (eapply (Budget_swap p f ws _ 0 st _ HB Hr Hl);
       [done|done|done|done|st_simpl; auto|done|cbn; lia]).
  - destruct res as [b|]; [|done].
    destruct (oldServer f) as [o|].
    + eapply (Budget_swap p f ws _ 0 st _ HB Hr Hl);
        [done|done|done|st_simpl; by rewrite E4|st_simpl; rewrite E5; auto
        |st_simpl; by rewrite E6|cbn; lia].
    + set (st1 := set_restartPromise None _).
      destruct (fulfil_view p ws st1) as (F1 & F2 & F3 & F4 & F5 & F6).
      eapply (Budget_swap p f ws _ 0 st _ HB Hr Hl);
        [by rewrite F1|by rewrite F2|by rewrite F3
        |rewrite F4; unfold st1; st_simpl; by rewrite E4
        |rewrite F5; auto
        |rewrite F6; unfold st1; st_simpl; by rewrite E6|cbn; lia].
  - set (st1 := set_restartPromise None _).
    destruct (fulfil_view p ws st1) as (F1 & F2 & F3 & F4 & F5 & F6).
    eapply (Budget_swap p f ws _ 0 st _ HB Hr Hl);
      [done|done|done|done|rewrite F5; auto|by rewrite F6|cbn; lia].
Qed.

Ltac same_view :=
  eapply Budget_ext; [|eassumption]; unfold bview, early; st_simpl;
  rewrite ?map_url_alter by done; reflexivity.

Lemma Budget_proxy c st : Budget st → Budget (proxy c st).
Proof. intros HB. unfold proxy. destruct (activeHmrPort st) as [[|n]|]; same_view. Qed.

Lemma Budget_step i st st' :
  Inv st → Budget st → step i st = Some st' → Budget st'.
Proof.
  intros HI HB. destruct i as [|u|h|p res|r res|c|c|c]; cbn [step].
  - destruct (microtasks st) as [|j l]; [done|]. intros [= <-].
    assert (Budget (set_microtasks l st)) as HB' by same_view.
    destruct j as [p|r|c]; cbn.
    + destruct (promises st !! p) as [[f ws| |]|] eqn:Hl; try done.
      destruct (sinbox f) as [res|]; [|done].
      apply Budget_swap_step; [done| |done].
      by destruct (inv_frame _ HI _ _ _ Hl) as [? _].
    + destruct (requests st !! r) as [q|]; [|done].
      destruct (rinbox q); [|done]. by apply Budget_req_step.
    + destruct (conns st !! c) as [k|]; [|done].
      destruct (cpc k), (cinbox k); try done. by apply Budget_proxy.
  - destruct (microtasks st); [|done]. intros [= <-]. by apply Budget_onRequest.
  - destruct (microtasks st); [|done]. intros [= <-]. unfold onUpgrade.
    st_simpl. destruct (restartPromise st) eqn:Hr.
    + eapply Budget_ext; [|exact HB]. unfold bview, early. st_simpl.
      by rewrite Hr.
    + apply Budget_proxy. same_view.
  - destruct (promises st !! p) as [[f ws| |]|] eqn:Hl; try done.
    destruct (awaits_io f); [|done]. intros [= <-].
    eapply Budget_ext; [|exact HB]. unfold bview.
    change (early (enqueue _ ?s)) with (early s).
    unfold suspend. rewrite (early_insert_same p f _ ws ws st Hl) by done.
    st_simpl. by rewrite length_insert.
  - destruct (requests st !! r) as [q|]; [|done].
    destruct (rpc q), (rinbox q); try done. intros [= <-].
    eapply Budget_ext; [apply bview_deliver_req|done].
  - destruct (microtasks st); [|done].
    destruct (conns st !! c) as [k|]; [|done].
    destruct (cclosed k); [done|]. intros [= <-]. unfold onClientClose.
    destruct (cpc k); same_view.
  - destruct (microtasks st); [|done].
    destruct (conns st !! c) as [k|]; [|done].
    destruct (cpc k); try done. intros [= <-]. same_view.
  - destruct (microtasks st); [|done].
    destruct (conns st !! c) as [k|]; [|done].
    destruct (cpc k); try done; intros [= <-]; same_view.
Qed.

Lemma Budget_init : Budget init.
Proof. split; cbn; lia || done. Qed.

Lemma run_Budget_from tr st st' :
  Inv st → Budget st → run tr st = Some st' → Budget st'.
Proof.
  revert st. induction tr as [|i tr IH]; intros st HI HB; cbn.
  - by intros [= <-].
  - destruct (step i st) as [st1|] eqn:Hs; [|done].
    apply IH; [by eapply step_Inv|by eapply Budget_step].
Qed.

Lemma run_Budget tr st : run tr init = Some st → Budget st.
Proof. apply run_Budget_from; [apply Inv_init|apply Budget_init]. Qed.

(** [String.prototype.includes]: the needle occurs somewhere in the
    string. *)
Lemma prefix_spec needle s :
  String.prefix needle s = true ↔ ∃ post, s = String.append needle post.
Proof.
  revert s. induction needle as [|a needle IH]; intros s.
  - split; [intros _; by exists s|intros _; by destruct s].
  - destruct s as [|b s].
    + split; [done|]. by intros [post [=]].
    + change (String.prefix (String a needle) (String b s))
        with (if Ascii.ascii_dec a b then String.prefix needle s else false).
      destruct (Ascii.ascii_dec a b) as [->|Hne].
      * rewrite IH. split; intros [post Hp]; exists post.
        -- change (String b needle +:+ post) with (String b (needle +:+ post)).
           by rewrite Hp.
        -- change (String b needle +:+ post) with (String b (needle +:+ post)) in Hp.
           by injection Hp.
      * split; [done|]. intros [post Hp].
        change (String a needle +:+ post) with (String a (needle +:+ post)) in Hp.
        injection Hp as ? _. by subst.
Qed.

Lemma includes_spec needle s :
  includes needle s = true ↔
  ∃ pre post, s = String.append pre (String.append needle post).
Proof.
  induction s as [|a s IH].
  - change (includes needle "") with (if String.prefix needle "" then true else false).
    destruct (String.prefix needle "") eqn:Hp.
    + split; [intros _|done]. apply prefix_spec in Hp as [post Hp].
      by exists ""%string, post.
    + split; [done|]. intros (pre & post & Hs).
      destruct pre; [|done].
      assert (String.prefix needle "" = true) as Hp'
        by (apply prefix_spec; by exists post).
      congruence.
  - change (includes needle (String a s))
      with (if String.prefix needle (String a s) then true else includes needle s).
    destruct (String.prefix needle (String a s)) eqn:Hp.
    + split; [intros _|done]. apply prefix_spec in Hp as [post Hp].
      by exists ""%string, post.
    + rewrite IH. split.
      * intros (pre & post & ->). by exists (String a pre), post.
      * intros (pre & post & Hs). destruct pre as [|b pre].
        -- assert (String.prefix needle (String a s) = true) as Hp'
             by (apply prefix_spec; by exists post).
           congruence.
        -- change (String b pre +:+ ?x) with (String b (pre +:+ x)) in Hs.
           injection Hs as -> ->. eauto.
Qed.

(** X3.  A process runs the body of [restartVite] at most twice and
    creates at most two Vite servers: the one the first request starts
    lazily and the one the first request for a URL containing [env.mjs]
    triggers.  As long as no such request has arrived there is at most one
    run and one server. *)
Theorem at_most_two_servers tr st :
  run tr init = Some st →
  length (promises st) ≤ 2 ∧ serverIdCounter st ≤ 2 ∧
  (hasTriggeredRestart st = false →
   length (promises st) ≤ 1 ∧ serverIdCounter st ≤ 1).
Proof.
  intros Hrun. destruct (run_Budget _ _ Hrun) as [_ H2 H3].
  assert (length (promises st) ≤ b2n (hasTriggeredRestart st) + 1) as H2'.
  { destruct (initialServerPromise st); lia. }
  destruct (hasTriggeredRestart st); cbn in H2'; repeat split; (lia || done).
Qed.

Lemma at_most_two_servers_witness :
  length (promises (state_after second_swap)) ≤ 2 ∧
  serverIdCounter (state_after second_swap) ≤ 2 ∧
  (hasTriggeredRestart (state_after second_swap) = false →
   length (promises (state_after second_swap)) ≤ 1 ∧
   serverIdCounter (state_after second_swap) ≤ 1).
Proof.
  apply (at_most_two_servers second_swap (state_after second_swap)).
  vm_compute. reflexivity.
Defined.

(** X4.  [hasTriggeredRestart] is set exactly when some request seen so
    far had a URL in which [env.mjs] occurs, anywhere in the path or the
    query. *)
Theorem restart_is_triggered_by_env_mjs tr st :
  run tr init = Some st →
  hasTriggeredRestart st = true ↔
  ∃ r q pre post,
    requests st !! r = Some q ∧
    url q = String.append pre (String.append "env.mjs" post).
Proof.
  intros Hrun. destruct (run_Budget _ _ Hrun) as [H1 _ _]. rewrite H1.
  rewrite existsb_exists. split.
  - intros (u & Hin & Hu). apply in_map_iff in Hin as (q & <- & Hq).
    apply list_elem_of_In, list_elem_of_lookup in Hq as [r Hr].
    apply includes_spec in Hu as (pre & post & Hu). eauto 6.
  - intros (r & q & pre & post & Hr & Hu). exists (url q). split.
    + apply in_map. eapply list_elem_of_In, list_elem_of_lookup_2, Hr.
    + apply includes_spec. eauto.
Qed.

Lemma restart_is_triggered_by_env_mjs_witness :
  hasTriggeredRestart (state_after second_swap) = true ↔
  ∃ r q pre post,
    requests (state_after second_swap) !! r = Some q ∧
    url q = String.append pre (String.append "env.mjs" post).
Proof.
  apply (restart_is_triggered_by_env_mjs second_swap (state_after second_swap)).
  vm_compute. reflexivity.
Defined.

(** ** The hold queue, the waiters and the builds handed to requests *)

(** How often the [resolve] of request [r] has been called. *)
Fixpoint releases (r : ReqId) (l : list Event) : nat :=
  match l with
  | [] => 0
  | EResolveHttp _ r' :: l => (if decide (r' = r) then 1 else 0) + releases r l
  | _ :: l => releases r l
  end.

(** What a request carries at each suspension point of the hook. *)
Definition req_wf (l : list Event) (q : Request) : Prop :=
  match rpc q with
  | RHold | RFirst => viteServer q = None ∧ serverBuild q = None
  | RLoad s => viteServer q = Some s ∧ serverBuild q = None
  | RBuild =>
      serverBuild q = None ∧
      ∃ s, viteServer q = Some s ∧
           ∀ b, rinbox q = Some (ROk b) → In (ECacheSet s b) l
  | RDone =>
      ∃ s b, viteServer q = Some s ∧ serverBuild q = Some b ∧
             In (ECacheSet s b) l
  | RThrown => serverBuild q = None
  end.

(** The request waits in [pendingHttpRequests] or for the promise of a
    swap. *)
Definition parked (st : St) (r : ReqId) : Prop :=
  In r (pendingHttpRequests st) ∨
  ∃ p f ws, promises st !! p = Some (Pending f ws) ∧ In r ws.

Record Book (st : St) : Prop := mkBook {
  bk_held : ∀ r,
    In r (pendingHttpRequests st) →
    ∃ q, requests st !! r = Some q ∧ rpc q = RHold ∧ rinbox q = None;
  bk_wait : ∀ p f ws r,
    promises st !! p = Some (Pending f ws) → In r ws →
    ∃ q, requests st !! r = Some q ∧ rpc q = RFirst ∧ rinbox q = None;
  bk_nodup : NoDup (pendingHttpRequests st);
  bk_queue : ∀ r,
    In r (pendingHttpRequests st) ↔
    (∃ a, In (EHoldHttp r a) (log st)) ∧ ∀ p, ¬ In (EResolveHttp p r) (log st);
  bk_fresh : ∀ r a, In (EHoldHttp r a) (log st) → r < length (requests st);
  bk_rel : ∀ p r,
    In (EResolveHttp p r) (log st) → ∃ a, In (EHoldHttp r a) (log st);
  bk_once : ∀ r, releases r (log st) ≤ 1;
  bk_cache : ∀ s b,
    serverBuildCache st !! s = Some b → In (ECacheSet s b) (log st);
  bk_req : ∀ r q, requests st !! r = Some q → req_wf (log st) q
}.

Definition kview (st : St) :=
  (pendingHttpRequests st, promises st, requests st, serverBuildCache st,
   log st).

Lemma Book_ext st st' : kview st' = kview st → Book st → Book st'.
Proof.
  unfold kview. intros [= E1 E2 E3 E4 E5] [H1 H2 H3 H4 H5 H6 H7 H8 H9].
  split; unfold parked; rewrite ?E1, ?E2, ?E3, ?E4, ?E5; auto.
Qed.

Lemma parked_ext st st' :
  pendingHttpRequests st' = pendingHttpRequests st →
  promises st' = promises st → ∀ r, parked st' r ↔ parked st r.
Proof. intros E1 E2 r. unfold parked. by rewrite E1, E2. Qed.

Lemma releases_app r l1 l2 :
  releases r (l1 ++ l2) = releases r l1 + releases r l2.
Proof.
  induction l1 as [|e l1 IH]; [done|].
  destruct e; cbn; rewrite ?IH; lia.
Qed.

Lemma releases_0 r l : (∀ p, ¬ In (EResolveHttp p r) l) → releases r l = 0.
Proof.
  induction l as [|e l IH]; [done|]. intros Hn.
  assert (releases r l = 0) as Hl.
  { apply IH. intros p H. apply (Hn p). by right. }
  destruct e; cbn; try done.
  destruct (decide (r0 = r)) as [->|]; [|done].
  destruct (Hn p). by left.
Qed.

Lemma releases_map p r rs :
  NoDup rs → releases r (map (EResolveHttp p) rs) ≤ 1.
Proof.
  induction 1 as [|x rs Hx Hnd IH]; cbn; [lia|].
  destruct (decide (x = r)) as [->|]; [|lia].
  rewrite releases_0; [lia|].
  intros p' [y [[= _ <-] Hy]]%in_map_iff. by apply Hx, list_elem_of_In.
Qed.

Lemma req_wf_mono l l' q : (∀ e, In e l → In e l') → req_wf l q → req_wf l' q.
Proof.
  intros Hsub. unfold req_wf. destruct (rpc q); try done.
  - intros (? & s & ? & Hb). split; [done|]. exists s. split; [done|]. auto.
  - intros (s & b & ? & ? & ?). exists s, b. auto.
Qed.

(** Events the bookkeeping does not read. *)
Definition book_event (e : Event) : bool :=
  match e with
  | EHoldHttp _ _ | EResolveHttp _ _ => true
  | _ => false
  end.

Lemma releases_other r l e :
  book_event e = false → releases r (l ++ [e]) = releases r l.
Proof. intros He. rewrite releases_app. destruct e; cbn; try done; lia. Qed.

Lemma In_snoc_other x e (l : list Event) :
  book_event e = false → book_event x = true → In x (l ++ [e]) ↔ In x l.
Proof.
  intros He Hx. rewrite in_app_iff. split; [|auto].
  intros [?|[<-|[]]]; [done|congruence].
Qed.

Lemma Book_emit e st : book_event e = false → Book st → Book (emit e st).
Proof.
  intros He [H1 H2 H3 H4 H5 H6 H7 H8 H9]. split; st_simpl; auto.
  - intros r. rewrite H4. split; intros [[a Ha] Hn]; split.
    + exists a. apply in_or_app. auto.
    + intros p Hp. apply In_snoc_other in Hp; [by eapply Hn|done..].
    + exists a. by apply In_snoc_other in Ha.
    + intros p Hp. apply (Hn p). apply in_or_app. auto.
  - intros r a Ha. apply In_snoc_other in Ha; eauto.
  - intros p r Hp. apply In_snoc_other in Hp; [|done..].
    destruct (H6 p r Hp) as [a Ha]. exists a. apply in_or_app. auto.
  - intros r. by rewrite releases_other.
  - intros s b Hs. apply in_or_app. auto.
  - intros r q Hq. eapply req_wf_mono; [|by eapply H9].
    intros x Hx. apply in_or_app. auto.
Qed.

Lemma Book_upd_request r g st :
  Book st → ¬ parked st r →
  (∀ q, requests st !! r = Some q → req_wf (log st) (g q)) →
  Book (upd_request r g st).
Proof.
  intros [H1 H2 H3 H4 H5 H6 H7 H8 H9] Hnp Hg. split; st_simpl; auto.
  - intros r' Hr'. destruct (H1 r' Hr') as (q & Hq & ?).
    exists q. split; [|done]. rewrite list_lookup_alter_ne; [done|].
    intros ->. apply Hnp. by left.
  - intros p f ws r' Hp Hr'. destruct (H2 p f ws r' Hp Hr') as (q & Hq & ?).
    exists q. split; [|done]. rewrite list_lookup_alter_ne; [done|].
    intros ->. apply Hnp. right. eauto.
  - intros r' a Ha. rewrite length_alter. eauto.
  - intros r' q.
    destruct (decide (r = r')) as [<-|Hne].
    + rewrite list_lookup_alter_eq. destruct (requests st !! r) as [q0|] eqn:Hq0;
        [|done]. intros [= <-]. auto.
    + rewrite list_lookup_alter_ne by done. eauto.
Qed.

Lemma req_wf_inbox l res q :
  rpc q ≠ RBuild → req_wf l q → req_wf l (set_rinbox (Some res) q).
Proof. unfold req_wf. cbn. by destruct (rpc q). Qed.

Lemma Book_deliver_req res r st :
  Book st → ¬ parked st r →
  (∀ q, requests st !! r = Some q → rpc q ≠ RBuild) →
  Book (deliver_req res st r).
Proof.
  intros HB Hnp Hpc.
  eapply Book_ext; [|apply (Book_upd_request r (set_rinbox (Some res)) st HB Hnp)].
  - done.
  - intros q Hq. apply req_wf_inbox; [by eapply Hpc|by eapply bk_req].
Qed.

(** A request that is parked is not the one that runs. *)
Lemma parked_pc st r q :
  Book st → parked st r → requests st !! r = Some q →
  (rpc q = RHold ∨ rpc q = RFirst) ∧ rinbox q = None.
Proof.
  intros HB [Hr|(p & f & ws & Hp & Hr)] Hq.
  - destruct (bk_held _ HB r Hr) as (q' & Hq' & ? & ?).
    assert (q' = q) as -> by congruence. auto.
  - destruct (bk_wait _ HB p f ws r Hp Hr) as (q' & Hq' & ? & ?).
    assert (q' = q) as -> by congruence. auto.
Qed.

Lemma Book_new_request u st :
  Book st →
  Book (set_requests (requests st ++ [mkRequest u None None RHold None]) st).
Proof.
  intros [H1 H2 H3 H4 H5 H6 H7 H8 H9]. split; st_simpl; auto.
  - intros r Hr. destruct (H1 r Hr) as (q & Hq & ?). exists q.
    split; [|done]. by apply lookup_app_l_Some.
  - intros p f ws r Hp Hr. destruct (H2 p f ws r Hp Hr) as (q & Hq & ?).
    exists q. split; [|done]. by apply lookup_app_l_Some.
  - intros r a Ha. rewrite length_app. cbn. specialize (H5 r a Ha). lia.
  - intros r q [Hq|[_ Hq]]%lookup_app_Some; [eauto|].
    destruct (r - length (requests st)) as [|n]; [|done].
    injection Hq as <-. by split.
Qed.

(** Line 292: the request joins the queue. *)
Lemma Book_hold r a q st :
  Book st → requests st !! r = Some q → rpc q = RHold → rinbox q = None →
  (∀ a', ¬ In (EHoldHttp r a') (log st)) →
  Book (emit (EHoldHttp r a)
          (set_pendingHttpRequests (pendingHttpRequests st ++ [r]) st)).
Proof.
  intros [H1 H2 H3 H4 H5 H6 H7 H8 H9] Hq Hpc Hin Hfresh.
  assert (¬ In r (pendingHttpRequests st)) as Hnr.
  { intros Hr. apply H4 in Hr as [[a' Ha'] _]. by apply (Hfresh a'). }
  split; st_simpl; auto.
  - intros r' [Hr'|[<-|[]]]%in_app_iff; [eauto|]. eauto.
  - apply NoDup_app. split; [done|]. split; [|apply NoDup_singleton].
    intros x Hx [->|[]%elem_of_nil]%elem_of_cons.
    by apply Hnr, list_elem_of_In.
  - intros r'. rewrite in_app_iff. cbn. split.
    + intros [Hr'|[<-|[]]].
      * apply H4 in Hr' as [[a' Ha'] Hn]. split.
        -- exists a'. apply in_or_app. auto.
        -- intros p [Hp|[[=]|[]]]%in_app_iff. by apply (Hn p).
      * split.
        -- exists a. apply in_or_app. right. by left.
        -- intros p [Hp|[[=]|[]]]%in_app_iff.
           destruct (H6 p r Hp) as [a' Ha']. by apply (Hfresh a').
    + intros [[a' Ha'] Hn].
      apply in_app_iff in Ha' as [Ha'|[[= -> ->]|[]]]; [|auto].
      left. apply H4. split; [eauto|]. intros p Hp. apply (Hn p).
      apply in_or_app. auto.
  - intros r' a' [Ha'|[[= <- <-]|[]]]%in_app_iff; [eauto|].
    by eapply lookup_lt_Some.
  - intros p r' [Hp|[[=]|[]]]%in_app_iff.
    destruct (H6 p r' Hp) as [a' Ha']. exists a'. apply in_or_app. auto.
  - intros r'. rewrite releases_app. cbn. specialize (H7 r'). lia.
  - intros s b Hs. apply in_or_app. auto.
  - intros r' q' Hq'. eapply req_wf_mono; [|by eapply H9].
    intros x Hx. apply in_or_app. auto.
Qed.

(** Replacing the promises: the waiters of the pending ones must still be
    waiting. *)
Lemma Book_set_promises ps st :
  Book st →
  (∀ p f ws r, ps !! p = Some (Pending f ws) → In r ws →
     ∃ q, requests st !! r = Some q ∧ rpc q = RFirst ∧ rinbox q = None) →
  Book (set_promises ps st).
Proof. intros [H1 H2 H3 H4 H5 H6 H7 H8 H9] Hps. by split. Qed.

Lemma Book_suspend p f f' ws st :
  Book st → promises st !! p = Some (Pending f ws) →
  Book (suspend p f' ws st).
Proof.
  intros HB Hl. apply Book_set_promises; [done|].
  intros p' f0 ws0 r [(-> & [= <- <-] & _)|(Hne & Hl')]%list_lookup_insert_Some Hr.
  - by eapply bk_wait.
  - by eapply bk_wait.
Qed.

Lemma Book_restartVite st : Book st → Book (restartVite st).1.
Proof.
  intros HB. unfold restartVite. destruct (restartPromise st); [done|].
  st_simpl.
  assert (∀ f e1 e2, book_event e1 = false → book_event e2 = false →
            Book (set_restartPromise (Some (length (promises st)))
                    (emit e2 (new_promise f (emit e1 st))))) as Hgen.
  { intros f e1 e2 He1 He2.
    eapply Book_ext;
      [|apply Book_emit; [exact He2|];
        apply (Book_set_promises (promises st ++ [Pending f []]) _
                 (Book_emit e1 st He1 HB))].
    - done.
    - intros p f0 ws r [Hl|[_ Hl]]%lookup_app_Some Hr.
      + by eapply (bk_wait _ HB).
      + destruct (p - length (promises st)) as [|n]; [|done].
        injection Hl as <- <-. by destruct Hr. }
  destruct (isFirstStart st); by apply Hgen.
Qed.

Lemma parked_restartVite st r :
  parked (restartVite st).1 r → parked st r.
Proof.
  unfold restartVite. destruct (restartPromise st); [done|]. st_simpl.
  assert (∀ st' : St,
    pendingHttpRequests st' = pendingHttpRequests st →
    (∃ f, promises st' = promises st ++ [Pending f []]) →
    parked st' r → parked st r) as Hgen.
  { intros st' E1 [f0 E2] [Hr|(p & f & ws & Hl & Hr)].
    - left. by rewrite <- E1.
    - rewrite E2 in Hl. apply lookup_app_Some in Hl as [Hl|[_ Hl]].
      + right. eauto.
      + destruct (p - length (promises st)) as [|n]; [|done].
        injection Hl as <- <-. by destruct Hr. }
  destruct (isFirstStart st); apply Hgen; st_simpl; eauto.
Qed.

Lemma restartVite_keeps st :
  requests (restartVite st).1 = requests st ∧
  (∀ e, book_event e = true → In e (log (restartVite st).1) → In e (log st)) ∧
  pendingHttpRequests (restartVite st).1 = pendingHttpRequests st.
Proof.
  unfold restartVite. destruct (restartPromise st); [done|]. st_simpl.
  destruct (isFirstStart st); st_simpl; (split; [done|split; [|done]]);
    intros e He Hin; rewrite <- app_assoc in Hin;
    apply in_app_iff in Hin as [?|[<-|[<-|[]]]]; done.
Qed.

(** The request [r], at line 298 with nothing delivered yet, awaits [p]. *)
Lemma Book_await_promise p r q st :
  Book st → ¬ parked st r →
  requests st !! r = Some q → rpc q = RFirst → rinbox q = None →
  Book (await_promise p r st).
Proof.
  intros HB Hnp Hq Hpc Hin. unfold await_promise.
  destruct (promises st !! p) as [[f ws| |]|] eqn:Hl; [| | |done].
  - apply Book_set_promises; [done|].
    intros p' f0 ws0 r' [(-> & [= <- <-] & _)|(Hne & Hl')]%list_lookup_insert_Some Hr.
    + apply in_app_iff in Hr as [Hr|[<-|[]]]; [by eapply bk_wait|eauto].
    + by eapply bk_wait.
  - apply Book_deliver_req; [done..|]. intros q'. rewrite Hq. intros [= <-].
    by rewrite Hpc.
  - apply Book_deliver_req; [done..|]. intros q'. rewrite Hq. intros [= <-].
    by rewrite Hpc.
Qed.

Lemma Book_ensureFirstServer st : Book st → Book (ensureFirstServer st).1.
Proof.
  intros HB. unfold ensureFirstServer.
  destruct (activeVite st); [done|].
  destruct (initialServerPromise st); [done|].
  pose proof (Book_restartVite st HB) as H1.
  destruct (restartVite st) as [st1 p]. cbn in H1 |- *.
  eapply Book_ext; [|exact H1]. done.
Qed.

Lemma ensureFirstServer_keeps st r :
  requests (ensureFirstServer st).1 = requests st ∧
  (parked (ensureFirstServer st).1 r → parked st r).
Proof.
  unfold ensureFirstServer.
  destruct (activeVite st); [done|].
  destruct (initialServerPromise st); [done|].
  pose proof (restartVite_keeps st) as (E1 & _ & _).
  pose proof (parked_restartVite st r) as E2.
  destruct (restartVite st) as [st1 p]. cbn in E1, E2 |- *. split; [done|].
  intros Hp. apply E2. revert Hp. by apply parked_ext.
Qed.

(** Line 298, for a request that is not parked. *)
Lemma Book_after_hold r q st :
  Book st → ¬ parked st r → requests st !! r = Some q → rpc q = RHold →
  Book (after_hold r st).
Proof.
  intros HB Hnp Hq Hpc. unfold after_hold.
  set (g := λ q, set_rinbox None (set_rpc RFirst q)).
  set (st0 := upd_request r g st).
  assert (Book st0) as H0.
  { apply Book_upd_request; [done..|]. intros q'. rewrite Hq. intros [= <-].
    pose proof (bk_req _ HB r q Hq) as Hwf. unfold req_wf in *.
    by rewrite Hpc in Hwf. }
  assert (¬ parked st0 r) as Hnp0.
  { intros Hp. apply Hnp. revert Hp. by apply parked_ext. }
  assert (requests st0 !! r = Some (g q)) as Hq0.
  { unfold st0. st_simpl. by rewrite list_lookup_alter_eq, Hq. }
  pose proof (Book_ensureFirstServer st0 H0) as H1.
  pose proof (ensureFirstServer_keeps st0 r) as [E1 E2].
  destruct (ensureFirstServer st0) as [st1 [p|]]; cbn in H1, E1, E2.
  - eapply (Book_await_promise p r (g q)); [done|tauto|by rewrite E1|done..].
  - apply Book_deliver_req; [done|tauto|].
    intros q' Hq'. rewrite E1 in Hq'.
    change (requests st0 !! r = Some q') in Hq'.
    assert (q' = g q) as -> by congruence. done.
Qed.

Lemma In_app_other x l (k : list Event) :
  Forall (λ e, book_event e = false) k → book_event x = true →
  In x (l ++ k) ↔ In x l.
Proof.
  intros Hk Hx. rewrite in_app_iff. split; [|auto].
  intros [?|Hin]; [done|]. rewrite Forall_forall in Hk.
  apply list_elem_of_In, Hk in Hin. congruence.
Qed.

Lemma releases_others r l k :
  Forall (λ e, book_event e = false) k → releases r (l ++ k) = releases r l.
Proof.
  intros Hk. rewrite releases_app.
  assert (releases r k = 0) as ->; [|lia].
  induction Hk as [|e k He _ IH]; [done|]. by destruct e.
Qed.

(** A segment that leaves the queue alone, parks nothing new, does not
    touch a parked request and emits no hold and no release. *)
Lemma Book_frame k st st' :
  Book st →
  pendingHttpRequests st' = pendingHttpRequests st →
  log st' = log st ++ k → Forall (λ e, book_event e = false) k →
  length (requests st') = length (requests st) →
  (∀ r q, parked st r → requests st !! r = Some q → requests st' !! r = Some q) →
  (∀ p f ws r, promises st' !! p = Some (Pending f ws) → In r ws →
     ∃ p' f' ws', promises st !! p' = Some (Pending f' ws') ∧ In r ws') →
  (∀ r q, requests st' !! r = Some q →
     requests st !! r = Some q ∨ req_wf (log st') q) →
  (∀ s b, serverBuildCache st' !! s = Some b →
     serverBuildCache st !! s = Some b ∨ In (ECacheSet s b) (log st')) →
  Book st'.
Proof.
  intros [H1 H2 H3 H4 H5 H6 H7 H8 H9] E1 E2 Hk E3 Hkeep Hws Hreq Hcache.
  split; rewrite ?E1, ?E2, ?E3.
  - intros r Hr. destruct (H1 r Hr) as (q & Hq & ?). exists q.
    split; [|done]. apply Hkeep; [by left|done].
  - intros p f ws r Hp Hr.
    destruct (Hws p f ws r Hp Hr) as (p' & f' & ws' & Hp' & Hr').
    destruct (H2 p' f' ws' r Hp' Hr') as (q & Hq & ?). exists q.
    split; [|done]. apply Hkeep; [right; eauto|done].
  - done.
  - intros r. rewrite H4. split; intros [[a Ha] Hn]; split.
    + exists a. apply in_or_app. auto.
    + intros p Hp. apply In_app_other in Hp; [by eapply Hn|done..].
    + exists a. by apply In_app_other in Ha.
    + intros p Hp. apply (Hn p). apply in_or_app. auto.
  - intros r a Ha. apply In_app_other in Ha; eauto.
  - intros p r Hp. apply In_app_other in Hp; [|done..].
    destruct (H6 p r Hp) as [a Ha]. exists a. apply in_or_app. auto.
  - intros r. by rewrite releases_others.
  - intros s b Hs. rewrite <- E2.
    destruct (Hcache s b Hs) as [Hc|Hc]; [|done].
    rewrite E2. apply in_or_app. auto.
  - intros r q Hq. rewrite <- E2.
    destruct (Hreq r q Hq) as [Hq'|Hq']; [|done].
    eapply req_wf_mono; [|by eapply H9]. rewrite E2. intros x Hx.
    apply in_or_app. auto.
Qed.

Lemma mark_reqs_cons res l r rs :
  mark_reqs res l (r :: rs) = mark_reqs res (alter (set_rinbox (Some res)) r l) rs.
Proof. done. Qed.

Lemma mark_reqs_out res rs l i :
  ¬ In i rs → mark_reqs res l rs !! i = l !! i.
Proof.
  revert l. induction rs as [|r rs IH]; intros l Hi; [done|].
  rewrite mark_reqs_cons, IH.
  - rewrite list_lookup_alter_ne; [done|]. intros ->. apply Hi. by left.
  - intros ?. apply Hi. by right.
Qed.

Lemma mark_reqs_in res rs l i :
  In i rs → mark_reqs res l rs !! i = set_rinbox (Some res) <$> l !! i.
Proof.
  revert l. induction rs as [|r rs IH]; intros l; [done|].
  intros Hin. rewrite mark_reqs_cons.
  destruct (in_dec Nat.eq_dec i rs) as [Hi|Hi].
  - rewrite IH by done. destruct (decide (r = i)) as [->|Hne].
    + rewrite list_lookup_alter_eq. by destruct (l !! i).
    + by rewrite list_lookup_alter_ne.
  - destruct Hin as [->|Hin]; [|done].
    rewrite mark_reqs_out by done. apply list_lookup_alter_eq.
Qed.

Lemma length_mark_reqs res rs l : length (mark_reqs res l rs) = length l.
Proof.
  revert l. induction rs as [|r rs IH]; intros l; [done|].
  by rewrite mark_reqs_cons, IH, length_alter.
Qed.

(** Delivering [res] to requests that are not parked. *)
Lemma Book_mark res rs st :
  Book st →
  (∀ r, In r rs → ¬ parked st r) →
  (∀ r q, In r rs → requests st !! r = Some q → rpc q ≠ RBuild) →
  Book (set_requests (mark_reqs res (requests st) rs) st).
Proof.
  intros HB Hnp Hpc.
  apply (Book_frame [] st); st_simpl; try done.
  - by rewrite app_nil_r.
  - apply length_mark_reqs.
  - intros r q Hp Hq. rewrite mark_reqs_out; [done|]. intros Hr.
    by apply (Hnp r).
  - eauto.
  - intros r q Hq. destruct (in_dec Nat.eq_dec r rs) as [Hr|Hr].
    + rewrite mark_reqs_in in Hq by done.
      destruct (requests st !! r) as [q0|] eqn:Hq0; [|done].
      injection Hq as <-. right.
      apply req_wf_inbox; [by eapply Hpc|by eapply bk_req].
    + rewrite mark_reqs_out in Hq by done. by left.
  - auto.
Qed.

(** Lines 232-237. *)
Lemma Book_flush_http p st : Book st → Book (flush_http p st).
Proof.
  intros HB. rewrite flush_http_eq.
  set (hs := pendingHttpRequests st).
  set (st_a := set_log (log st ++ map (EResolveHttp p) hs)
                 (set_pendingHttpRequests [] st)).
  assert (Book st_a) as Ha.
  { destruct HB as [H1 H2 H3 H4 H5 H6 H7 H8 H9]. split; unfold st_a; st_simpl.
    - by intros r [].
    - done.
    - apply NoDup_nil_2.
    - intros r. split; [by intros []|]. intros [[a Ha] Hn].
      apply in_app_iff in Ha as [Ha|Ha];
        [|by apply in_map_iff in Ha as (? & [=] & _)].
      assert (In r hs) as Hr.
      { apply H4. split; [eauto|]. intros p' Hp'. apply (Hn p').
        apply in_or_app. auto. }
      apply (Hn p). apply in_or_app. right. by apply in_map.
    - intros r a [Ha|Ha]%in_app_iff; [eauto|].
      by apply in_map_iff in Ha as (? & [=] & _).
    - intros p' r [Hp|Hp]%in_app_iff.
      + destruct (H6 p' r Hp) as [a Ha]. exists a. apply in_or_app. auto.
      + apply in_map_iff in Hp as (r' & [= _ ->] & Hr).
        apply H4 in Hr as [[a Ha] _]. exists a. apply in_or_app. auto.
    - intros r. rewrite releases_app.
      destruct (in_dec Nat.eq_dec r hs) as [Hr|Hr].
      + apply H4 in Hr as [_ Hn]. rewrite (releases_0 r (log st) Hn).
        pose proof (releases_map p r hs H3). lia.
      + rewrite (releases_0 r (map _ hs)); [specialize (H7 r); lia|].
        intros p' [r' [[= _ ->] Hr']]%in_map_iff. done.
    - intros s b Hs. apply in_or_app. auto.
    - intros r q Hq. eapply req_wf_mono; [|by eapply H9].
      intros x Hx. apply in_or_app. auto. }
  eapply Book_ext; [|apply (Book_mark (ROk 0) hs st_a Ha)].
  - done.
  - intros r Hr [[]|(p' & f & ws & Hl & Hw)].
    destruct (bk_held _ HB r Hr) as (q & Hq & Hpc & _).
    destruct (bk_wait _ HB p' f ws r Hl Hw) as (q' & Hq' & Hpc' & _).
    congruence.
  - intros r q Hr Hq. destruct (bk_held _ HB r Hr) as (q' & Hq' & Hpc & _).
    assert (q' = q) as -> by (unfold st_a in Hq; cbn in Hq; congruence).
    by rewrite Hpc.
Qed.

Lemma Book_flush_ws p st : Book st → Book (flush_ws p st).
Proof.
  intros HB. rewrite flush_ws_eq.
  eapply (Book_frame _ st); st_simpl; try done; eauto.
  apply Forall_forall. intros e He.
  by apply list_elem_of_In, in_map_iff in He as (h & <- & _).
Qed.

(** The promise [p] of the only swap in flight settles: its waiters are
    resumed. *)
Lemma Book_settle (x : PState) res e p f ws st :
  Book st → promises st !! p = Some (Pending f ws) →
  (∀ p' f' ws', promises st !! p' = Some (Pending f' ws') → p' = p) →
  (∀ f' ws', x ≠ Pending f' ws') → book_event e = false →
  Book (foldl (deliver_req res)
          (emit e (set_promises (<[p := x]> (promises st)) st)) ws).
Proof.
  intros HB Hl Huniq Hx He. rewrite foldl_deliver_req.
  set (st_a := emit e (set_promises (<[p := x]> (promises st)) st)).
  assert (∀ p' f' ws', promises st_a !! p' ≠ Some (Pending f' ws')) as Hnone.
  { intros p' f' ws' Hp'. unfold st_a in Hp'. st_simpl.
    apply list_lookup_insert_Some in Hp' as [(_ & E & _)|(Hne & Hp')].
    - by eapply Hx.
    - apply Hne. symmetry. by eapply Huniq. }
  assert (Book st_a) as Ha.
  { apply Book_emit; [done|]. apply Book_set_promises; [done|].
    intros p' f' ws' r Hp'. by destruct (Hnone p' f' ws'). }
  eapply Book_ext; [|apply (Book_mark res ws st_a Ha)].
  - done.
  - intros r Hr [Hp|(p' & f' & ws' & Hp' & _)]; [|by eapply Hnone].
    destruct (bk_held _ HB r Hp) as (q & Hq & Hpc & _).
    destruct (bk_wait _ HB p f ws r Hl Hr) as (q' & Hq' & Hpc' & _).
    congruence.
  - intros r q Hr Hq. destruct (bk_wait _ HB p f ws r Hl Hr) as (q' & Hq' & Hpc & _).
    assert (q' = q) as -> by (unfold st_a in Hq; cbn in Hq; congruence).
    by rewrite Hpc.
Qed.

Lemma Book_reject p f ws st :
  Book st → promises st !! p = Some (Pending f ws) →
  (∀ p' f' ws', promises st !! p' = Some (Pending f' ws') → p' = p) →
  Book (reject p ws st).
Proof. intros. by eapply Book_settle. Qed.

Lemma Book_fulfil p f ws st :
  Book st → promises st !! p = Some (Pending f ws) →
  (∀ p' f' ws', promises st !! p' = Some (Pending f' ws') → p' = p) →
  Book (fulfil p ws st).
Proof. intros. by eapply Book_settle. Qed.

(** A segment of the swap that only moves its frame on. *)
Lemma Book_swap_frame k p f f' ws st st' :
  Book st → promises st !! p = Some (Pending f ws) →
  pendingHttpRequests st' = pendingHttpRequests st →
  log st' = log st ++ k → Forall (λ e, book_event e = false) k →
  requests st' = requests st →
  promises st' = <[p := Pending f' ws]> (promises st) →
  (∀ s b, serverBuildCache st' !! s = Some b →
     serverBuildCache st !! s = Some b ∨ In (ECacheSet s b) (log st')) →
  Book st'.
Proof.
  intros HB Hl E1 E2 Hk E3 E4 Hc.
  apply (Book_frame k st); try done.
  - by rewrite E3.
  - intros r q _. by rewrite E3.
  - intros p' f0 ws0 r. rewrite E4.
    intros [(-> & [= <- <-] & _)|(Hne & Hl')]%list_lookup_insert_Some Hr; eauto.
  - intros r q. rewrite E3. auto.
Qed.

Ltac swap_frame k p f ws st :=
  eapply (Book_swap_frame k p f _ ws st);
  [eassumption|eassumption|st_simpl; try reflexivity
  |st_simpl; rewrite <- ?app_assoc, ?app_nil_r; try reflexivity
  |by repeat constructor|st_simpl; try reflexivity
  |st_simpl; try reflexivity|st_simpl; auto].

Lemma Book_swap_step p f ws res st :
  Book st → promises st !! p = Some (Pending f ws) →
  (∀ p' f' ws', promises st !! p' = Some (Pending f' ws') → p' = p) →
  Book (swap_step p f ws res st).
Proof.
  intros HB Hl Huniq. unfold swap_step.
  assert (Book (reject p ws st)) as Hrej by (by eapply Book_reject).
  destruct (spc f) as [| |hmrPort|n|n|] eqn:Hpc.
  - swap_frame [EGetPort p] p f ws st.
  - destruct res as [hmrPort|]; [|done].
    swap_frame [ECreateServer p hmrPort] p f ws st.
  - destruct res as [v|]; [|done].
    unfold getServerBuild. st_simpl.
    destruct (serverBuildCache st !! S (serverIdCounter st)).
    + swap_frame [EServerStarted p (S (serverIdCounter st)) hmrPort] p f ws st.
    + swap_frame [EServerStarted p (S (serverIdCounter st)) hmrPort;
                  ELoad (S (serverIdCounter st))] p f ws st.
  - destruct res as [build|].
    + unfold getServerBuild_loaded. swap_frame [ECacheSet n build] p f ws st.
      intros s b [(<- & <-)|(_ & Hs)]%lookup_insert_Some; [right|by left].
      apply in_or_app. right. by left.
    + swap_frame (@nil Event) p f ws st.
  - destruct res as [b|]; [|done].
    set (st1 := flush_ws p (flush_http p st)).
    assert (Book st1) as H1 by (by apply Book_flush_ws, Book_flush_http).
    assert (promises st1 = promises st) as E1.
    { unfold st1. by rewrite flush_ws_eq, flush_http_eq. }
    rewrite <- E1 in Hl.
    destruct (oldServer f) as [o|].
    + swap_frame [ECacheDelete o; EClose p o] p f ws st1.
      intros s b' [_ Hs]%lookup_delete_Some. by left.
    + eapply (Book_fulfil p f ws (set_restartPromise None st1)).
      * eapply Book_ext; [|exact H1]. done.
      * done.
      * st_simpl. rewrite E1. exact Huniq.
  - eapply (Book_fulfil p f ws (set_restartPromise None st)); [|done..].
    eapply Book_ext; [|exact HB]. done.
Qed.

(** A segment of the hook that changes the request that runs, and no
    other. *)
Lemma Book_req_frame k r st st' :
  Book st → ¬ parked st r →
  pendingHttpRequests st' = pendingHttpRequests st →
  promises st' = promises st →
  log st' = log st ++ k → Forall (λ e, book_event e = false) k →
  length (requests st') = length (requests st) →
  (∀ i, i ≠ r → requests st' !! i = requests st !! i) →
  (∀ q', requests st' !! r = Some q' → req_wf (log st') q') →
  (∀ s b, serverBuildCache st' !! s = Some b →
     serverBuildCache st !! s = Some b ∨ In (ECacheSet s b) (log st')) →
  Book st'.
Proof.
  intros HB Hnp E1 E2 E3 Hk E4 Hother Hr Hc.
  apply (Book_frame k st); try done.
  - intros i q Hp Hq. rewrite Hother; [done|]. by intros ->.
  - intros p f ws i. rewrite E2. eauto.
  - intros i q Hq. destruct (decide (i = r)) as [->|Hne]; [right; auto|left].
    by rewrite <- Hother.
Qed.

Ltac req_frame k r st :=
  eapply (Book_req_frame k r st);
  [eassumption|eassumption|st_simpl; try reflexivity|st_simpl; try reflexivity
  |st_simpl; rewrite <- ?app_assoc, ?app_nil_r; try reflexivity
  |by repeat constructor
  |st_simpl; by rewrite ?length_alter
  |st_simpl; intros ? ?; by rewrite ?list_lookup_alter_ne by done
  |st_simpl; rewrite ?list_lookup_alter_eq;
   match goal with H : requests _ !! _ = Some _ |- _ => rewrite H end;
   intros ? [= <-]
  |st_simpl; auto].

Lemma Book_req_step r q res st :
  Book st → requests st !! r = Some q → rinbox q = Some res →
  Book (req_step r q res st).
Proof.
  intros HB Hq Hin.
  assert (¬ parked st r) as Hnp.
  { intros Hp. destruct (parked_pc st r q HB Hp Hq) as [_ ?]. congruence. }
  pose proof (bk_req _ HB r q Hq) as Hwf.
  unfold req_step. unfold req_wf in Hwf.
  destruct (rpc q) as [| |s| | |] eqn:Hpc; [by eapply Book_after_hold|..]; try done.
  - destruct Hwf as [Hv Hb].
    assert (Book (upd_request r (λ q, set_rinbox None (set_rpc RThrown q)) st))
      as Hthrown.
    { req_frame (@nil Event) r st. by unfold req_wf. }
    destruct res as [v|]; [|done].
    destruct (activeVite st) as [s|]; [|done].
    unfold getServerBuild. st_simpl.
    destruct (serverBuildCache st !! s) as [b|] eqn:Hc.
    + req_frame [EBind r s] r st. unfold req_wf. cbn.
      split; [done|]. exists s. split; [done|]. intros b' [= <-].
      apply in_or_app. left. by eapply bk_cache.
    + req_frame [EBind r s; ELoad s] r st. by unfold req_wf.
  - destruct Hwf as [Hv Hb]. destruct res as [build|].
    + unfold getServerBuild_loaded. req_frame [ECacheSet s build] r st.
      * unfold req_wf. cbn. split; [done|]. exists s. split; [done|].
        intros b' [= <-]. apply in_or_app. right. by left.
      * intros s' b [(<- & <-)|(_ & Hs)]%lookup_insert_Some; [right|by left].
        apply in_or_app. right. by left.
    + req_frame (@nil Event) r st. unfold req_wf. cbn.
      split; [done|]. exists s. by split.
  - destruct Hwf as (Hb & s & Hv & Hset). destruct res as [b|].
    + req_frame (@nil Event) r st. unfold req_wf. cbn.
      exists s, b. repeat split; try done. apply Hset. by rewrite Hin.
    + req_frame (@nil Event) r st. by unfold req_wf.
Qed.

Lemma Book_proxy c st : Book st → Book (proxy c st).
Proof.
  intros HB. unfold proxy.
  destruct (activeHmrPort st) as [[|n]|];
    (apply Book_emit; [done|]; eapply Book_ext; [|exact HB]; done).
Qed.

Lemma Book_onRequest u st : Book st → Book (onRequest u st).
Proof.
  intros HB. unfold onRequest.
  set (r := length (requests st)).
  set (q := mkRequest u None None RHold None).
  set (st0 := set_requests (requests st ++ [q]) st).
  assert (Book st0) as H0 by (by apply Book_new_request).
  assert (requests st0 !! r = Some q) as Hq0.
  { unfold st0. st_simpl. by apply list_lookup_middle. }
  assert (¬ parked st r) as Hnp.
  { intros Hp.
    assert (is_Some (requests st !! r)) as [q' Hq'].
    { destruct Hp as [Hp|(p & f & ws & Hp & Hr)].
      - destruct (bk_held _ HB r Hp) as (q' & Hq' & _). eauto.
      - destruct (bk_wait _ HB p f ws r Hp Hr) as (q' & Hq' & _). eauto. }
    apply lookup_lt_Some in Hq'. unfold r in Hq'. lia. }
  assert (∀ a, ¬ In (EHoldHttp r a) (log st)) as Hfresh.
  { intros a Ha. apply (bk_fresh _ HB) in Ha. unfold r in Ha. lia. }
  assert (∀ st1, Book st1 → requests st1 = requests st0 →
            (parked st1 r → parked st r) →
            (∀ e, book_event e = true → In e (log st1) → In e (log st)) →
            Book match restartPromise st1 with
                 | Some _ =>
                     emit (EHoldHttp r (activeVite st1))
                       (set_pendingHttpRequests (pendingHttpRequests st1 ++ [r]) st1)
                 | None => after_hold r st1
                 end) as Hrest.
  { intros st1 H1 E1 E2 E3. destruct (restartPromise st1).
    - eapply (Book_hold r _ q); [done|by rewrite E1|done..|].
      intros a Ha. apply E3 in Ha; [|done]. by apply (Hfresh a).
    - eapply (Book_after_hold r q); [done|tauto|by rewrite E1|done]. }
  destruct (_ && _).
  - set (st0' := set_hasTriggeredRestart true st0).
    assert (Book st0') as H0' by (eapply Book_ext; [|exact H0]; done).
    pose proof (Book_restartVite st0' H0') as H1.
    pose proof (restartVite_keeps st0') as (E1 & E3 & _).
    pose proof (parked_restartVite st0' r) as E2.
    destruct (restartVite st0') as [st1 p]. cbn [fst] in *.
    apply Hrest; [done|done| |done].
    intros Hp. apply E2 in Hp. revert Hp. by apply parked_ext.
  - apply Hrest; [done|done| |done]. by apply parked_ext.
Qed.

Lemma Book_step i st st' :
  Inv st → Book st → step i st = Some st' → Book st'.
Proof.
  intros HI HB. destruct i as [|u|h|p res|r res|c|c|c]; cbn [step].
  - destruct (microtasks st) as [|j l]; [done|]. intros [= <-].
    assert (Book (set_microtasks l st)) as HB'
      by (eapply Book_ext; [|exact HB]; done).
    destruct j as [p|r|c]; cbn.
    + destruct (promises st !! p) as [[f ws| |]|] eqn:Hl; try done.
      destruct (sinbox f) as [res|]; [|done].
      apply Book_swap_step; [done..|].
      intros p' f' ws' Hl'. st_simpl.
      destruct (inv_frame _ HI _ _ _ Hl) as [Hr _].
      destruct (inv_frame _ HI _ _ _ Hl') as [Hr' _]. congruence.
    + destruct (requests st !! r) as [q|] eqn:Hq; [|done].
      destruct (rinbox q) eqn:Hin; [|done]. by apply Book_req_step.
    + destruct (conns st !! c) as [k|]; [|done].
      destruct (cpc k), (cinbox k); try done. by apply Book_proxy.
  - destruct (microtasks st); [|done]. intros [= <-]. by apply Book_onRequest.
  - destruct (microtasks st); [|done]. intros [= <-]. unfold onUpgrade.
    st_simpl. destruct (restartPromise st).
    + apply Book_emit; [done|]. eapply Book_ext; [|exact HB]. done.
    + apply Book_proxy. eapply Book_ext; [|exact HB]. done.
  - destruct (promises st !! p) as [[f ws| |]|] eqn:Hl; try done.
    destruct (awaits_io f); [|done]. intros [= <-].
    eapply Book_ext; [|eapply (Book_suspend p f _ ws st HB Hl)]. done.
  - destruct (requests st !! r) as [q|] eqn:Hq; [|done].
    destruct (rpc q) eqn:Hpc; try done.
    destruct (rinbox q) eqn:Hin; try done. intros [= <-].
    apply Book_deliver_req; [done| |].
    + intros Hp. destruct (parked_pc st r q HB Hp Hq) as [[?|?] _]; congruence.
    + intros q'. rewrite Hq. intros [= <-]. by rewrite Hpc.
  - destruct (microtasks st); [|done].
    destruct (conns st !! c) as [k|]; [|done].
    destruct (cclosed k); [done|]. intros [= <-]. unfold onClientClose.
    assert (Book (emit (EClientClose c) (upd_conn c (set_cclosed true) st))).
    { apply Book_emit; [done|]. eapply Book_ext; [|exact HB]. done. }
    destruct (cpc k); try done; by apply Book_emit.
  - destruct (microtasks st); [|done].
    destruct (conns st !! c) as [k|]; [|done].
    destruct (cpc k); try done. intros [= <-].
    apply Book_emit; [done|]. eapply Book_ext; [|exact HB]. done.
  - destruct (microtasks st); [|done].
    destruct (conns st !! c) as [k|]; [|done].
    destruct (cpc k); try done; intros [= <-];
      (apply Book_emit; [done|]; eapply Book_ext; [|exact HB]; done).
Qed.

Lemma Book_init : Book init.
Proof.
  split; cbn; try done.
  - apply NoDup_nil_2.
  - intros r. split; [done|]. by intros [[a []] _].
  - lia.
Qed.

Lemma run_Book_from tr st st' :
  Inv st → Book st → run tr st = Some st' → Book st'.
Proof.
  revert st. induction tr as [|i tr IH]; intros st HI HB; cbn.
  - by intros [= <-].
  - destruct (step i st) as [st1|] eqn:Hs; [|done].
    apply IH; [by eapply step_Inv|by eapply Book_step].
Qed.

Lemma run_Book tr st : run tr init = Some st → Book st.
Proof. apply run_Book_from; [apply Inv_init|apply Book_init]. Qed.

(** X5.  A request whose hook has completed carries both
    [request.viteServer] and [request.serverBuild], and the build is one
    that [ssrLoadModule] of that very server returned (it was stored in the
    cache under that server): a request never gets the build of another
    server.  Before the hook has passed line 298 neither field is set. *)
Theorem completed_hook_has_matching_build tr st r q :
  run tr init = Some st → requests st !! r = Some q →
  (rpc q = RDone →
   ∃ s b, viteServer q = Some s ∧ serverBuild q = Some b ∧
          In (ECacheSet s b) (log st)) ∧
  (rpc q = RHold ∨ rpc q = RFirst → viteServer q = None ∧ serverBuild q = None) ∧
  (rpc q ≠ RDone → serverBuild q = None).
Proof.
  intros Hrun Hq. pose proof (bk_req _ (run_Book _ _ Hrun) r q Hq) as Hwf.
  unfold req_wf in Hwf.
  destruct (rpc q); repeat split; try done; try tauto;
    intros; try intuition discriminate.
Qed.

Lemma completed_hook_has_matching_build_witness :
  ∃ s b, Some 2 = Some s ∧ Some 78 = Some b ∧
         In (ECacheSet s b) (log (state_after second_swap)).
Proof.
  refine (proj1 (completed_hook_has_matching_build second_swap
                   (state_after second_swap) 1
                   (mkRequest "/env.mjs" (Some 2) (Some 78) RDone None) _ _)
            eq_refl).
  - vm_compute. reflexivity.
  - vm_compute. reflexivity.
Defined.

(** X6.  [pendingHttpRequests] holds, without repetition, exactly the
    requests that were put on hold (line 292) and whose [resolve] has not
    been called yet: no entry is ever dropped from the queue unresolved, and
    none stays after its release.  A queued request is suspended at line
    291 and has no server bound. *)
Theorem hold_queue_is_exact tr st :
  run tr init = Some st →
  NoDup (pendingHttpRequests st) ∧
  (∀ r, In r (pendingHttpRequests st) ↔
        (∃ a, In (EHoldHttp r a) (log st)) ∧
        ∀ p, ¬ In (EResolveHttp p r) (log st)) ∧
  (∀ r, In r (pendingHttpRequests st) →
        ∃ q, requests st !! r = Some q ∧ rpc q = RHold ∧ viteServer q = None).
Proof.
  intros Hrun. pose proof (run_Book _ _ Hrun) as HB.
  split; [apply (bk_nodup _ HB)|]. split; [apply (bk_queue _ HB)|].
  intros r Hr. destruct (bk_held _ HB r Hr) as (q & Hq & Hpc & _).
  exists q. repeat split; try done.
  pose proof (bk_req _ HB r q Hq) as Hwf. unfold req_wf in Hwf.
  rewrite Hpc in Hwf. tauto.
Qed.

Lemma hold_queue_is_exact_witness :
  NoDup (pendingHttpRequests (state_after late_hold)) ∧
  (∀ r, In r (pendingHttpRequests (state_after late_hold)) ↔
        (∃ a, In (EHoldHttp r a) (log (state_after late_hold))) ∧
        ∀ p, ¬ In (EResolveHttp p r) (log (state_after late_hold))) ∧
  (∀ r, In r (pendingHttpRequests (state_after late_hold)) →
        ∃ q, requests (state_after late_hold) !! r = Some q ∧
             rpc q = RHold ∧ viteServer q = None).
Proof.
  apply (hold_queue_is_exact late_hold (state_after late_hold)).
  vm_compute. reflexivity.
Defined.

(** X7.  The [resolve] of a held request is called at most once over a
    whole run, and only for a request that was put on hold before. *)
Theorem hold_is_released_at_most_once tr st r :
  run tr init = Some st →
  releases r (log st) ≤ 1 ∧
  ∀ p, In (EResolveHttp p r) (log st) → ∃ a, In (EHoldHttp r a) (log st).
Proof.
  intros Hrun. pose proof (run_Book _ _ Hrun) as HB.
  split; [apply (bk_once _ HB)|]. intros p. apply (bk_rel _ HB).
Qed.

Lemma hold_is_released_at_most_once_witness :
  releases 2 (log (state_after second_swap)) ≤ 1 ∧
  ∀ p, In (EResolveHttp p 2) (log (state_after second_swap)) →
       ∃ a, In (EHoldHttp 2 a) (log (state_after second_swap)).
Proof.
  apply (hold_is_released_at_most_once second_swap (state_after second_swap) 2).
  vm_compute. reflexivity.
Defined.

(** ** The queue of held connections and the connects of the proxy *)

(** How often [net.connect] has been called for connection [c]. *)
Fixpoint connects (c : ConnId) (l : list Event) : nat :=
  match l with
  | [] => 0
  | EConnect c' _ :: l => (if decide (c' = c) then 1 else 0) + connects c l
  | _ :: l => connects c l
  end.

Definition ws_event (e : Event) : bool :=
  match e with
  | EHoldWs _ | EResolveWs _ _ | EConnect _ _ => true
  | _ => false
  end.

Record BookWs (st : St) : Prop := mkBookWs {
  bw_held : ∀ h,
    In h (pendingWsConnections st) →
    resolve h = socket h ∧
    ∃ k, conns st !! socket h = Some k ∧ cpc k = CHold ∧ cinbox k = false ∧
         chead k = head h;
  bw_nodup : NoDup (map socket (pendingWsConnections st));
  bw_queue : ∀ c,
    In c (map socket (pendingWsConnections st)) ↔
    In (EHoldWs c) (log st) ∧ ∀ p, ¬ In (EResolveWs p c) (log st);
  bw_fresh : ∀ c,
    In (EHoldWs c) (log st) ∨ (∃ h, In (EConnect c h) (log st)) →
    c < length (conns st);
  bw_rel : ∀ p c, In (EResolveWs p c) (log st) → In (EHoldWs c) (log st);
  bw_inbox : ∀ c k,
    conns st !! c = Some k → cinbox k = true →
    ∃ p, In (EResolveWs p c) (log st);
  bw_chold : ∀ c k h,
    conns st !! c = Some k → cpc k = CHold → ¬ In (EConnect c h) (log st);
  bw_once : ∀ c, connects c (log st) ≤ 1;
  bw_port : ∀ h,
    activeHmrPort st = Some h → ∃ p s, In (EServerStarted p s h) (log st);
  bw_connected : ∀ c h,
    In (EConnect c h) (log st) →
    (∃ p s, In (EServerStarted p s h) (log st)) ∧
    (In (EHoldWs c) (log st) → ∃ p, In (EResolveWs p c) (log st))
}.

(** A segment that does not concern the proxy. *)
Record wquiet (st st' : St) : Prop := mkWquiet {
  wq_queue : pendingWsConnections st' = pendingWsConnections st;
  wq_conns : conns st' = conns st;
  wq_port : ∀ h,
    activeHmrPort st' = Some h →
    activeHmrPort st = Some h ∨ ∃ p s, In (EServerStarted p s h) (log st');
  wq_log : ∃ k, log st' = log st ++ k ∧ Forall (λ e, ws_event e = false) k
}.

Lemma wquiet_refl st : wquiet st st.
Proof. split; try done; [auto|]. exists []. by rewrite app_nil_r. Qed.

Lemma wquiet_trans st1 st2 st3 : wquiet st1 st2 → wquiet st2 st3 → wquiet st1 st3.
Proof.
  intros [A1 B1 C1 (k1 & D1 & E1)] [A2 B2 C2 (k2 & D2 & E2)].
  split; try congruence.
  - intros h Hh. destruct (C2 h Hh) as [H2|H2]; [|by right].
    destruct (C1 h H2) as [H1|(p & s & H1)]; [by left|right].
    exists p, s. rewrite D2. apply in_or_app. auto.
  - exists (k1 ++ k2). split.
    + by rewrite D2, D1, app_assoc.
    + by apply Forall_app.
Qed.

Definition wview (st : St) :=
  (pendingWsConnections st, conns st, activeHmrPort st, log st).

Lemma wquiet_wview st st' : wview st' = wview st → wquiet st st'.
Proof.
  unfold wview. intros [= E1 E2 E3 E4]. split; try done.
  - rewrite E3. auto.
  - exists []. by rewrite app_nil_r.
Qed.

Lemma wquiet_emit e st : ws_event e = false → wquiet st (emit e st).
Proof.
  intros He. split; try done; [auto|]. exists [e]. split; [done|].
  by constructor.
Qed.

Lemma connects_app c l1 l2 :
  connects c (l1 ++ l2) = connects c l1 + connects c l2.
Proof.
  induction l1 as [|e l1 IH]; [done|].
  destruct e; cbn; rewrite ?IH; lia.
Qed.

Lemma connects_0 c l : (∀ h, ¬ In (EConnect c h) l) → connects c l = 0.
Proof.
  induction l as [|e l IH]; [done|]. intros Hn.
  assert (connects c l = 0) as Hl.
  { apply IH. intros h H. apply (Hn h). by right. }
  destruct e; cbn; try done.
  destruct (decide (c0 = c)) as [->|]; [|done].
  destruct (Hn port). by left.
Qed.

Lemma connects_others c k :
  Forall (λ e, ws_event e = false) k → connects c k = 0.
Proof. induction 1 as [|e k He _ IH]; [done|]. by destruct e. Qed.

Lemma In_app_ws x l (k : list Event) :
  Forall (λ e, ws_event e = false) k → ws_event x = true →
  In x (l ++ k) ↔ In x l.
Proof.
  intros Hk Hx. rewrite in_app_iff. split; [|auto].
  intros [?|Hin]; [done|]. rewrite Forall_forall in Hk.
  apply list_elem_of_In, Hk in Hin. congruence.
Qed.

Lemma BookWs_wquiet st st' : BookWs st → wquiet st st' → BookWs st'.
Proof.
  intros [H1 H2 H3 H4 H5 H6 H7 H8 H9 H10] [E1 E2 E3 (k & E4 & Hk)].
  split; rewrite ?E1, ?E2, ?E4.
  - done.
  - done.
  - intros c. rewrite H3. rewrite In_app_ws by done.
    split; intros [Ha Hn]; (split; [done|]); intros p Hp; apply (Hn p).
    + by apply In_app_ws in Hp.
    + by apply In_app_ws.
  - intros c [Hc|[h Hc]]; apply In_app_ws in Hc; eauto.
  - intros p c Hp. apply In_app_ws in Hp; [|done..]. apply In_app_ws; eauto.
  - intros c k0 Hc Hi. destruct (H6 c k0 Hc Hi) as [p Hp]. exists p.
    by apply In_app_ws.
  - intros c k0 h Hc Hpc Hin. apply In_app_ws in Hin; [|done..]. by eapply H7.
  - intros c. rewrite connects_app, (connects_others c k Hk). specialize (H8 c). lia.
  - intros h Hh. rewrite <- E4. destruct (E3 h Hh) as [Hp|Hp]; [|done].
    destruct (H9 h Hp) as (p & s & Hs). exists p, s. rewrite E4.
    apply in_or_app. auto.
  - intros c h Hc. apply In_app_ws in Hc; [|done..].
    destruct (H10 c h Hc) as [(p & s & Hs) Hrel]. split.
    + exists p, s. apply in_or_app. auto.
    + intros Hh. apply In_app_ws in Hh; [|done..].
      destruct (Hrel Hh) as [p' Hp']. exists p'. by apply In_app_ws.
Qed.

Ltac wq_same := apply wquiet_wview; reflexivity.
Ltac wq_step :=
  first [apply wquiet_refl
        |wq_same
        |apply wquiet_emit; reflexivity
        |eapply wquiet_trans; [|apply wquiet_emit; reflexivity]].

Lemma wquiet_deliver_req res st r : wquiet st (deliver_req res st r).
Proof. wq_same. Qed.

Lemma wquiet_upd_request r g st : wquiet st (upd_request r g st).
Proof. wq_same. Qed.

Lemma wquiet_foldl_deliver res ws st : wquiet st (foldl (deliver_req res) st ws).
Proof. rewrite foldl_deliver_req. wq_same. Qed.

Lemma wquiet_reject p ws st : wquiet st (reject p ws st).
Proof.
  unfold reject. eapply wquiet_trans; [|apply wquiet_foldl_deliver].
  eapply wquiet_trans; [|by apply wquiet_emit]. wq_same.
Qed.

Lemma wquiet_fulfil p ws st : wquiet st (fulfil p ws st).
Proof.
  unfold fulfil. eapply wquiet_trans; [|apply wquiet_foldl_deliver].
  eapply wquiet_trans; [|by apply wquiet_emit]. wq_same.
Qed.

Lemma wquiet_flush_http p st : wquiet st (flush_http p st).
Proof.
  rewrite flush_http_eq. split; try done; [auto|]. st_simpl.
  eexists. split; [done|]. apply Forall_forall. intros e He.
  by apply list_elem_of_In, in_map_iff in He as (h & <- & _).
Qed.

Ltac wq_direct k :=
  split; st_simpl; try reflexivity; [auto|]; exists k;
  split; [by rewrite <- ?app_assoc, ?app_nil_r|by repeat constructor].

Lemma wquiet_restartVite st : wquiet st (restartVite st).1.
Proof.
  unfold restartVite. destruct (restartPromise st); [apply wquiet_refl|].
  st_simpl. destruct (isFirstStart st); st_simpl.
  - wq_direct [ESwapStart (length (promises st)) (activeVite st);
               ERmCache (length (promises st))].
  - wq_direct [ESwapStart (length (promises st)) (activeVite st);
               EGetPort (length (promises st))].
Qed.

Lemma wquiet_ensureFirstServer st : wquiet st (ensureFirstServer st).1.
Proof.
  unfold ensureFirstServer.
  destruct (activeVite st); [apply wquiet_refl|].
  destruct (initialServerPromise st); [apply wquiet_refl|].
  pose proof (wquiet_restartVite st) as H.
  destruct (restartVite st) as [st1 p]. cbn in *.
  eapply wquiet_trans; [exact H|wq_same].
Qed.

Lemma wquiet_await_promise p r st : wquiet st (await_promise p r st).
Proof.
  unfold await_promise.
  destruct (promises st !! p) as [[f ws| |]|]; wq_step.
Qed.

Lemma wquiet_after_hold r st : wquiet st (after_hold r st).
Proof.
  unfold after_hold. set (st0 := upd_request _ _ st).
  pose proof (wquiet_ensureFirstServer st0) as H.
  destruct (ensureFirstServer st0) as [st1 [p|]]; cbn in H.
  - eapply wquiet_trans; [apply wquiet_upd_request|].
    eapply wquiet_trans; [exact H|apply wquiet_await_promise].
  - eapply wquiet_trans; [apply wquiet_upd_request|].
    eapply wquiet_trans; [exact H|apply wquiet_deliver_req].
Qed.

Lemma wquiet_onRequest u st : wquiet st (onRequest u st).
Proof.
  unfold onRequest. set (r := length (requests st)).
  set (st0 := set_requests _ st).
  assert (wquiet st st0) as H0 by wq_same.
  assert (∀ st1, wquiet st st1 →
            wquiet st match restartPromise st1 with
                      | Some _ =>
                          emit (EHoldHttp r (activeVite st1))
                            (set_pendingHttpRequests (pendingHttpRequests st1 ++ [r]) st1)
                      | None => after_hold r st1
                      end) as Hrest.
  { intros st1 H1. destruct (restartPromise st1).
    - eapply wquiet_trans; [exact H1|].
      eapply wquiet_trans; [|by apply wquiet_emit]. wq_same.
    - eapply wquiet_trans; [exact H1|apply wquiet_after_hold]. }
  destruct (_ && _); [|by apply Hrest].
  apply Hrest. eapply wquiet_trans; [exact H0|].
  eapply wquiet_trans; [|apply wquiet_restartVite]. wq_same.
Qed.

Lemma wquiet_req_step r q res st : wquiet st (req_step r q res st).
Proof.
  unfold req_step, getServerBuild, getServerBuild_loaded.
  destruct (rpc q) as [| |s| | |]; [apply wquiet_after_hold|..];
    try apply wquiet_refl.
  - destruct res as [v|]; [|wq_same].
    destruct (activeVite st) as [s|]; [|wq_same]. st_simpl.
    destruct (serverBuildCache st !! s) as [b|].
    + wq_direct [EBind r s].
    + wq_direct [EBind r s; ELoad s].
  - destruct res as [build|]; [|wq_same]. wq_direct [ECacheSet s build].
  - destruct res; wq_same.
Qed.

(** A change of one connection that keeps what was delivered to it and its
    head, and does not put it back on hold. *)
Lemma BookWs_upd_conn c g st :
  BookWs st →
  (∀ k, conns st !! c = Some k →
     cinbox (g k) = cinbox k ∧ chead (g k) = chead k ∧
     (cpc (g k) = cpc k ∨
      (cpc (g k) ≠ CHold ∧
       (cpc k ≠ CHold ∨ ¬ In c (map socket (pendingWsConnections st)))))) →
  BookWs (upd_conn c g st).
Proof.
  intros [H1 H2 H3 H4 H5 H6 H7 H8 H9 H10] Hg. split; st_simpl; try done.
  - intros h Hh. destruct (H1 h Hh) as (E & k & Hk & Hpc & Hi & Hd).
    split; [done|]. destruct (decide (c = socket h)) as [->|Hne].
    + destruct (Hg k Hk) as (Gi & Gd & [Gpc|(_ & [Gpc|Gq])]).
      * exists (g k). rewrite list_lookup_alter_eq, Hk. cbn.
        repeat split; congruence.
      * done.
      * destruct Gq. by apply in_map.
    + exists k. by rewrite list_lookup_alter_ne.
  - intros c'. rewrite length_alter. auto.
  - intros c' k Hk Hi. destruct (decide (c = c')) as [->|Hne].
    + rewrite list_lookup_alter_eq in Hk.
      destruct (conns st !! c') as [k0|] eqn:Hk0; [|done]. injection Hk as <-.
      destruct (Hg k0 eq_refl) as (Gi & _). apply (H6 c' k0 Hk0). congruence.
    + rewrite list_lookup_alter_ne in Hk by done. eauto.
  - intros c' k h Hk Hpc. destruct (decide (c = c')) as [->|Hne].
    + rewrite list_lookup_alter_eq in Hk.
      destruct (conns st !! c') as [k0|] eqn:Hk0; [|done]. injection Hk as <-.
      destruct (Hg k0 eq_refl) as (_ & _ & [Gpc|(Gpc & _)]); [|done].
      apply (H7 c' k0 h Hk0). congruence.
    + rewrite list_lookup_alter_ne in Hk by done. eauto.
Qed.

Lemma connects_snoc c' c h l :
  connects c' (l ++ [EConnect c h]) =
  connects c' l + (if decide (c = c') then 1 else 0).
Proof. rewrite connects_app. cbn [connects]. lia. Qed.

(** Lines 328-338, for a connection that is not in the queue. *)
Lemma BookWs_proxy c k st :
  BookWs st → conns st !! c = Some k → cpc k = CHold →
  ¬ In c (map socket (pendingWsConnections st)) →
  (In (EHoldWs c) (log st) → ∃ p, In (EResolveWs p c) (log st)) →
  BookWs (proxy c st).
Proof.
  intros HB Hk Hpc Hnq Hrel. unfold proxy.
  assert (∀ pc, pc ≠ CHold → BookWs (upd_conn c (set_cpc pc) st)) as Hupd.
  { intros pc Hne. apply BookWs_upd_conn; [done|]. intros k0 _. cbn.
    split; [done|]. split; [done|]. right. auto. }
  assert (∀ pc, pc ≠ CHold →
            BookWs (emit (EDestroy c) (upd_conn c (set_cpc pc) st))) as Hd.
  { intros pc Hne. eapply BookWs_wquiet; [by apply Hupd|by apply wquiet_emit]. }
  destruct (activeHmrPort st) as [[|n]|] eqn:Hport; [by apply Hd| |by apply Hd].
  specialize (Hupd (CConnecting (S n)) ltac:(done)).
  destruct Hupd as [H1 H2 H3 H4 H5 H6 H7 H8 H9 H10].
  st_simpl. split; st_simpl; try done.
  - intros c'. rewrite H3. split; intros [Ha Hn]; split.
    + apply in_or_app. auto.
    + intros p [Hp|[[=]|[]]]%in_app_iff. by apply (Hn p).
    + by apply in_app_iff in Ha as [Ha|[[=]|[]]].
    + intros p Hp. apply (Hn p). apply in_or_app. auto.
  - intros c' [[Hc|[[=]|[]]]%in_app_iff|[h [Hc|[[= <- _]|[]]]%in_app_iff]];
      [eauto..|].
    rewrite length_alter. by eapply lookup_lt_Some.
  - intros p c' [Hp|[[=]|[]]]%in_app_iff. apply in_or_app. eauto.
  - intros c' k' Hk' Hi. destruct (H6 c' k' Hk' Hi) as [p Hp]. exists p.
    apply in_or_app. auto.
  - intros c' k' h Hk' Hpc' [Hin|[[= -> _]|[]]]%in_app_iff; [by eapply H7|].
    rewrite list_lookup_alter_eq, Hk in Hk'. injection Hk' as <-. done.
  - intros c'. rewrite connects_snoc.
    destruct (decide (c = c')) as [<-|Hne];
      [|pose proof (bw_once _ HB c'); lia].
    rewrite connects_0; [lia|]. intros h. by eapply (bw_chold _ HB).
  - intros h Hh. destruct (H9 h Hh) as (p & s & Hs). exists p, s.
    apply in_or_app. auto.
  - intros c' h [Hc|[[= <- <-]|[]]]%in_app_iff.
    + destruct (H10 c' h Hc) as [(p & s & Hs) Hr]. split.
      * exists p, s. apply in_or_app. auto.
      * intros [Hh|[[=]|[]]]%in_app_iff. destruct (Hr Hh) as [p' Hp'].
        exists p'. apply in_or_app. auto.
    + split.
      * destruct (H9 (S n) Hport) as (p & s & Hs). exists p, s.
        apply in_or_app. auto.
      * intros [Hh|[[=]|[]]]%in_app_iff. destruct (Hrel Hh) as [p' Hp'].
        exists p'. apply in_or_app. auto.
Qed.

Lemma BookWs_new_conn h st :
  BookWs st → BookWs (set_conns (conns st ++ [mkConn h CHold false false]) st).
Proof.
  intros [H1 H2 H3 H4 H5 H6 H7 H8 H9 H10]. split; st_simpl; try done.
  - intros x Hx. destruct (H1 x Hx) as (E & k & Hk & ?). split; [done|].
    exists k. split; [|done]. by apply lookup_app_l_Some.
  - intros c Hc. rewrite length_app. cbn. specialize (H4 c Hc). lia.
  - intros c k [Hk|[_ Hk]]%lookup_app_Some; [eauto|].
    destruct (c - length (conns st)) as [|n]; [|done].
    by injection Hk as <-.
  - intros c k h' [Hk|[Hge Hk]]%lookup_app_Some; [eauto|].
    intros _ Hin. assert (c < length (conns st)); [|lia]. apply H4. eauto.
Qed.

(** Lines 316-326. *)
Lemma BookWs_onUpgrade h st : BookWs st → BookWs (onUpgrade h st).
Proof.
  intros HB. unfold onUpgrade. set (c := length (conns st)).
  set (k := mkConn h CHold false false).
  set (st0 := set_conns (conns st ++ [k]) st).
  pose proof (BookWs_new_conn h st HB) as H0. fold k in H0. fold st0 in H0.
  assert (conns st0 !! c = Some k) as Hk by (by apply list_lookup_middle).
  assert (¬ In (EHoldWs c) (log st)) as Hfresh.
  { intros Hin. assert (c < length (conns st)); [|unfold c in *; lia].
    apply (bw_fresh _ HB). auto. }
  assert (¬ In c (map socket (pendingWsConnections st))) as Hnq.
  { intros Hc. by apply (bw_queue _ HB) in Hc as [? _]. }
  destruct (restartPromise st0); [|by eapply (BookWs_proxy c k)].
  destruct H0 as [H1 H2 H3 H4 H5 H6 H7 H8 H9 H10]. split; st_simpl; try done.
  - intros x [Hx|[<-|[]]]%in_app_iff; [eauto|]. cbn. split; [done|].
    exists k. by rewrite list_lookup_middle.
  - rewrite map_app. apply NoDup_app. split; [done|].
    split; [|apply NoDup_singleton].
    intros x Hx [->|[]%elem_of_nil]%elem_of_cons.
    by apply Hnq, list_elem_of_In.
  - intros c'. rewrite map_app, in_app_iff. cbn. split.
    + intros [Hc'|[<-|[]]].
      * apply H3 in Hc' as [Ha Hn]. split; [apply in_or_app; auto|].
        intros p [Hp|[[=]|[]]]%in_app_iff. by apply (Hn p).
      * split; [apply in_or_app; right; by left|].
        intros p [Hp|[[=]|[]]]%in_app_iff. by apply Hfresh, (H5 p).
    + intros [[Ha|[[= ->]|[]]]%in_app_iff Hn]; [|auto].
      left. apply H3. split; [done|]. intros p Hp. apply (Hn p).
      apply in_or_app. auto.
  - intros c' [[Hc|[[= <-]|[]]]%in_app_iff|[h' [Hc|[[=]|[]]]%in_app_iff]];
      [eauto| |eauto].
    by eapply lookup_lt_Some.
  - intros p c' [Hp|[[=]|[]]]%in_app_iff. apply in_or_app. eauto.
  - intros c' k' Hk' Hi. destruct (H6 c' k' Hk' Hi) as [p Hp]. exists p.
    apply in_or_app. auto.
  - intros c' k' h' Hk' Hpc' [Hin|[[=]|[]]]%in_app_iff. by eapply H7.
  - intros c'. rewrite connects_app. cbn. pose proof (bw_once _ HB c'). lia.
  - intros h' Hh. destruct (H9 h' Hh) as (p & s & Hs). exists p, s.
    apply in_or_app. auto.
  - intros c' h' [Hc|[[=]|[]]]%in_app_iff.
    destruct (H10 c' h' Hc) as [(p & s & Hs) Hr]. split.
    + exists p, s. apply in_or_app. auto.
    + intros [Hh|[[= <-]|[]]]%in_app_iff.
      * destruct (Hr Hh) as [p' Hp']. exists p'. apply in_or_app. auto.
      * assert (c < length (conns st)); [|unfold c in *; lia].
        apply (bw_fresh _ HB). eauto.
Qed.

Lemma mark_conns_cons l c cs :
  mark_conns l (c :: cs) = mark_conns (alter (set_cinbox true) c l) cs.
Proof. done. Qed.

Lemma mark_conns_out cs l i :
  ¬ In i cs → mark_conns l cs !! i = l !! i.
Proof.
  revert l. induction cs as [|c cs IH]; intros l Hi; [done|].
  rewrite mark_conns_cons, IH.
  - rewrite list_lookup_alter_ne; [done|]. intros ->. apply Hi. by left.
  - intros ?. apply Hi. by right.
Qed.

Lemma mark_conns_lookup cs l i k' :
  mark_conns l cs !! i = Some k' →
  ∃ k, l !! i = Some k ∧ cpc k' = cpc k ∧ chead k' = chead k ∧
       (cinbox k' = cinbox k ∨ In i cs).
Proof.
  revert l. induction cs as [|c cs IH]; intros l; [by eauto 6|].
  rewrite mark_conns_cons. intros Hk'.
  destruct (IH _ Hk') as (k & Hk & Hpc & Hd & Hi).
  destruct (decide (c = i)) as [->|Hne].
  - rewrite list_lookup_alter_eq in Hk.
    destruct (l !! i) as [k0|]; [|done]. injection Hk as <-.
    exists k0. repeat split; try done. right. by left.
  - rewrite list_lookup_alter_ne in Hk by done. exists k.
    repeat split; try done. destruct Hi; [by left|right; by right].
Qed.

Lemma length_mark_conns cs l : length (mark_conns l cs) = length l.
Proof.
  revert l. induction cs as [|c cs IH]; intros l; [done|].
  by rewrite mark_conns_cons, IH, length_alter.
Qed.

(** Lines 239-244. *)
Lemma BookWs_flush_ws p st : BookWs st → BookWs (flush_ws p st).
Proof.
  intros [H1 H2 H3 H4 H5 H6 H7 H8 H9 H10]. rewrite flush_ws_eq.
  set (ws := pendingWsConnections st).
  assert (∀ x, In x (map (λ h, EResolveWs p (socket h)) ws) ↔
               ∃ c, x = EResolveWs p c ∧ In c (map socket ws)) as Hnew.
  { intros x. rewrite in_map_iff. split.
    - intros (h & <- & Hh). exists (socket h). split; [done|]. by apply in_map.
    - intros (c & -> & (h & <- & Hh)%in_map_iff). eauto. }
  split; st_simpl.
  - by intros h [].
  - apply NoDup_nil_2.
  - intros c. split; [by intros []|]. intros [Ha Hn].
    apply in_app_iff in Ha as [Ha|Ha];
      [|by apply Hnew in Ha as (? & [=] & _)].
    assert (In c (map socket ws)) as Hc.
    { apply H3. split; [done|]. intros p' Hp'. apply (Hn p').
      apply in_or_app. auto. }
    apply (Hn p). apply in_or_app. right. apply Hnew. eauto.
  - rewrite length_mark_conns. intros c [Hc|[h Hc]].
    + apply in_app_iff in Hc as [Hc|Hc]; [auto|].
      by apply Hnew in Hc as (? & [=] & _).
    + apply in_app_iff in Hc as [Hc|Hc]; [eauto|].
      by apply Hnew in Hc as (? & [=] & _).
  - intros p' c [Hp|Hp]%in_app_iff.
    + apply in_or_app. eauto.
    + apply Hnew in Hp as (c' & [= _ ->] & Hc). apply H3 in Hc as [Ha _].
      apply in_or_app. auto.
  - intros c k' Hk' Hi.
    destruct (mark_conns_lookup _ _ _ _ Hk') as (k & Hk & _ & _ & [E|Hin]).
    + destruct (H6 c k Hk) as [p' Hp']; [congruence|]. exists p'.
      apply in_or_app. auto.
    + exists p. apply in_or_app. right. apply Hnew. exists c. split; [done|].
      apply in_map_iff in Hin as (h & <- & Hh).
      destruct (H1 h Hh) as [-> _]. by apply in_map.
  - intros c k' h Hk' Hpc [Hin|Hin]%in_app_iff;
      [|by apply Hnew in Hin as (? & [=] & _)].
    destruct (mark_conns_lookup _ _ _ _ Hk') as (k & Hk & Epc & _).
    apply (H7 c k h Hk); [congruence|done].
  - intros c. rewrite connects_app. specialize (H8 c).
    rewrite (connects_0 c (map _ ws)); [lia|].
    intros h Hin. by apply Hnew in Hin as (? & [=] & _).
  - intros h Hh. destruct (H9 h Hh) as (p' & s & Hs). exists p', s.
    apply in_or_app. auto.
  - intros c h [Hc|Hc]%in_app_iff; [|by apply Hnew in Hc as (? & [=] & _)].
    destruct (H10 c h Hc) as [(p' & s & Hs) Hr]. split.
    + exists p', s. apply in_or_app. auto.
    + intros [Hh|Hh]%in_app_iff; [|by apply Hnew in Hh as (? & [=] & _)].
      destruct (Hr Hh) as [p'' Hp'']. exists p''. apply in_or_app. auto.
Qed.

Lemma wquiet_swap_step p f ws res st :
  (∀ n b, spc f = AwaitBuild n → res ≠ ROk b) →
  wquiet st (swap_step p f ws res st).
Proof.
  intros Hnb. unfold swap_step, getServerBuild, getServerBuild_loaded.
  destruct (spc f) as [| |hmrPort|n|n|].
  - wq_direct [EGetPort p].
  - destruct res; [|apply wquiet_reject]. wq_direct [ECreateServer p v].
  - destruct res as [v|]; [|apply wquiet_reject]. st_simpl.
    destruct (serverBuildCache st !! S (serverIdCounter st)).
    + split; st_simpl; try reflexivity.
      * intros h [= <-]. right. eexists _, _. apply in_or_app. right. by left.
      * exists [EServerStarted p (S (serverIdCounter st)) hmrPort].
        split; [done|by repeat constructor].
    + split; st_simpl; try reflexivity.
      * intros h [= <-]. right. eexists _, _. apply in_or_app. left.
        apply in_or_app. right. by left.
      * exists [EServerStarted p (S (serverIdCounter st)) hmrPort;
                ELoad (S (serverIdCounter st))].
        split; [by rewrite <- app_assoc|by repeat constructor].
  - destruct res as [build|]; [wq_direct [ECacheSet n build]|wq_same].
  - destruct res as [b|]; [by destruct (Hnb n b)|apply wquiet_reject].
  - eapply wquiet_trans; [|apply wquiet_fulfil]. wq_same.
Qed.

Lemma BookWs_swap_step p f ws res st :
  BookWs st → BookWs (swap_step p f ws res st).
Proof.
  intros HB.
  destruct (spc f) as [| |hmrPort|n|n|] eqn:Hpc;
    try (eapply BookWs_wquiet; [exact HB|];
         apply wquiet_swap_step; intros ? ? ?; congruence).
  destruct res as [b|];
    [|eapply BookWs_wquiet; [exact HB|];
      apply wquiet_swap_step; intros ? ? ?; congruence].
  unfold swap_step. rewrite Hpc.
  set (st1 := flush_ws p (flush_http p st)).
  assert (BookWs st1) as H1.
  { apply BookWs_flush_ws. eapply BookWs_wquiet; [exact HB|].
    apply wquiet_flush_http. }
  destruct (oldServer f) as [o|].
  - eapply BookWs_wquiet; [exact H1|]. wq_direct [ECacheDelete o; EClose p o].
  - eapply BookWs_wquiet; [exact H1|].
    eapply wquiet_trans; [|apply wquiet_fulfil]. wq_same.
Qed.

Lemma BookWs_step i st st' : BookWs st → step i st = Some st' → BookWs st'.
Proof.
  intros HB. destruct i as [|u|h|p res|r res|c|c|c]; cbn [step].
  - destruct (microtasks st) as [|j l]; [done|]. intros [= <-].
    assert (BookWs (set_microtasks l st)) as HB'.
    { eapply BookWs_wquiet; [exact HB|]. wq_same. }
    destruct j as [p|r|c]; cbn.
    + destruct (promises st !! p) as [[f ws| |]|]; try done.
      destruct (sinbox f) as [res|]; [|done]. by apply BookWs_swap_step.
    + destruct (requests st !! r) as [q|]; [|done].
      destruct (rinbox q); [|done].
      eapply BookWs_wquiet; [exact HB'|apply wquiet_req_step].
    + destruct (conns st !! c) as [k|] eqn:Hk; [|done].
      destruct (cpc k) eqn:Hpc; try done. destruct (cinbox k) eqn:Hin; [|done].
      eapply (BookWs_proxy c k); [done..| |].
      * st_simpl. intros (h & <- & Hh)%in_map_iff.
        destruct (bw_held _ HB h Hh) as (_ & k' & Hk' & _ & Hi & _).
        congruence.
      * intros _. by eapply (bw_inbox _ HB).
  - destruct (microtasks st); [|done]. intros [= <-].
    eapply BookWs_wquiet; [exact HB|apply wquiet_onRequest].
  - destruct (microtasks st); [|done]. intros [= <-]. by apply BookWs_onUpgrade.
  - destruct (promises st !! p) as [[f ws| |]|]; try done.
    destruct (awaits_io f); [|done]. intros [= <-].
    eapply BookWs_wquiet; [exact HB|]. wq_same.
  - destruct (requests st !! r) as [q|]; [|done].
    destruct (rpc q), (rinbox q); try done. intros [= <-].
    eapply BookWs_wquiet; [exact HB|apply wquiet_deliver_req].
  - destruct (microtasks st); [|done].
    destruct (conns st !! c) as [k|] eqn:Hk; [|done].
    destruct (cclosed k); [done|]. intros [= <-]. unfold onClientClose.
    assert (BookWs (emit (EClientClose c) (upd_conn c (set_cclosed true) st))).
    { eapply BookWs_wquiet; [|by apply wquiet_emit].
      apply BookWs_upd_conn; [done|]. intros k0 _. cbn. auto. }
    destruct (cpc k); try done;
      (eapply BookWs_wquiet; [eassumption|by apply wquiet_emit]).
  - destruct (microtasks st); [|done].
    destruct (conns st !! c) as [k|] eqn:Hk; [|done].
    destruct (cpc k) eqn:Hpc; try done. intros [= <-].
    eapply BookWs_wquiet; [|by apply wquiet_emit].
    apply BookWs_upd_conn; [done|]. intros k0. rewrite Hk. intros [= <-]. cbn.
    split; [done|]. split; [done|]. right. split; [done|]. left. by rewrite Hpc.
  - destruct (microtasks st); [|done].
    destruct (conns st !! c) as [k|] eqn:Hk; [|done].
    destruct (cpc k) eqn:Hpc; try done; intros [= <-];
      (eapply BookWs_wquiet; [|by apply wquiet_emit];
       apply BookWs_upd_conn; [done|]; intros k0; rewrite Hk; intros [= <-]; cbn;
       split; [done|]; split; [done|]; right; split; [done|]; left;
       by rewrite Hpc).
Qed.

Lemma BookWs_init : BookWs init.
Proof.
  split; cbn; try done.
  - apply NoDup_nil_2.
  - intros c. split; [done|]. by intros [[] _].
  - by intros c [[]|[h []]].
  - lia.
Qed.

Lemma run_BookWs_from tr st st' :
  BookWs st → run tr st = Some st' → BookWs st'.
Proof.
  revert st. induction tr as [|i tr IH]; intros st HB; cbn.
  - by intros [= <-].
  - destruct (step i st) as [st1|] eqn:Hs; [|done].
    apply IH. by eapply BookWs_step.
Qed.

Lemma run_BookWs tr st : run tr init = Some st → BookWs st.
Proof. apply run_BookWs_from, BookWs_init. Qed.

(** X8.  [pendingWsConnections] holds, without repetition, exactly the
    upgrade connections that were put on hold (line 323) and whose
    [resolve] has not been called yet.  Every entry belongs to a connection
    that is still suspended at the hold, and it keeps the socket and the
    [head] buffer the upgrade request arrived with. *)
Theorem ws_queue_is_exact tr st :
  run tr init = Some st →
  NoDup (map socket (pendingWsConnections st)) ∧
  (∀ c, In c (map socket (pendingWsConnections st)) ↔
        In (EHoldWs c) (log st) ∧ ∀ p, ¬ In (EResolveWs p c) (log st)) ∧
  (∀ h, In h (pendingWsConnections st) →
        resolve h = socket h ∧
        ∃ k, conns st !! socket h = Some k ∧ cpc k = CHold ∧
             chead k = head h).
Proof.
  intros Hrun. pose proof (run_BookWs _ _ Hrun) as HB.
  split; [apply (bw_nodup _ HB)|]. split; [apply (bw_queue _ HB)|].
  intros h Hh. destruct (bw_held _ HB h Hh) as (E & k & Hk & Hpc & _ & Hd).
  split; [done|]. by exists k.
Qed.

Lemma ws_queue_is_exact_witness :
  NoDup (map socket (pendingWsConnections (state_after second_swap_loaded))) ∧
  (∀ c, In c (map socket (pendingWsConnections (state_after second_swap_loaded))) ↔
        In (EHoldWs c) (log (state_after second_swap_loaded)) ∧
        ∀ p, ¬ In (EResolveWs p c) (log (state_after second_swap_loaded))) ∧
  (∀ h, In h (pendingWsConnections (state_after second_swap_loaded)) →
        resolve h = socket h ∧
        ∃ k, conns (state_after second_swap_loaded) !! socket h = Some k ∧
             cpc k = CHold ∧ chead k = head h).
Proof.
  apply (ws_queue_is_exact second_swap_loaded (state_after second_swap_loaded)).
  vm_compute. reflexivity.
Defined.

(** X9.  The proxy calls [net.connect] at most once for a connection, and
    only with a port that [getPort] returned for a server that was
    started; for a connection that was held the connect is made only once
    its [resolve] has been called. *)
Theorem proxy_connects_once tr st c :
  run tr init = Some st →
  connects c (log st) ≤ 1 ∧
  ∀ h, In (EConnect c h) (log st) →
       (∃ p s, In (EServerStarted p s h) (log st)) ∧
       (In (EHoldWs c) (log st) → ∃ p, In (EResolveWs p c) (log st)).
Proof.
  intros Hrun. pose proof (run_BookWs _ _ Hrun) as HB.
  split; [apply (bw_once _ HB)|]. intros h. apply (bw_connected _ HB).
Qed.

Lemma proxy_connects_once_witness :
  connects 0 (log (state_after second_swap)) ≤ 1 ∧
  ∀ h, In (EConnect 0 h) (log (state_after second_swap)) →
       (∃ p s, In (EServerStarted p s h) (log (state_after second_swap))) ∧
       (In (EHoldWs 0) (log (state_after second_swap)) →
        ∃ p, In (EResolveWs p 0) (log (state_after second_swap))).
Proof.
  apply (proxy_connects_once second_swap (state_after second_swap) 0).
  vm_compute. reflexivity.
Defined.

End HoldDrain.

(** * The waterfall version (lines 1-137)

    [restartVite] has no guard here: every call runs the async body.  The
    server is started at module load, before the first request; the hook
    restarts it on a request for [/] and on the twentieth request of a
    waterfall, and decides per request whether to use the server captured
    on entry or the one found after the restart. *)
Module Waterfall.

Inductive WRes :=
| WPair (port hmrPort : Port)   (* Promise.all([getPort(), getPort()]) *)
| WOk (v : nat)
| WErr.

(** Suspension points of [restartVite] (lines 38-62). *)
Inductive RestartPc :=
| AwaitPorts                         (* line 39 *)
| AwaitCreate (port hmrPort : Port)  (* line 46 *)
| AwaitLoad (newServer : Server)     (* line 61, inside getServerBuild at line 31 *)
| AwaitBuild (newServer : Server).   (* line 61 *)

Record Frame := mkFrame { fpc : RestartPc; finbox : option WRes }.

Inductive Waiter := ForMain | ForReq (r : ReqId).

Inductive PState :=
| Pending (f : Frame) (waiters : list Waiter)
| Fulfilled
| Rejected.

(** Suspension points of the hook (lines 67-125). *)
Inductive ReqPc :=
| AtStat                  (* line 79: await fs.stat(..).then(..).catch(..) *)
| AtRmdir                 (* line 84 *)
| AtRestart               (* line 87: await restartVite() *)
| AtSlashLoad (s : Server)(* line 93, inside getServerBuild *)
| AtSlashBuild            (* line 93 *)
| AtRestarting            (* line 115: await restarting *)
| AtLoad (s : Server)     (* lines 117 and 122, inside getServerBuild *)
| AtBuild                 (* lines 117 and 122 *)
| Done
| Thrown.

Record Request := mkRequest {
  url : string;
  capturedViteServer : option Server;
  restartWasAlreadyInProgress : bool;
  myWaterfallPosition : nat;
  viteServer : option Server;
  serverBuild : option Build;
  qpc : ReqPc;
  qinbox : option WRes
}.

(** The module body: [await restartVite()], then [fastify.listen]. *)
Inductive MainPc := NotStarted | Starting | Listening | Crashed.

Inductive Job := JRestart (p : PromiseId) | JReq (r : ReqId) | JMain (ok : bool).

Definition waterfallRestartOn : nat := 20.

Record St := mkSt {
  vite_server : option Server;
  serverBuildCache : gmap Server Build;
  serverIdCounter : nat;
  serverIdMap : gmap Server nat;
  restarting : option PromiseId;
  waterfallCounter : nat;
  main : MainPc;
  promises : list PState;
  requests : list Request;
  microtasks : list Job
}.

Definition init : St := {|
  vite_server := None;
  serverBuildCache := ∅;
  serverIdCounter := 0;
  serverIdMap := ∅;
  restarting := None;
  waterfallCounter := 0;
  main := NotStarted;
  promises := [];
  requests := [];
  microtasks := []
|}.

Definition set_vite_server v st :=
  mkSt v (serverBuildCache st) (serverIdCounter st) (serverIdMap st)
    (restarting st) (waterfallCounter st) (main st) (promises st)
    (requests st) (microtasks st).
Definition set_serverBuildCache v st :=
  mkSt (vite_server st) v (serverIdCounter st) (serverIdMap st)
    (restarting st) (waterfallCounter st) (main st) (promises st)
    (requests st) (microtasks st).
Definition set_serverIdCounter v st :=
  mkSt (vite_server st) (serverBuildCache st) v (serverIdMap st)
    (restarting st) (waterfallCounter st) (main st) (promises st)
    (requests st) (microtasks st).
Definition set_serverIdMap v st :=
  mkSt (vite_server st) (serverBuildCache st) (serverIdCounter st) v
    (restarting st) (waterfallCounter st) (main st) (promises st)
    (requests st) (microtasks st).
Definition set_restarting v st :=
  mkSt (vite_server st) (serverBuildCache st) (serverIdCounter st)
    (serverIdMap st) v (waterfallCounter st) (main st) (promises st)
    (requests st) (microtasks st).
Definition set_waterfallCounter v st :=
  mkSt (vite_server st) (serverBuildCache st) (serverIdCounter st)
    (serverIdMap st) (restarting st) v (main st) (promises st)
    (requests st) (microtasks st).
Definition set_main v st :=
  mkSt (vite_server st) (serverBuildCache st) (serverIdCounter st)
    (serverIdMap st) (restarting st) (waterfallCounter st) v (promises st)
    (requests st) (microtasks st).
Definition set_promises v st :=
  mkSt (vite_server st) (serverBuildCache st) (serverIdCounter st)
    (serverIdMap st) (restarting st) (waterfallCounter st) (main st) v
    (requests st) (microtasks st).
Definition set_requests v st :=
  mkSt (vite_server st) (serverBuildCache st) (serverIdCounter st)
    (serverIdMap st) (restarting st) (waterfallCounter st) (main st)
    (promises st) v (microtasks st).
Definition set_microtasks v st :=
  mkSt (vite_server st) (serverBuildCache st) (serverIdCounter st)
    (serverIdMap st) (restarting st) (waterfallCounter st) (main st)
    (promises st) (requests st) v.

Definition enqueue (j : Job) (st : St) : St :=
  set_microtasks (microtasks st ++ [j]) st.

Definition set_qpc pc (q : Request) :=
  mkRequest (url q) (capturedViteServer q) (restartWasAlreadyInProgress q)
    (myWaterfallPosition q) (viteServer q) (serverBuild q) pc None.
Definition set_qinbox i (q : Request) :=
  mkRequest (url q) (capturedViteServer q) (restartWasAlreadyInProgress q)
    (myWaterfallPosition q) (viteServer q) (serverBuild q) (qpc q) i.
Definition set_viteServer v (q : Request) :=
  mkRequest (url q) (capturedViteServer q) (restartWasAlreadyInProgress q)
    (myWaterfallPosition q) v (serverBuild q) (qpc q) (qinbox q).
Definition set_serverBuild v (q : Request) :=
  mkRequest (url q) (capturedViteServer q) (restartWasAlreadyInProgress q)
    (myWaterfallPosition q) (viteServer q) v (qpc q) (qinbox q).

Definition upd_request (r : ReqId) (g : Request → Request) (st : St) : St :=
  set_requests (alter g r (requests st)) st.

(** Settling what a request awaits. *)
Definition deliver_req (res : WRes) (r : ReqId) (st : St) : St :=
  enqueue (JReq r) (upd_request r (set_qinbox (Some res)) st).

Definition wake (ok : bool) (st : St) (w : Waiter) : St :=
  match w with
  | ForMain => enqueue (JMain ok) st
  | ForReq r => deliver_req (if ok then WOk 0 else WErr) r st
  end.

Definition settle (p : PromiseId) (ok : bool) (ws : list Waiter) (st : St) : St :=
  foldl (wake ok)
    (set_promises (<[p := if ok then Fulfilled else Rejected]> (promises st)) st) ws.

Definition await_promise (p : PromiseId) (w : Waiter) (st : St) : St :=
  match promises st !! p with
  | Some (Pending f ws) =>
      set_promises (<[p := Pending f (ws ++ [w])]> (promises st)) st
  | Some Fulfilled => wake true st w
  | Some Rejected => wake false st w
  | None => st
  end.

(** [getServerBuild] (lines 25-34), up to its [await] ... *)
Definition getServerBuild (viteServer : Server) (st : St) : option Build :=
  serverBuildCache st !! viteServer.

(** ... and after it. *)
Definition getServerBuild_loaded (viteServer : Server) (build : Build) (st : St) : St :=
  set_serverBuildCache (<[viteServer := build]> (serverBuildCache st)) st.

(** [restartVite] (lines 38-62): the call, up to the first [await]. *)
Definition restartVite (st : St) : St * PromiseId :=
  let p := length (promises st) in
  (set_promises (promises st ++ [Pending (mkFrame AwaitPorts None) []]) st, p).

Definition suspend (p : PromiseId) (pc : RestartPc) (i : option WRes)
    (ws : list Waiter) (st : St) : St :=
  set_promises (<[p := Pending (mkFrame pc i) ws]> (promises st)) st.

(** One segment of [restartVite]. *)
Definition restart_step (p : PromiseId) (f : Frame) (ws : list Waiter)
    (res : WRes) (st : St) : St :=
  match fpc f, res with
  | AwaitPorts, WPair port hmrPort =>
      suspend p (AwaitCreate port hmrPort) None ws st
  | AwaitPorts, _ => settle p false ws st
  | AwaitCreate _ _, WOk _ =>
      let newServer := S (serverIdCounter st) in
      let st1 := set_serverIdCounter (S (serverIdCounter st)) st in
      let st2 := set_serverIdMap (<[newServer := serverIdCounter st1]> (serverIdMap st1)) st1 in
      let st3 := set_vite_server (Some newServer) st2 in
      match getServerBuild newServer st3 with
      | Some b => enqueue (JRestart p) (suspend p (AwaitBuild newServer) (Some (WOk b)) ws st3)
      | None => suspend p (AwaitLoad newServer) None ws st3
      end
  | AwaitCreate _ _, _ => settle p false ws st
  | AwaitLoad newServer, WOk build =>
      enqueue (JRestart p)
        (suspend p (AwaitBuild newServer) (Some (WOk build)) ws
           (getServerBuild_loaded newServer build st))
  | AwaitLoad newServer, _ =>
      enqueue (JRestart p) (suspend p (AwaitBuild newServer) (Some WErr) ws st)
  | AwaitBuild _, WOk _ => settle p true ws st
  | AwaitBuild _, _ => settle p false ws st
  end.

(** Lines 116-117 and 121-122: bind the request to [s] and fetch its build. *)
Definition bind (r : ReqId) (s : option Server) (st : St) : St :=
  match s with
  | Some s =>
      let st1 := upd_request r (set_viteServer (Some s)) st in
      match getServerBuild s st1 with
      | Some b => deliver_req (WOk b) r (upd_request r (set_qpc AtBuild) st1)
      | None => upd_request r (set_qpc (AtLoad s)) st1
      end
  | None => upd_request r (set_qpc Thrown) st
  end.

(** Lines 92-93. *)
Definition bind_slash (r : ReqId) (st : St) : St :=
  match vite_server st with
  | Some s =>
      let st1 := upd_request r (set_viteServer (Some s)) st in
      match getServerBuild s st1 with
      | Some b => deliver_req (WOk b) r (upd_request r (set_qpc AtSlashBuild) st1)
      | None => upd_request r (set_qpc (AtSlashLoad s)) st1
      end
  | None => upd_request r (set_qpc Thrown) st
  end.

(** Lines 67-125, run when the request arrives. *)
Definition onRequest (u : string) (st : St) : St :=
  let r := length (requests st) in
  let capturedViteServer := vite_server st in
  let restartWasAlreadyInProgress :=
    match restarting st with Some _ => true | None => false end in
  if String.eqb u "/" then
    set_requests
      (requests st ++
       [mkRequest u capturedViteServer restartWasAlreadyInProgress 0
          None None AtStat None]) st
  else
    let st1 := set_waterfallCounter (S (waterfallCounter st)) st in
    let myWaterfallPosition := waterfallCounter st1 in
    let st2 :=
      set_requests
        (requests st1 ++
         [mkRequest u capturedViteServer restartWasAlreadyInProgress
            myWaterfallPosition None None AtRestarting None]) st1 in
    let st3 :=
      if myWaterfallPosition =? waterfallRestartOn
      then let '(st', p) := restartVite st2 in set_restarting (Some p) st'
      else st2 in
    let shouldUseNewServer :=
      (waterfallRestartOn <=? myWaterfallPosition) || restartWasAlreadyInProgress in
    match shouldUseNewServer, restarting st3 with
    | true, Some p => await_promise p (ForReq r) st3
    | _, _ => bind r capturedViteServer st3
    end.

(** One segment of the hook, resumed with [res]. *)
Definition req_step (r : ReqId) (q : Request) (res : WRes) (st : St) : St :=
  match qpc q, res with
  | AtStat, WOk (S _) => upd_request r (set_qpc AtRmdir) st
  | AtStat, _ =>
      let '(st1, p) := restartVite st in
      await_promise p (ForReq r) (upd_request r (set_qpc AtRestart) st1)
  | AtRmdir, WOk _ =>
      let '(st1, p) := restartVite st in
      await_promise p (ForReq r) (upd_request r (set_qpc AtRestart) st1)
  | AtRmdir, _ => upd_request r (set_qpc Thrown) st
  | AtRestart, WOk _ =>
      bind_slash r (set_restarting None (set_waterfallCounter 0 st))
  | AtRestart, _ => upd_request r (set_qpc Thrown) st
  | AtSlashLoad s, WOk build =>
      deliver_req (WOk build) r
        (upd_request r (set_qpc AtSlashBuild) (getServerBuild_loaded s build st))
  | AtSlashLoad s, _ =>
      deliver_req WErr r (upd_request r (set_qpc AtSlashBuild) st)
  | AtRestarting, WOk _ => bind r (vite_server st) st
  | AtRestarting, _ => upd_request r (set_qpc Thrown) st
  | AtLoad s, WOk build =>
      deliver_req (WOk build) r
        (upd_request r (set_qpc AtBuild) (getServerBuild_loaded s build st))
  | AtLoad s, _ => deliver_req WErr r (upd_request r (set_qpc AtBuild) st)
  | AtSlashBuild, WOk b | AtBuild, WOk b =>
      upd_request r (λ q, set_qpc Done (set_serverBuild (Some b) q)) st
  | AtSlashBuild, _ | AtBuild, _ => upd_request r (set_qpc Thrown) st
  | Done, _ | Thrown, _ => st
  end.

Inductive Input :=
| Tick
| Start                                  (* the module is loaded *)
| InRequest (u : string)
| InRestartIO (p : PromiseId) (res : WRes)
| InReqIO (r : ReqId) (res : WRes).

Definition run_job (j : Job) (st : St) : St :=
  match j with
  | JRestart p =>
      match promises st !! p with
      | Some (Pending f ws) =>
          match finbox f with
          | Some res => restart_step p f ws res st
          | None => st
          end
      | _ => st
      end
  | JReq r =>
      match requests st !! r with
      | Some q =>
          match qinbox q with
          | Some res => req_step r q res st
          | None => st
          end
      | None => st
      end
  | JMain ok => set_main (if ok then Listening else Crashed) st
  end.

Definition frame_awaits_io (f : Frame) : bool :=
  match fpc f, finbox f with
  | AwaitBuild _, _ => false
  | _, None => true
  | _, Some _ => false
  end.

Definition req_awaits_io (q : Request) : bool :=
  match qpc q, qinbox q with
  | (AtStat | AtRmdir | AtSlashLoad _ | AtLoad _), None => true
  | _, _ => false
  end.

Definition step (i : Input) (st : St) : option St :=
  match i with
  | Tick =>
      match microtasks st with
      | j :: q => Some (run_job j (set_microtasks q st))
      | [] => None
      end
  | Start =>
      match main st with
      | NotStarted =>
          let '(st1, p) := restartVite st in
          Some (await_promise p ForMain (set_main Starting st1))
      | _ => None
      end
  | InRequest u =>
      match main st, microtasks st with
      | Listening, [] => Some (onRequest u st)
      | _, _ => None
      end
  | InRestartIO p res =>
      match promises st !! p with
      | Some (Pending f ws) =>
          if frame_awaits_io f
          then Some (enqueue (JRestart p) (suspend p (fpc f) (Some res) ws st))
          else None
      | _ => None
      end
  | InReqIO r res =>
      match requests st !! r with
      | Some q => if req_awaits_io q then Some (deliver_req res r st) else None
      | None => None
      end
  end.

Fixpoint run (tr : list Input) (st : St) : option St :=
  match tr with
  | [] => Some st
  | i :: tr' =>
      match step i st with
      | Some st' => run tr' st'
      | None => None
      end
  end.

Definition state_after (tr : list Input) : St := default init (run tr init).

(** The module is loaded and server 1 is started. *)
Definition boot : list Input :=
  [Start; InRestartIO 0 (WPair 4000 4001); Tick; InRestartIO 0 (WOk 0); Tick;
   InRestartIO 0 (WOk 77); Tick; Tick; Tick].


(** ** The scenario of the twentieth request *)

Section Scenario.

(** The server active at the start, and the number of runs of
    [restartVite] before the start. *)
Variables (g : Server) (P : PromiseId).

Definition bound_pc (pc : ReqPc) : Prop :=
  match pc with
  | AtLoad _ | AtBuild | Done | Thrown => True
  | _ => False
  end.

(** A request that awaits [restarting]. *)
Definition waiting (pP : option PState) (mt : list Job) (i : ReqId)
    (q : Request) : Prop :=
  (qinbox q = None ∧
   ∃ f rs, pP = Some (Pending f (map ForReq rs)) ∧ In i rs) ∨
  (qinbox q = Some (WOk 0) ∧ pP = Some Fulfilled ∧ In (JReq i) mt) ∨
  (qinbox q = Some WErr ∧ pP = Some Rejected ∧ In (JReq i) mt).

Definition req_ok (pP : option PState) (mt : list Job) (i : ReqId)
    (q : Request) : Prop :=
  (i < 19 ∧ viteServer q = Some g ∧ bound_pc (qpc q)) ∨
  (19 ≤ i ∧ viteServer q = Some (S g) ∧ bound_pc (qpc q)) ∨
  (19 ≤ i ∧ viteServer q = None ∧ qpc q = Thrown ∧ pP = Some Rejected) ∨
  (19 ≤ i ∧ viteServer q = None ∧ qpc q = AtRestarting ∧ waiting pP mt i q).

Definition phase (st : St) : Prop :=
  (waterfallCounter st < 20 ∧ restarting st = None ∧
   vite_server st = Some g ∧ serverIdCounter st = g ∧
   length (promises st) = P) ∨
  (20 ≤ waterfallCounter st ∧ restarting st = Some P ∧
   length (promises st) = S P ∧
   match promises st !! P with
   | Some (Pending f ws) =>
       (∃ rs, ws = map ForReq rs) ∧
       match fpc f with
       | AwaitPorts | AwaitCreate _ _ =>
           vite_server st = Some g ∧ serverIdCounter st = g
       | AwaitLoad n | AwaitBuild n =>
           n = S g ∧ vite_server st = Some (S g) ∧ serverIdCounter st = S g
       end
   | Some Fulfilled => vite_server st = Some (S g)
   | Some Rejected => True
   | None => False
   end).

Record WInv (st : St) : Prop := mkWInv {
  w_main : main st = Listening;
  w_nomain : ∀ ok, ¬ In (JMain ok) (microtasks st);
  w_count : length (requests st) = waterfallCounter st;
  w_settled : ∀ p f ws, promises st !! p = Some (Pending f ws) → p = P;
  w_phase : phase st;
  w_reqs : ∀ i q, requests st !! i = Some q →
                  req_ok (promises st !! P) (microtasks st) i q
}.

Definition Started (st : St) : Prop :=
  main st = Listening ∧ microtasks st = [] ∧ requests st = [] ∧
  waterfallCounter st = 0 ∧ restarting st = None ∧
  vite_server st = Some g ∧ serverIdCounter st = g ∧
  length (promises st) = P ∧
  ∀ p f ws, promises st !! p ≠ Some (Pending f ws).

Lemma Started_WInv st : Started st → WInv st.
Proof.
  intros (Hm & Hq & Hr & Hc & Hrs & Hv & Hs & Hl & Hn).
  split; try done.
  - rewrite Hq. by intros ok [].
  - by rewrite Hr, Hc.
  - intros p f ws H. by destruct (Hn p f ws).
  - left. rewrite Hc. repeat split; try done. lia.
  - rewrite Hr. by intros i q.
Qed.

(** Requests of the scenario are ordinary ones: none is for [/], and the
    module is not loaded again. *)
Definition ordinary (i : Input) : Prop :=
  match i with
  | InRequest u => String.eqb u "/" = false
  | _ => True
  end.

Definition mark (res : WRes) (l : list Request) (rs : list ReqId) : list Request :=
  foldl (λ l r, alter (set_qinbox (Some res)) r l) l rs.

Lemma mark_cons res l r rs :
  mark res l (r :: rs) = mark res (alter (set_qinbox (Some res)) r l) rs.
Proof. done. Qed.

Lemma mark_lookup_out res rs l i :
  ¬ In i rs → mark res l rs !! i = l !! i.
Proof.
  revert l. induction rs as [|r rs IH]; intros l Hi; [done|].
  rewrite mark_cons, IH.
  - rewrite list_lookup_alter_ne; [done|]. intros ->. apply Hi. by left.
  - intros ?. apply Hi. by right.
Qed.

Lemma mark_lookup_in res rs l i :
  In i rs → mark res l rs !! i = set_qinbox (Some res) <$> l !! i.
Proof.
  revert l. induction rs as [|r rs IH]; intros l; [done|].
  intros Hin. rewrite mark_cons.
  destruct (in_dec Nat.eq_dec i rs) as [Hi|Hi].
  - rewrite IH by done. destruct (decide (r = i)) as [->|Hne].
    + rewrite list_lookup_alter_eq. by destruct (l !! i).
    + by rewrite list_lookup_alter_ne.
  - destruct Hin as [->|Hin]; [|done].
    rewrite mark_lookup_out by done. apply list_lookup_alter_eq.
Qed.

Lemma wake_all ok rs s0 :
  foldl (wake ok) s0 (map ForReq rs) =
  set_microtasks (microtasks s0 ++ map JReq rs)
    (set_requests (mark (if ok then WOk 0 else WErr) (requests s0) rs) s0).
Proof.
  revert s0. induction rs as [|r rs IH]; intros s0.
  - destruct s0; cbn. by rewrite app_nil_r.
  - cbn [map foldl]. rewrite IH. destruct s0; cbn.
    by rewrite <- app_assoc.
Qed.

Lemma settle_requests p ok rs st :
  settle p ok (map ForReq rs) st =
  set_microtasks (microtasks st ++ map JReq rs)
    (set_requests (mark (if ok then WOk 0 else WErr) (requests st) rs)
       (set_promises
          (<[p := if ok then Fulfilled else Rejected]> (promises st)) st)).
Proof. unfold settle. by rewrite wake_all. Qed.

End Scenario.

Section ScenarioSteps.

Variables (g : Server) (P : PromiseId).

Lemma lookup_alter_Some {A} (h : A → A) r (l : list A) i y :
  alter h r l !! i = Some y →
  (i = r ∧ ∃ x, l !! r = Some x ∧ y = h x) ∨ (i ≠ r ∧ l !! i = Some y).
Proof.
  destruct (decide (r = i)) as [->|Hne].
  - rewrite list_lookup_alter_eq. destruct (l !! i) as [x|]; [|done].
    intros [= <-]. left. eauto.
  - rewrite list_lookup_alter_ne by done. intros. right. auto.
Qed.

Lemma req_ok_jobs pP mt mt' i q :
  (∀ j, In j mt → In j mt') → req_ok g pP mt i q → req_ok g pP mt' i q.
Proof.
  intros Hsub [H|[H|[H|(Hi & Hv & Hpc & Hw)]]]; [by left|by right; left|
    by right; right; left|].
  right; right; right. repeat split; try done.
  destruct Hw as [Hw|[(? & ? & ?)|(? & ? & ?)]]; [by left|right; left|right; right];
    auto.
Qed.

Lemma req_ok_frame f f' ws mt mt' i q :
  req_ok g (Some (Pending f ws)) mt i q →
  req_ok g (Some (Pending f' ws)) mt' i q.
Proof.
  intros [H|[H|[(_ & _ & _ & [=])|(Hi & Hv & Hpc & Hw)]]]; [by left|by right; left|].
  right; right; right. repeat split; try done.
  destruct Hw as [(Hin & f0 & rs & [= <- ->] & Hrs)|[(_ & [=] & _)|(_ & [=] & _)]].
  left. eauto.
Qed.

Lemma req_ok_inbox pP mt mt' i q x :
  req_ok g pP mt i q → qpc q ≠ AtRestarting →
  req_ok g pP mt' i (set_qinbox x q).
Proof.
  intros [H|[H|[H|(Hi & Hv & Hpc & _)]]] Hne;
    [by left|by right; left|by right; right; left|done].
Qed.

(** Waking the waiters of the settled promise. *)
Lemma req_ok_settle (ok : bool) f rs mt i q :
  req_ok g (Some (Pending f (map ForReq rs))) mt i q →
  req_ok g (Some (if ok then Fulfilled else Rejected)) (mt ++ map JReq rs) i
    (if in_dec Nat.eq_dec i rs
     then set_qinbox (Some (if ok then WOk 0 else WErr)) q else q).
Proof.
  intros H.
  destruct H as [H|[H|[(_ & _ & _ & [=])|(Hi & Hv & Hpc & Hw)]]].
  - destruct (in_dec Nat.eq_dec i rs); by left.
  - destruct (in_dec Nat.eq_dec i rs); by right; left.
  - destruct Hw as [(Hq & f0 & rs0 & [= <- Hrs] & Hi')|[(_ & [=] & _)|(_ & [=] & _)]].
    assert (rs0 = rs) as ->.
    { clear -Hrs. revert rs0 Hrs.
      induction rs as [|r rs IH]; intros [|r0 rs0]; cbn; try done.
      intros [= -> ?]. f_equal. auto. }
    destruct (in_dec Nat.eq_dec i rs); [|done].
    right; right; right. repeat split; try done.
    assert (In (JReq i) (mt ++ map JReq rs)) as Hj.
    { apply in_or_app. right. by apply in_map. }
    destruct ok; [right; left|right; right]; done.
Qed.

Lemma length_mark res l rs : length (mark res l rs) = length l.
Proof.
  revert l. induction rs as [|r rs IH]; intros l; [done|].
  by rewrite mark_cons, IH, length_alter.
Qed.

Lemma WInv_pending_phase st f ws :
  WInv g P st → promises st !! P = Some (Pending f ws) →
  20 ≤ waterfallCounter st ∧ restarting st = Some P ∧
  length (promises st) = S P ∧ (∃ rs, ws = map ForReq rs) ∧
  match fpc f with
  | AwaitPorts | AwaitCreate _ _ =>
      vite_server st = Some g ∧ serverIdCounter st = g
  | AwaitLoad n | AwaitBuild n =>
      n = S g ∧ vite_server st = Some (S g) ∧ serverIdCounter st = S g
  end.
Proof.
  intros HI Hl. destruct (w_phase _ _ _ HI) as [(_ & _ & _ & _ & Hlen)|Hb].
  - apply lookup_lt_Some in Hl. lia.
  - destruct Hb as (? & ? & ? & Hm). rewrite Hl in Hm.
    destruct Hm as [? ?]. done.
Qed.

(** The run of [restartVite] settles. *)
Lemma WInv_settle (ok : bool) f rs st :
  WInv g P st → promises st !! P = Some (Pending f (map ForReq rs)) →
  (ok = true → vite_server st = Some (S g)) →
  WInv g P (settle P ok (map ForReq rs) st).
Proof.
  intros HI Hl Hv. rewrite settle_requests.
  destruct (WInv_pending_phase _ _ _ HI Hl) as (Hc & Hr & Hlen & _ & _).
  pose proof (lookup_lt_Some _ _ _ Hl) as Hlt.
  assert (<[P := if ok then Fulfilled else Rejected]> (promises st) !! P =
          Some (if ok then Fulfilled else Rejected)) as HP
    by by apply list_lookup_insert_eq.
  destruct HI as [Hm Hnm Hcnt Hset Hph Hreq].
  split; cbn.
  - done.
  - intros b [Hin|Hin]%in_app_or; [by eapply Hnm|].
    apply in_map_iff in Hin as (? & [=] & _).
  - by rewrite length_mark.
  - intros p f' ws' [(-> & Heq & _)|(Hne & Hl')]%list_lookup_insert_Some.
    + by destruct ok.
    + destruct Hne. symmetry. eauto.
  - unfold phase; cbn. right. rewrite length_insert, HP.
    repeat split; try done. destruct ok; auto.
  - intros i q' Hq'. rewrite HP.
    destruct (in_dec Nat.eq_dec i rs) as [Hi|Hi].
    + rewrite mark_lookup_in in Hq' by done.
      destruct (requests st !! i) as [q|] eqn:Hq; [|done]. injection Hq' as <-.
      specialize (Hreq i q Hq). rewrite Hl in Hreq.
      pose proof (req_ok_settle ok f rs (microtasks st) i q Hreq) as H.
      by destruct (in_dec Nat.eq_dec i rs).
    + rewrite mark_lookup_out in Hq' by done.
      specialize (Hreq i q' Hq'). rewrite Hl in Hreq.
      pose proof (req_ok_settle ok f rs (microtasks st) i q' Hreq) as H.
      by destruct (in_dec Nat.eq_dec i rs).
Qed.

(** The frame of the run changes; its waiters stay. *)
Lemma WInv_suspend pc inb f ws (st st' : St) :
  WInv g P st → promises st !! P = Some (Pending f ws) →
  main st' = main st → (∀ j, In j (microtasks st') → In j (microtasks st) ∨ j = JRestart P) →
  (∀ j, In j (microtasks st) → In j (microtasks st')) →
  requests st' = requests st → waterfallCounter st' = waterfallCounter st →
  restarting st' = restarting st →
  promises st' = <[P := Pending (mkFrame pc inb) ws]> (promises st) →
  match pc with
  | AwaitPorts | AwaitCreate _ _ =>
      vite_server st' = Some g ∧ serverIdCounter st' = g
  | AwaitLoad n | AwaitBuild n =>
      n = S g ∧ vite_server st' = Some (S g) ∧ serverIdCounter st' = S g
  end →
  WInv g P st'.
Proof.
  intros HI Hl Em Emt Emt' Er Ew Ers Ep Hpc.
  destruct (WInv_pending_phase _ _ _ HI Hl) as (Hc & Hr & Hlen & Hws & _).
  pose proof (lookup_lt_Some _ _ _ Hl) as Hlt.
  assert (promises st' !! P = Some (Pending (mkFrame pc inb) ws)) as HP
    by (rewrite Ep; by apply list_lookup_insert_eq).
  destruct HI as [Hm Hnm Hcnt Hset Hph Hreq].
  split.
  - congruence.
  - intros b [Hin| [=]]%Emt. by eapply Hnm.
  - congruence.
  - intros p f' ws'. rewrite Ep.
    intros [(-> & _ & _)|(Hne & Hl')]%list_lookup_insert_Some; [done|eauto].
  - unfold phase. right. rewrite Ew, Ers, HP, Ep, length_insert. done.
  - intros i q. rewrite Er, HP. intros Hq.
    specialize (Hreq i q Hq). rewrite Hl in Hreq.
    by eapply req_ok_frame.
Qed.

Lemma WInv_pop j mt st :
  WInv g P st → microtasks st = j :: mt → (∀ r, j ≠ JReq r) →
  WInv g P (set_microtasks mt st).
Proof.
  intros [Hm Hnm Hcnt Hset Hph Hreq] Hmt Hj. split; try done.
  - intros b Hin. apply (Hnm b). rewrite Hmt. by right.
  - intros i q Hq. specialize (Hreq i q Hq). cbn.
    destruct Hreq as [H|[H|[H|(Hi & Hv & Hpc & Hw)]]];
      [by left|by right; left|by right; right; left|].
    right; right; right. repeat split; try done.
    rewrite Hmt in Hw.
    destruct Hw as [Hw|[(? & ? & [E|?])|(? & ? & [E|?])]];
      [by left|by destruct (Hj i)|right; left; done|
       by destruct (Hj i)|right; right; done].
Qed.

Lemma WInv_restart_step f ws res st :
  WInv g P st → promises st !! P = Some (Pending f ws) →
  WInv g P (restart_step P f ws res st).
Proof.
  intros HI Hl.
  destruct (WInv_pending_phase _ _ _ HI Hl) as (Hc & Hr & Hlen & [rs ->] & Hf).
  unfold restart_step. destruct (fpc f) as [|port hmrPort|n|n] eqn:Hpc.
  - destruct res as [port hmrPort|v|];
      [|by eapply WInv_settle..].
    eapply WInv_suspend; eauto.
  - destruct res as [port' hmrPort'|v|];
      [by eapply WInv_settle| |by eapply WInv_settle].
    destruct Hf as [Hv Hs]. unfold getServerBuild. cbn.
    match goal with
    | |- context [@lookup ?K ?A ?M ?L ?k (serverBuildCache st)] =>
        destruct (@lookup K A M L k (serverBuildCache st)) as [b|]
    end.
    + eapply (WInv_suspend (AwaitBuild (S (serverIdCounter st)))); eauto.
      * cbn. intros j [?|[<-|[]]]%in_app_or; auto.
      * cbn. intros j ?. apply in_or_app. auto.
      * cbn. by rewrite Hs.
    + eapply (WInv_suspend (AwaitLoad (S (serverIdCounter st)))); eauto.
      cbn. by rewrite Hs.
  - destruct Hf as (-> & Hv & Hs). destruct res as [port' hmrPort'|v|].
    + eapply (WInv_suspend (AwaitBuild (S g))); eauto.
      * cbn. intros j [?|[<-|[]]]%in_app_or; auto.
      * cbn. intros j ?. apply in_or_app. auto.
    + eapply (WInv_suspend (AwaitBuild (S g))); eauto.
      * cbn. intros j [?|[<-|[]]]%in_app_or; auto.
      * cbn. intros j ?. apply in_or_app. auto.
    + eapply (WInv_suspend (AwaitBuild (S g))); eauto.
      * cbn. intros j [?|[<-|[]]]%in_app_or; auto.
      * cbn. intros j ?. apply in_or_app. auto.
  - destruct Hf as (-> & Hv & Hs).
    destruct res as [port' hmrPort'|v|]; by eapply WInv_settle.
Qed.

(** Only the request [r], whose job has just been taken from the queue,
    changes. *)
Lemma WInv_req_update r q' (st st' : St) mt :
  WInv g P st → microtasks st = JReq r :: mt →
  (∀ i, i ≠ r → requests st' !! i = requests st !! i) →
  requests st' !! r = Some q' →
  length (requests st') = length (requests st) →
  main st' = main st → waterfallCounter st' = waterfallCounter st →
  restarting st' = restarting st → vite_server st' = vite_server st →
  serverIdCounter st' = serverIdCounter st → promises st' = promises st →
  (∀ j, In j mt → In j (microtasks st')) →
  (∀ b, ¬ In (JMain b) (microtasks st')) →
  req_ok g (promises st !! P) (microtasks st') r q' →
  WInv g P st'.
Proof.
  intros [Hm Hnm Hcnt Hset Hph Hreq] Hmt Hne Hr Hlen Em Ew Ers Ev Es Ep Hsub Hnm' Hok.
  split.
  - congruence.
  - done.
  - congruence.
  - intros p f ws. rewrite Ep. eauto.
  - unfold phase in *. by rewrite Ew, Ers, Ev, Es, Ep.
  - intros i q. rewrite Ep. destruct (decide (i = r)) as [->|Hi].
    + rewrite Hr. by intros [= <-].
    + rewrite Hne by done. intros Hq. specialize (Hreq i q Hq).
      destruct Hreq as [H|[H|[H|(Hi' & Hv & Hpc & Hw)]]];
        [by left|by right; left|by right; right; left|].
      right; right; right. repeat split; try done.
      rewrite Hmt in Hw.
      destruct Hw as [Hw|[(? & ? & [[= E]|?])|(? & ? & [[= E]|?])]];
        [by left|done|right; left; auto|done|right; right; auto].
Qed.

Lemma alter3_lookup {A} (h1 h2 h3 : A → A) r (l : list A) x :
  l !! r = Some x →
  alter h3 r (alter h2 r (alter h1 r l)) !! r = Some (h3 (h2 (h1 x))).
Proof. intros H. by rewrite !list_lookup_alter_eq, H. Qed.

Lemma alter2_lookup {A} (h1 h2 : A → A) r (l : list A) x :
  l !! r = Some x →
  alter h2 r (alter h1 r l) !! r = Some (h2 (h1 x)).
Proof. intros H. by rewrite !list_lookup_alter_eq, H. Qed.

Lemma alter1_lookup {A} (h1 : A → A) r (l : list A) x :
  l !! r = Some x → alter h1 r l !! r = Some (h1 x).
Proof. intros H. by rewrite !list_lookup_alter_eq, H. Qed.

Ltac req_update r mt :=
  eapply (WInv_req_update r _ _ _ mt);
  [eassumption|eassumption
  |intros ? ?; cbn; by rewrite ?list_lookup_alter_ne by done
  |cbn; first [by apply alter3_lookup|by apply alter2_lookup
              |by apply alter1_lookup]
  |cbn; by rewrite ?length_alter
  |done|done|done|done|done|done
  |cbn; intros ? ?; rewrite ?in_app_iff; auto
  |let HJ := fresh "HJ" in
   cbn; intros ? HJ; rewrite ?in_app_iff in HJ;
   repeat (destruct HJ as [HJ|HJ]; try discriminate HJ;
           try (cbn in HJ; destruct HJ as [HJ|HJ]));
   try done;
   match goal with H : ∀ b, ¬ In (JMain b) _ |- _ => eapply H; eassumption end
  |].

Lemma WInv_pop_req r mt st :
  WInv g P st → microtasks st = JReq r :: mt →
  (∀ q, requests st !! r = Some q → qpc q = AtRestarting → qinbox q = None) →
  WInv g P (set_microtasks mt st).
Proof.
  intros [Hm Hnm0 Hcnt Hset Hph Hreq] Hmt Hr. split; try done.
  - intros b Hin. apply (Hnm0 b). rewrite Hmt. by right.
  - intros i q Hi. cbn in Hi. specialize (Hreq i q Hi). cbn.
    destruct Hreq as [H|[H|[H|(Hi' & Hv & Hpc & Hw)]]];
      [by left|by right; left|by right; right; left|].
    right; right; right. repeat split; try done.
    rewrite Hmt in Hw.
    destruct Hw as [Hw|[(E1 & ? & [[= E]|?])|(E1 & ? & [[= E]|?])]];
      [by left| |right; left; auto| |right; right; auto];
      subst i; rewrite (Hr q Hi Hpc) in E1; discriminate E1.
Qed.

Lemma WInv_req_job r mt st :
  WInv g P st → microtasks st = JReq r :: mt →
  WInv g P (run_job (JReq r) (set_microtasks mt st)).
Proof.
  intros HI Hmt. cbn.
  assert (∀ b, ¬ In (JMain b) mt) as Hnm.
  { intros b Hin. apply (w_nomain _ _ _ HI b). rewrite Hmt. by right. }
  destruct (requests st !! r) as [q|] eqn:Hq.
  2: { eapply WInv_pop_req; [done..|]. intros q. by rewrite Hq. }
  pose proof (w_reqs _ _ _ HI r q Hq) as Hok.
  destruct (qinbox q) as [res|] eqn:Hbox.
  2: { eapply WInv_pop_req; [done..|]. intros q0. rewrite Hq. by intros [= <-]. }
  assert (WInv g P (set_microtasks mt st) ∨ qpc q = AtRestarting) as Hpop.
  { destruct (qpc q) eqn:Hne; try (by right); left;
      (eapply WInv_pop_req; [done..|]; intros q0; rewrite Hq;
       intros [= <-]; congruence). }
  unfold req_step.
  destruct Hok as [(Hi & Hv & Hb)|[(Hi & Hv & Hb)|[(Hi & Hv & Hpc & HP)|
                  (Hi & Hv & Hpc & Hw)]]].
  - destruct (qpc q) eqn:Hpc; try done.
    + destruct res as [??|build|];
        (req_update r mt; left; by repeat split).
    + destruct res as [??|build|];
        (req_update r mt; left; by repeat split).
    + destruct Hpop as [Hpop|?]; [|done]. by destruct res.
    + destruct Hpop as [Hpop|?]; [|done]. by destruct res.
  - destruct (qpc q) eqn:Hpc; try done.
    + destruct res as [??|build|];
        (req_update r mt; right; left; by repeat split).
    + destruct res as [??|build|];
        (req_update r mt; right; left; by repeat split).
    + destruct Hpop as [Hpop|?]; [|done]. by destruct res.
    + destruct Hpop as [Hpop|?]; [|done]. by destruct res.
  - rewrite Hpc. destruct Hpop as [Hpop|?]; [|congruence]. by destruct res.
  - rewrite Hpc.
    destruct Hw as [(E & _)|[(E & HP & _)|(E & HP & _)]]; [congruence| |].
    + assert (res = WOk 0) as -> by congruence.
      assert (vite_server st = Some (S g)) as Hvs.
      { destruct (w_phase _ _ _ HI) as [(_ & _ & _ & _ & Hl)|(_ & _ & _ & Hp)].
        - apply lookup_lt_Some in HP. lia.
        - by rewrite HP in Hp. }
      change (vite_server (set_microtasks mt st)) with (vite_server st).
      rewrite Hvs. unfold bind, getServerBuild. cbn [upd_request serverBuildCache set_requests set_microtasks].
      destruct (serverBuildCache st !! S g) as [b|];
        (req_update r mt; right; left; by repeat split).
    + assert (res = WErr) as -> by congruence.
      req_update r mt. right; right; left. by repeat split.
Qed.

(** The three shapes of the hook's first segment for an ordinary request. *)
Definition arrival (u : string) (st : St) : St :=
  set_requests
    (requests st ++
     [mkRequest u (vite_server st)
        (match restarting st with Some _ => true | None => false end)
        (S (waterfallCounter st)) None None AtRestarting None])
    (set_waterfallCounter (S (waterfallCounter st)) st).

Lemma onRequest_early u st :
  String.eqb u "/" = false → restarting st = None →
  S (waterfallCounter st) < 20 →
  onRequest u st = bind (length (requests st)) (vite_server st) (arrival u st).
Proof.
  intros Hu Hr Hc. unfold onRequest. rewrite Hu.
  cbn [waterfallCounter set_waterfallCounter requests restarting vite_server
       set_requests].
  rewrite Hr.
  replace (S (waterfallCounter st) =? waterfallRestartOn) with false
    by (symmetry; apply Nat.eqb_neq; unfold waterfallRestartOn; lia).
  replace (waterfallRestartOn <=? S (waterfallCounter st)) with false
    by (symmetry; apply Nat.leb_gt; unfold waterfallRestartOn; lia).
  cbn [orb]. unfold arrival. by rewrite Hr.
Qed.

Lemma onRequest_twentieth u st :
  String.eqb u "/" = false →
  S (waterfallCounter st) = 20 →
  onRequest u st =
  await_promise (length (promises st)) (ForReq (length (requests st)))
    (set_restarting (Some (length (promises st)))
       (restartVite (arrival u st)).1).
Proof.
  intros Hu Hc. unfold onRequest. rewrite Hu.
  cbn [waterfallCounter set_waterfallCounter requests restarting vite_server
       set_requests].
  rewrite Hc. change (20 =? waterfallRestartOn) with true.
  change (waterfallRestartOn <=? 20) with true.
  cbn. unfold arrival. by rewrite Hc.
Qed.

Lemma onRequest_late u p st :
  String.eqb u "/" = false → restarting st = Some p →
  20 < S (waterfallCounter st) →
  onRequest u st = await_promise p (ForReq (length (requests st))) (arrival u st).
Proof.
  intros Hu Hr Hc. unfold onRequest. rewrite Hu.
  cbn [waterfallCounter set_waterfallCounter requests restarting vite_server
       set_requests].
  rewrite Hr.
  replace (S (waterfallCounter st) =? waterfallRestartOn) with false
    by (symmetry; apply Nat.eqb_neq; unfold waterfallRestartOn; lia).
  rewrite orb_true_r.
  cbn [restarting set_requests set_waterfallCounter]. rewrite Hr.
  unfold arrival. by rewrite Hr.
Qed.

Lemma WInv_new_request q' (st st' : St) :
  WInv g P st → microtasks st = [] →
  (∀ i, i < length (requests st) → requests st' !! i = requests st !! i) →
  requests st' !! length (requests st) = Some q' →
  length (requests st') = S (length (requests st)) →
  main st' = main st → waterfallCounter st' = S (waterfallCounter st) →
  (∀ p f ws, promises st' !! p = Some (Pending f ws) → p = P) →
  phase g P st' →
  (∀ b, ¬ In (JMain b) (microtasks st')) →
  (∀ i q, req_ok g (promises st !! P) [] i q →
          req_ok g (promises st' !! P) (microtasks st') i q) →
  req_ok g (promises st' !! P) (microtasks st') (length (requests st)) q' →
  WInv g P st'.
Proof.
  intros [Hm Hnm Hcnt Hset Hph Hreq] Hmt Hlt Hnew Hlen Em Ew Hset' Hph' Hnm'
    Hold Hq'.
  split; try done.
  - congruence.
  - congruence.
  - intros i q Hi.
    assert (i < S (length (requests st))) as Hb.
    { rewrite <- Hlen. by eapply lookup_lt_Some. }
    destruct (decide (i = length (requests st))) as [->|Hne].
    + rewrite Hnew in Hi. by injection Hi as <-.
    + rewrite Hlt in Hi by lia. apply Hold. rewrite <- Hmt. by apply Hreq.
Qed.

Lemma req_ok_early pP mt i q :
  req_ok g None [] i q → req_ok g pP mt i q.
Proof.
  intros [H|[H|[(_ & _ & _ & [=])|(_ & _ & _ & Hw)]]]; [by left|by right; left|].
  by destruct Hw as [(_ & ? & ? & [=] & _)|[(_ & [=] & _)|(_ & [=] & _)]].
Qed.

Lemma WInv_onRequest u st :
  WInv g P st → microtasks st = [] → String.eqb u "/" = false →
  WInv g P (onRequest u st).
Proof.
  intros HI Hmt Hu.
  pose proof (w_count _ _ _ HI) as Hcnt.
  destruct (w_phase _ _ _ HI) as [(Hc & Hrs & Hv & Hs & Hl)|(Hc & Hrs & Hl & Hp)].
  - assert (promises st !! P = None) as HP.
    { apply lookup_ge_None. lia. }
    destruct (decide (S (waterfallCounter st) = 20)) as [E|E].
    + rewrite onRequest_twentieth by done.
      unfold await_promise, restartVite.
      cbn [fst promises set_promises set_restarting arrival set_requests
           set_waterfallCounter].
      rewrite list_lookup_middle by done. rewrite Hl.
      assert (∀ x : PState,
        <[P := x]> (promises st ++ [Pending (mkFrame AwaitPorts None) []]) !! P
        = Some x) as Hins.
      { intros x. apply list_lookup_insert_eq. rewrite length_app. cbn. lia. }
      eapply (WInv_new_request _ st); [done|done| | | |done|done| | | | |].
      * intros i Hi. cbn. by rewrite lookup_app_l.
      * cbn. by rewrite list_lookup_middle.
      * cbn. rewrite length_app. cbn. lia.
      * intros p f ws. cbn. intros Hp.
        destruct (decide (p = P)) as [|Hne]; [done|].
        rewrite list_lookup_insert_ne in Hp by done.
        apply lookup_app_Some in Hp as [Hp|[Hge Hp]].
        -- by apply (w_settled _ _ _ HI) in Hp.
        -- apply lookup_lt_Some in Hp. cbn in Hp. lia.
      * right. cbn [waterfallCounter restarting promises set_promises
                    set_restarting set_requests set_waterfallCounter
                    vite_server serverIdCounter].
        rewrite Hins. cbn. rewrite length_insert, length_app. cbn.
        repeat split; try done; try lia. by exists [length (requests st)].
      * cbn. rewrite Hmt. by intros ? [].
      * intros i q. cbn [promises set_promises set_restarting set_requests
                         set_waterfallCounter microtasks].
        rewrite HP. apply req_ok_early.
      * cbn [promises set_promises set_restarting set_requests
             set_waterfallCounter microtasks].
        rewrite Hins. right; right; right. cbn. repeat split; try done; [lia|].
        left. split; [done|]. eexists _, [length (requests st)]. split; [done|].
        by left.
    + rewrite onRequest_early by (done || lia). rewrite Hv.
      unfold bind, getServerBuild.
      cbn [serverBuildCache upd_request set_requests arrival set_waterfallCounter].
      destruct (serverBuildCache st !! g) as [b|].
      * eapply (WInv_new_request _ st); [done|done| | | |done|done| | | | |].
        -- intros i Hi. cbn. rewrite !list_lookup_alter_ne by lia.
           by rewrite lookup_app_l.
        -- cbn. rewrite !list_lookup_alter_eq, list_lookup_middle by done. done.
        -- cbn. rewrite !length_alter, length_app. cbn. lia.
        -- apply (w_settled _ _ _ HI).
        -- left. cbn. repeat split; try done. lia.
        -- cbn. rewrite Hmt. by intros ? [[=]|[]].
        -- intros i q. cbn. rewrite HP. apply req_ok_early.
        -- left. cbn. repeat split; try done. lia.
      * eapply (WInv_new_request _ st); [done|done| | | |done|done| | | | |].
        -- intros i Hi. cbn. rewrite !list_lookup_alter_ne by lia.
           by rewrite lookup_app_l.
        -- cbn. rewrite !list_lookup_alter_eq, list_lookup_middle by done. done.
        -- cbn. rewrite !length_alter, length_app. cbn. lia.
        -- apply (w_settled _ _ _ HI).
        -- left. cbn. repeat split; try done. lia.
        -- cbn. rewrite Hmt. by intros ? [].
        -- intros i q. cbn. rewrite HP. apply req_ok_early.
        -- left. cbn. repeat split; try done. lia.
  - rewrite (onRequest_late u P) by (done || lia).
    unfold await_promise.
    change (promises (arrival u st)) with (promises st).
    destruct (promises st !! P) as [[f ws| |]|] eqn:HP; [| | |done].
    + destruct Hp as [[rs ->] Hpc].
      assert (P < length (promises st)) as HlP by lia.
      eapply (WInv_new_request _ st); [done|done| | | |done|done| | | | |].
      * intros i Hi. cbn. by rewrite lookup_app_l.
      * cbn. by rewrite list_lookup_middle.
      * cbn. rewrite length_app. cbn. lia.
      * intros p f' ws'. cbn. intros Hp.
        destruct (decide (p = P)) as [|Hne]; [done|].
        rewrite list_lookup_insert_ne in Hp by done.
        by apply (w_settled _ _ _ HI) in Hp.
      * right. cbn [waterfallCounter restarting promises set_promises
                    set_restarting set_requests set_waterfallCounter
                    vite_server serverIdCounter arrival].
        rewrite list_lookup_insert_eq by done. rewrite length_insert.
        repeat split; try done; try lia.
        exists (rs ++ [length (requests st)]). by rewrite map_app.
      * cbn. rewrite Hmt. by intros ? [].
      * intros i q. cbn [promises set_promises set_restarting set_requests
                         set_waterfallCounter microtasks arrival].
        rewrite list_lookup_insert_eq by done. rewrite Hmt, HP.
        intros [H|[H|[(_ & _ & _ & [=])|(Hi & Hv & Hpc' & Hw)]]];
          [by left|by right; left|].
        right; right; right. repeat split; try done.
        destruct Hw as [(Hin & f0 & rs0 & [= <- Hrs0] & Hrs')|
                        [(_ & [=] & _)|(_ & [=] & _)]].
        left. split; [done|]. exists f, (rs ++ [length (requests st)]).
        rewrite map_app. split; [done|]. apply in_app_iff. left.
        assert (rs = rs0) as ->; [|done].
        revert Hrs0. clear. revert rs0.
        induction rs as [|a rs IH]; intros [|b rs0]; cbn; try done.
        intros [= -> H]. f_equal. by apply IH.
      * cbn [promises set_promises set_restarting set_requests
             set_waterfallCounter microtasks arrival].
        rewrite list_lookup_insert_eq by done.
        right; right; right. cbn. repeat split; try done; [lia|].
        left. split; [done|]. exists f, (rs ++ [length (requests st)]).
        rewrite map_app. split; [done|]. apply in_app_iff. right. by left.
    + eapply (WInv_new_request _ st); [done|done| | | |done|done| | | | |].
      * intros i Hi. cbn. rewrite list_lookup_alter_ne by lia.
        by rewrite lookup_app_l.
      * cbn. by rewrite list_lookup_alter_eq, list_lookup_middle.
      * cbn. rewrite length_alter, length_app. cbn. lia.
      * apply (w_settled _ _ _ HI).
      * right. cbn. rewrite HP. repeat split; try done; lia.
      * cbn. rewrite Hmt. by intros ? [[=]|[]].
      * intros i q. cbn. apply req_ok_jobs. by intros ? [].
      * cbn. rewrite HP, Hmt. right; right; right. cbn.
        repeat split; try done; [lia|]. right; left. repeat split; try done. by left.
    + eapply (WInv_new_request _ st); [done|done| | | |done|done| | | | |].
      * intros i Hi. cbn. rewrite list_lookup_alter_ne by lia.
        by rewrite lookup_app_l.
      * cbn. by rewrite list_lookup_alter_eq, list_lookup_middle.
      * cbn. rewrite length_alter, length_app. cbn. lia.
      * apply (w_settled _ _ _ HI).
      * right. cbn. rewrite HP. repeat split; try done; lia.
      * cbn. rewrite Hmt. by intros ? [[=]|[]].
      * intros i q. cbn. apply req_ok_jobs. by intros ? [].
      * cbn. rewrite HP, Hmt. right; right; right. cbn.
        repeat split; try done; [lia|]. right; right. repeat split; try done. by left.
Qed.

Lemma WInv_restart_io res f ws st :
  WInv g P st → promises st !! P = Some (Pending f ws) →
  WInv g P (enqueue (JRestart P) (suspend P (fpc f) (Some res) ws st)).
Proof.
  intros HI Hl.
  destruct (WInv_pending_phase _ _ _ HI Hl) as (_ & _ & _ & _ & Hf).
  eapply (WInv_suspend (fpc f) (Some res) f ws st); try done.
  - cbn. intros j [H|[<-|[]]]%in_app_iff; auto.
  - cbn. intros j H. apply in_app_iff. auto.
Qed.

Lemma WInv_req_io res r q st :
  WInv g P st → requests st !! r = Some q → req_awaits_io q = true →
  WInv g P (deliver_req res r st).
Proof.
  intros HI Hq Hio.
  assert (qpc q ≠ AtRestarting) as Hne.
  { intros E. unfold req_awaits_io in Hio. by rewrite E in Hio. }
  destruct HI as [Hm Hnm Hcnt Hset Hph Hreq]. split; try done.
  - cbn. intros b [H|[[=]|[]]]%in_app_iff. by eapply Hnm.
  - cbn. by rewrite length_alter.
  - intros i q' [(-> & x & Hx & ->)|(Hi & Hq')]%lookup_alter_Some.
    + cbn [promises deliver_req enqueue upd_request set_requests
           set_microtasks].
      assert (x = q) as -> by congruence.
      eapply req_ok_inbox; [by apply Hreq|done].
    + cbn [promises deliver_req enqueue upd_request set_requests
           set_microtasks microtasks].
      eapply req_ok_jobs; [|by apply Hreq].
      intros j H. apply in_app_iff. auto.
Qed.

Lemma step_WInv i st st' :
  WInv g P st → ordinary i → step i st = Some st' → WInv g P st'.
Proof.
  intros HI Hord. destruct i as [| |u|p res|r res]; cbn [step].
  - destruct (microtasks st) as [|j mt] eqn:Hmt; [done|].
    intros [= <-]. destruct j as [p|r|ok].
    + assert (WInv g P (set_microtasks mt st)) as HI'
        by (by eapply WInv_pop).
      cbn. destruct (promises st !! p) as [[f ws| |]|] eqn:Hp; try done.
      destruct (finbox f) as [res|]; [|done].
      assert (p = P) as -> by (by eapply (w_settled _ _ _ HI)).
      by apply WInv_restart_step.
    + by apply WInv_req_job.
    + destruct (w_nomain _ _ _ HI ok). rewrite Hmt. by left.
  - by rewrite (w_main _ _ _ HI).
  - rewrite (w_main _ _ _ HI).
    destruct (microtasks st) eqn:Hmt; [|done].
    intros [= <-]. by apply WInv_onRequest.
  - destruct (promises st !! p) as [[f ws| |]|] eqn:Hp; try done.
    destruct (frame_awaits_io f); [|done]. intros [= <-].
    assert (p = P) as -> by (by eapply (w_settled _ _ _ HI)).
    by apply WInv_restart_io.
  - destruct (requests st !! r) as [q|] eqn:Hq; [|done].
    destruct (req_awaits_io q) eqn:Hio; [|done]. intros [= <-].
    by eapply WInv_req_io.
Qed.

Lemma run_WInv tr st st' :
  WInv g P st → Forall ordinary tr → run tr st = Some st' → WInv g P st'.
Proof.
  revert st. induction tr as [|i tr IH]; intros st HI Hord; cbn.
  - by intros [= <-].
  - apply Forall_cons in Hord as [Hi Hord].
    destruct (step i st) as [st1|] eqn:Hstep; [|done].
    apply IH; [|done]. by eapply step_WInv.
Qed.

End ScenarioSteps.

(** ** The numbering of the requests

    [myWaterfallPosition] is fixed when the hook starts and no later
    segment changes it. *)
Definition positions (st : St) : list nat :=
  map myWaterfallPosition (requests st).

Definition keeps_position (h : Request → Request) : Prop :=
  ∀ q, myWaterfallPosition (h q) = myWaterfallPosition q.

Lemma map_alter_keeps (h : Request → Request) r l :
  keeps_position h →
  map myWaterfallPosition (alter h r l) = map myWaterfallPosition l.
Proof.
  intros Hh. revert r. induction l as [|q l IH]; intros [|r]; cbn; [done..| |].
  - by rewrite Hh.
  - f_equal. apply IH.
Qed.

Lemma positions_upd_request r h st :
  keeps_position h → positions (upd_request r h st) = positions st.
Proof. intros Hh. by apply map_alter_keeps. Qed.

Lemma positions_deliver_req res r st :
  positions (deliver_req res r st) = positions st.
Proof. by apply map_alter_keeps. Qed.

Lemma positions_wake ok st w : positions (wake ok st w) = positions st.
Proof. destruct w; [done|]. apply positions_deliver_req. Qed.

Lemma positions_foldl_wake ok ws st :
  positions (foldl (wake ok) st ws) = positions st.
Proof.
  revert st. induction ws as [|w ws IH]; intros st; [done|].
  cbn [foldl]. by rewrite IH, positions_wake.
Qed.

Lemma positions_settle p ok ws st :
  positions (settle p ok ws st) = positions st.
Proof. unfold settle. by rewrite positions_foldl_wake. Qed.

Lemma positions_await_promise p w st :
  positions (await_promise p w st) = positions st.
Proof.
  unfold await_promise.
  destruct (promises st !! p) as [[f ws| |]|]; try done;
    apply positions_wake.
Qed.

Lemma positions_restart_step p f ws res st :
  positions (restart_step p f ws res st) = positions st.
Proof.
  unfold restart_step, getServerBuild.
  destruct (fpc f), res; try apply positions_settle; try done.
  cbn [serverBuildCache set_vite_server set_serverIdMap set_serverIdCounter].
  by destruct (serverBuildCache st !! S (serverIdCounter st)).
Qed.

Lemma positions_bind r s st : positions (bind r s st) = positions st.
Proof.
  unfold bind, getServerBuild. destruct s as [s|].
  - cbn [serverBuildCache upd_request set_requests].
    destruct (serverBuildCache st !! s).
    + rewrite positions_deliver_req. unfold positions. cbn.
      by rewrite !map_alter_keeps.
    + unfold positions. cbn. by rewrite !map_alter_keeps.
  - by apply positions_upd_request.
Qed.

Lemma positions_bind_slash r st : positions (bind_slash r st) = positions st.
Proof.
  unfold bind_slash, getServerBuild. destruct (vite_server st) as [s|].
  - cbn [serverBuildCache upd_request set_requests].
    destruct (serverBuildCache st !! s).
    + rewrite positions_deliver_req. unfold positions. cbn.
      by rewrite !map_alter_keeps.
    + unfold positions. cbn. by rewrite !map_alter_keeps.
  - by apply positions_upd_request.
Qed.

Lemma positions_req_step r q res st :
  positions (req_step r q res st) = positions st.
Proof.
  unfold req_step, restartVite.
  destruct (qpc q), res as [??|[|v]|];
    rewrite ?positions_await_promise, ?positions_bind, ?positions_bind_slash,
      ?positions_deliver_req;
    rewrite ?positions_upd_request by done; done.
Qed.

Lemma positions_run_job j st : positions (run_job j st) = positions st.
Proof.
  destruct j as [p|r|ok]; cbn; [| |done].
  - destruct (promises st !! p) as [[f ws| |]|]; try done.
    destruct (finbox f); [|done]. apply positions_restart_step.
  - destruct (requests st !! r) as [q|]; [|done].
    destruct (qinbox q); [|done]. apply positions_req_step.
Qed.

Lemma positions_onRequest u st :
  String.eqb u "/" = false →
  positions (onRequest u st) = positions st ++ [S (waterfallCounter st)].
Proof.
  intros Hu. unfold onRequest, restartVite. rewrite Hu.
  cbn [waterfallCounter set_waterfallCounter set_requests requests restarting
       promises].
  assert (∀ st1 : St,
    positions st1 = positions st ++ [S (waterfallCounter st)] →
    ∀ b, positions
      (match b, restarting st1 with
       | true, Some p => await_promise p (ForReq (length (requests st))) st1
       | _, _ => bind (length (requests st)) (vite_server st) st1
       end) = positions st ++ [S (waterfallCounter st)]) as Hrest.
  { intros st1 H1 b. destruct b, (restarting st1);
      by rewrite ?positions_await_promise, ?positions_bind. }
  apply Hrest.
  destruct (S (waterfallCounter st) =? waterfallRestartOn);
    unfold positions; cbn; by rewrite map_app.
Qed.

(** With ordinary requests only, the request at index [i] has position
    [i + 1]. *)
Lemma step_positions g P i st st' :
  WInv g P st → ordinary i → step i st = Some st' →
  positions st = seq 1 (length (requests st)) →
  positions st' = seq 1 (length (requests st')).
Proof.
  intros HI Hord Hstep Hpos.
  assert (positions st' = positions st ∨
          positions st' = positions st ++ [S (length (requests st))]) as Hst'.
  { destruct i as [| |u|p res|r res]; cbn [step] in Hstep.
    - destruct (microtasks st) as [|j mt]; [done|].
      injection Hstep as <-. left. by rewrite positions_run_job.
    - by rewrite (w_main _ _ _ HI) in Hstep.
    - rewrite (w_main _ _ _ HI) in Hstep.
      destruct (microtasks st); [|done]. injection Hstep as <-. right.
      rewrite (w_count _ _ _ HI). by apply positions_onRequest.
    - destruct (promises st !! p) as [[f ws| |]|]; try done.
      destruct (frame_awaits_io f); [|done]. injection Hstep as <-. by left.
    - destruct (requests st !! r) as [q|]; [|done].
      destruct (req_awaits_io q); [|done]. injection Hstep as <-. left.
      apply positions_deliver_req. }
  assert (length (requests st') = length (positions st')) as ->
    by (unfold positions; by rewrite length_map).
  destruct Hst' as [->| ->].
  - rewrite Hpos at 2. by rewrite length_seq.
  - rewrite length_app, Hpos, length_seq. cbn [length].
    replace (length (requests st) + 1) with (S (length (requests st))) by lia.
    by rewrite seq_S.
Qed.

Lemma run_positions g P tr st st' :
  WInv g P st → Forall ordinary tr → run tr st = Some st' →
  positions st = seq 1 (length (requests st)) →
  positions st' = seq 1 (length (requests st')).
Proof.
  revert st. induction tr as [|i tr IH]; intros st HI Hord; cbn.
  - by intros [= <-].
  - apply Forall_cons in Hord as [Hi Hord].
    destruct (step i st) as [st1|] eqn:Hstep; [|done].
    intros Hrun Hpos. apply (IH st1); [by eapply step_WInv|done|done|].
    by eapply step_positions.
Qed.

Lemma positions_lookup st i q :
  requests st !! i = Some q →
  positions st = seq 1 (length (requests st)) →
  myWaterfallPosition q = S i.
Proof.
  intros Hq.
  assert (positions st !! i = Some (myWaterfallPosition q)) as Hi.
  { unfold positions. revert i Hq.
    induction (requests st) as [|x l IH]; intros [|i]; cbn; try done.
    + by intros [= ->].
    + apply IH. }
  intros Hpos. rewrite Hpos in Hi. by apply lookup_seq in Hi as [-> _].
Qed.

(** ** C7: the scenario of the twentieth request *)

(** Thirty-nine ordinary requests after [boot]: the first nineteen are
    served one by one, the twentieth starts the restart, nineteen more
    arrive while it runs, and then the restart completes and the twenty
    waiting hooks run to their end. *)
Definition early (u : string) : list Input := [InRequest u; Tick].

Definition thirty_nine : list Input :=
  concat (replicate 19 (early "/assets/a.js")) ++
  replicate 20 (InRequest "/assets/b.js") ++
  [InRestartIO 1 (WPair 4002 4003); Tick; InRestartIO 1 (WOk 0); Tick;
   InRestartIO 1 (WOk 88); Tick; Tick] ++
  replicate 40 Tick.

(** C7.  Server [g] is active, no restart is running and no request has
    arrived yet; from there any number of requests other than [/] arrive,
    interleaved in any way with the I/O and the microtasks of the program.
    The request at index [i] of the arrival order is the one the code
    numbers [i + 1] in [myWaterfallPosition].  Requests 1 to 19 are bound to
    [g] on arrival; requests 20, 21, ... are never bound to anything but the
    server [S g] that the restart of the twentieth request creates, and
    once that restart has completed and the microtask queue has drained
    each of them is bound to [S g]. *)
Theorem twentieth_request_splits_generations g P st0 tr st :
  Started g P st0 → Forall ordinary tr → run tr st0 = Some st →
  (∀ i q, requests st !! i = Some q → myWaterfallPosition q = S i) ∧
  (∀ i q, requests st !! i = Some q → i < 19 → viteServer q = Some g) ∧
  (∀ i q, requests st !! i = Some q → 19 ≤ i →
          viteServer q = None ∨ viteServer q = Some (S g)) ∧
  (promises st !! P = Some Fulfilled → microtasks st = [] →
   ∀ i q, requests st !! i = Some q → 19 ≤ i → viteServer q = Some (S g)).
Proof.
  intros H0 Hord Hrun.
  pose proof (run_WInv g P tr st0 st (Started_WInv g P st0 H0) Hord Hrun) as HI.
  repeat split.
  - intros i q Hq. apply (positions_lookup st i q Hq).
    apply (run_positions g P tr st0 st (Started_WInv g P st0 H0) Hord Hrun).
    destruct H0 as (_ & _ & Hr & _). unfold positions. by rewrite Hr.
  - intros i q Hq Hi.
    destruct (w_reqs _ _ _ HI i q Hq) as [(_ & Hv & _)|[(? & _)|[(? & _)|(? & _)]]];
      [done|lia..].
  - intros i q Hq Hi.
    destruct (w_reqs _ _ _ HI i q Hq)
      as [(? & _)|[(_ & Hv & _)|[(_ & Hv & _)|(_ & Hv & _)]]];
      [lia|by right|by left|by left].
  - intros HP Hmt i q Hq Hi.
    destruct (w_reqs _ _ _ HI i q Hq)
      as [(? & _)|[(_ & Hv & _)|[(_ & _ & _ & HR)|(_ & _ & _ & Hw)]]];
      [lia|done|congruence|].
    rewrite HP, Hmt in Hw.
    by destruct Hw as [(_ & ? & ? & [=] & _)|[(_ & _ & [])|(_ & [=] & _)]].
Qed.

Lemma twentieth_request_splits_generations_witness :
  Started 1 1 (state_after boot) ∧
  Forall ordinary thirty_nine ∧
  run thirty_nine (state_after boot) = Some (state_after (boot ++ thirty_nine)) ∧
  length (requests (state_after (boot ++ thirty_nine))) = 39 ∧
  promises (state_after (boot ++ thirty_nine)) !! 1 = Some Fulfilled ∧
  microtasks (state_after (boot ++ thirty_nine)) = [] ∧
  ((∀ i q, requests (state_after (boot ++ thirty_nine)) !! i = Some q →
           myWaterfallPosition q = S i) ∧
   (∀ i q, requests (state_after (boot ++ thirty_nine)) !! i = Some q →
           i < 19 → viteServer q = Some 1) ∧
   (∀ i q, requests (state_after (boot ++ thirty_nine)) !! i = Some q →
           19 ≤ i → viteServer q = None ∨ viteServer q = Some 2) ∧
   (promises (state_after (boot ++ thirty_nine)) !! 1 = Some Fulfilled →
    microtasks (state_after (boot ++ thirty_nine)) = [] →
    ∀ i q, requests (state_after (boot ++ thirty_nine)) !! i = Some q →
           19 ≤ i → viteServer q = Some 2)).
Proof.
  assert (Started 1 1 (state_after boot)) as H0.
  { unfold Started. repeat (split; [vm_compute; reflexivity|]).
    intros [|[|p]] f ws; vm_compute; discriminate. }
  assert (Forall ordinary thirty_nine) as Hord.
  { vm_compute. repeat (constructor; [exact I || reflexivity|]). constructor. }
  assert (run thirty_nine (state_after boot) =
          Some (state_after (boot ++ thirty_nine))) as Hrun.
  { vm_compute. reflexivity. }
  split; [exact H0|]. split; [exact Hord|]. split; [exact Hrun|].
  split; [vm_compute; reflexivity|].
  split; [vm_compute; reflexivity|].
  split; [vm_compute; reflexivity|].
  exact (twentieth_request_splits_generations 1 1 (state_after boot)
           thirty_nine (state_after (boot ++ thirty_nine)) H0 Hord Hrun).
Defined.

(** * Further properties of the waterfall version *)

(** X10.  In a waterfall of any length (no request for [/]), [restartVite]
    is called exactly once, by the twentieth request: before it no restart
    is in progress, the number of runs of [restartVite] is what it was at
    the start and [vite.server] is still the initial server; from the
    twentieth request on [restarting] holds the promise of that one run
    and no further run is started, however many requests follow. *)
Theorem waterfall_restarts_once g P st0 tr st :
  Started g P st0 → Forall ordinary tr → run tr st0 = Some st →
  waterfallCounter st = length (requests st) ∧
  (length (requests st) < 20 →
   restarting st = None ∧ length (promises st) = P ∧
   vite_server st = Some g ∧ serverIdCounter st = g) ∧
  (20 ≤ length (requests st) →
   restarting st = Some P ∧ length (promises st) = S P).
Proof.
  intros H0 Hord Hrun.
  pose proof (run_WInv g P tr st0 st (Started_WInv g P st0 H0) Hord Hrun) as HI.
  pose proof (w_count _ _ _ HI) as Hc. rewrite Hc. split; [done|].
  destruct (w_phase _ _ _ HI) as [(Hlt & Hr & Hv & Hs & Hl)|(Hge & Hr & Hl & _)].
  - split; [done|]. lia.
  - split; [lia|done].
Qed.

Lemma waterfall_restarts_once_witness :
  waterfallCounter (state_after (boot ++ thirty_nine)) =
    length (requests (state_after (boot ++ thirty_nine))) ∧
  (length (requests (state_after (boot ++ thirty_nine))) < 20 →
   restarting (state_after (boot ++ thirty_nine)) = None ∧
   length (promises (state_after (boot ++ thirty_nine))) = 1 ∧
   vite_server (state_after (boot ++ thirty_nine)) = Some 1 ∧
   serverIdCounter (state_after (boot ++ thirty_nine)) = 1) ∧
  (20 ≤ length (requests (state_after (boot ++ thirty_nine))) →
   restarting (state_after (boot ++ thirty_nine)) = Some 1 ∧
   length (promises (state_after (boot ++ thirty_nine))) = 2).
Proof.
  apply (waterfall_restarts_once 1 1 (state_after boot) thirty_nine
           (state_after (boot ++ thirty_nine))).
  - unfold Started. repeat (split; [vm_compute; reflexivity|]).
    intros [|[|p]] f ws; vm_compute; discriminate.
  - vm_compute. repeat (constructor; [exact I || reflexivity|]). constructor.
  - vm_compute. reflexivity.
Defined.

(** ** Starting up *)

(** The continuations of the module body in the microtask queue. *)
Fixpoint mains (mt : list Job) : list Job :=
  match mt with
  | [] => []
  | JMain ok :: mt => JMain ok :: mains mt
  | _ :: mt => mains mt
  end.

Definition settled (ok : bool) : PState := if ok then Fulfilled else Rejected.

(** What a request carries at each suspension point of the hook. *)
Definition req_has_server (q : Request) : Prop :=
  is_Some (capturedViteServer q) ∧
  match qpc q with
  | AtLoad _ | AtBuild | AtSlashLoad _ | AtSlashBuild => is_Some (viteServer q)
  | Done => is_Some (viteServer q) ∧ is_Some (serverBuild q)
  | _ => True
  end.

Lemma mains_app mt1 mt2 : mains (mt1 ++ mt2) = mains mt1 ++ mains mt2.
Proof.
  induction mt1 as [|j mt1 IH]; [done|]. destruct j; cbn; by rewrite ?IH.
Qed.

Lemma mains_reqs rs : mains (map JReq rs) = [].
Proof. by induction rs. Qed.

Ltac wf_simpl :=
  cbn [vite_server serverBuildCache serverIdCounter serverIdMap restarting
       waterfallCounter main promises requests microtasks
       set_vite_server set_serverBuildCache set_serverIdCounter
       set_serverIdMap set_restarting set_waterfallCounter set_main
       set_promises set_requests set_microtasks
       enqueue upd_request deliver_req suspend getServerBuild_loaded
       fst snd].

(** *** The servers *)

Record Core (st : St) : Prop := mkCore {
  co_server :
    vite_server st =
    match serverIdCounter st with 0 => None | S n => Some (S n) end;
  co_frames : ∀ p f ws,
    promises st !! p = Some (Pending f ws) →
    match fpc f with
    | AwaitLoad _ | AwaitBuild _ => 1 ≤ serverIdCounter st
    | _ => True
    end;
  co_fulfilled : ∀ p,
    promises st !! p = Some Fulfilled → 1 ≤ serverIdCounter st;
  co_listening : main st = Listening → 1 ≤ serverIdCounter st
}.

Definition cview (st : St) :=
  (vite_server st, serverIdCounter st, promises st, main st).

Lemma Core_ext st st' : cview st' = cview st → Core st → Core st'.
Proof.
  unfold cview. intros [= E1 E2 E3 E4] [H1 H2 H3 H4].
  split; rewrite ?E1, ?E2, ?E3, ?E4; done.
Qed.

(** Replacing one promise by one that claims no more. *)
Lemma Core_insert p x st :
  Core st →
  match x with
  | Pending f _ =>
      match fpc f with
      | AwaitLoad _ | AwaitBuild _ => 1 ≤ serverIdCounter st
      | _ => True
      end
  | Fulfilled => 1 ≤ serverIdCounter st
  | Rejected => True
  end →
  Core (set_promises (<[p := x]> (promises st)) st).
Proof.
  intros [H1 H2 H3 H4] Hx. split; wf_simpl; [done| | |done].
  - intros p' f ws [(-> & -> & _)|(Hne & Hl)]%list_lookup_insert_Some;
      [exact Hx|exact (H2 _ _ _ Hl)].
  - intros p' [(-> & -> & _)|(Hne & Hl)]%list_lookup_insert_Some;
      [exact Hx|exact (H3 _ Hl)].
Qed.

Lemma Core_foldl_wake ok ws st :
  Core st → Core (foldl (wake ok) st ws).
Proof.
  revert st. induction ws as [|w ws IH]; intros st HC; [done|].
  cbn [foldl]. apply IH. eapply Core_ext; [|exact HC]. by destruct w.
Qed.

Lemma Core_settle p f ws0 (ok : bool) ws st :
  Core st → promises st !! p = Some (Pending f ws0) →
  (ok = true → 1 ≤ serverIdCounter st) →
  Core (settle p ok ws st).
Proof.
  intros HC Hl Hok. unfold settle. apply Core_foldl_wake.
  apply Core_insert; [done|]. destruct ok; auto.
Qed.

Lemma Core_await_promise p w st : Core st → Core (await_promise p w st).
Proof.
  intros HC. unfold await_promise.
  destruct (promises st !! p) as [[f ws| |]|] eqn:Hl; [| | |done].
  - apply Core_insert; [done|]. apply (co_frames _ HC _ _ _ Hl).
  - eapply Core_ext; [|exact HC]. by destruct w.
  - eapply Core_ext; [|exact HC]. by destruct w.
Qed.

Lemma Core_restartVite st : Core st → Core (restartVite st).1.
Proof.
  intros [H1 H2 H3 H4]. unfold restartVite. split; wf_simpl; [done| | |done].
  - intros p f ws [Hl|[_ Hl]]%lookup_app_Some; [exact (H2 _ _ _ Hl)|].
    destruct (p - length (promises st)) as [|n]; [|done].
    by injection Hl as <- <-.
  - intros p [Hl|[_ Hl]]%lookup_app_Some; [exact (H3 _ Hl)|].
    by destruct (p - length (promises st)) as [|[|n]].
Qed.

Lemma Core_enqueue j st : Core st → Core (enqueue j st).
Proof. apply Core_ext. done. Qed.

Lemma Core_suspend p pc i ws st :
  Core st →
  match pc with
  | AwaitLoad _ | AwaitBuild _ => 1 ≤ serverIdCounter st
  | _ => True
  end →
  Core (suspend p pc i ws st).
Proof. intros HC Hpc. by apply Core_insert. Qed.

Lemma Core_restart_step p f ws res st :
  Core st → promises st !! p = Some (Pending f ws) →
  Core (restart_step p f ws res st).
Proof.
  intros HC Hl. unfold restart_step, getServerBuild.
  pose proof (co_frames _ HC _ _ _ Hl) as Hf.
  assert (Core (settle p false ws st)) as Hrej by (by eapply Core_settle).
  destruct (fpc f) as [|port hmrPort|n|n] eqn:Hpc.
  - destruct res; try done. by apply Core_suspend.
  - destruct res as [| v |]; try done.
    cbn [serverBuildCache set_vite_server set_serverIdMap set_serverIdCounter
         serverIdCounter serverIdMap].
    set (st3 := set_vite_server _ _).
    assert (Core st3) as H3.
    { destruct HC as [H1 H2 H3 H4]. split; unfold st3; wf_simpl; [done| | |].
      - intros p' f' ws' Hl'. specialize (H2 p' f' ws' Hl').
        destruct (fpc f'); try done; lia.
      - intros p' Hl'. lia.
      - intros _. lia. }
    assert (1 ≤ serverIdCounter st3) as Hc by (unfold st3; wf_simpl; lia).
    destruct (serverBuildCache st !! S (serverIdCounter st)).
    + by apply Core_enqueue, Core_suspend.
    + by apply Core_suspend.
  - destruct res as [| build |].
    + by apply Core_enqueue, Core_suspend.
    + apply Core_enqueue, Core_suspend; [|done].
      eapply Core_ext; [|exact HC]. done.
    + by apply Core_enqueue, Core_suspend.
  - destruct res; try done. by eapply Core_settle.
Qed.

Ltac core_same := eapply Core_ext; [|eassumption]; reflexivity.

Lemma Core_upd_request r g st : Core st → Core (upd_request r g st).
Proof. apply Core_ext. done. Qed.

Lemma Core_deliver_req res r st : Core st → Core (deliver_req res r st).
Proof. apply Core_ext. done. Qed.

Lemma Core_bind r s st : Core st → Core (bind r s st).
Proof.
  intros HC. unfold bind, getServerBuild. destruct s as [s|]; [|core_same].
  wf_simpl. destruct (serverBuildCache st !! s); core_same.
Qed.

Lemma Core_bind_slash r st : Core st → Core (bind_slash r st).
Proof.
  intros HC. unfold bind_slash, getServerBuild.
  destruct (vite_server st) as [s|]; [|core_same].
  wf_simpl. destruct (serverBuildCache st !! s); core_same.
Qed.

Lemma Core_restart_await r pc st :
  Core st →
  Core (let '(st1, p) := restartVite st in
        await_promise p (ForReq r) (upd_request r (set_qpc pc) st1)).
Proof.
  intros HC. pose proof (Core_restartVite st HC) as H1.
  destruct (restartVite st) as [st1 p]. cbn in H1.
  by apply Core_await_promise, Core_upd_request.
Qed.

Lemma Core_req_step r q res st : Core st → Core (req_step r q res st).
Proof.
  intros HC. unfold req_step.
  destruct (qpc q); destruct res as [? ?|[|v]|];
    try apply Core_restart_await; try apply Core_bind; try apply Core_bind_slash;
    try apply Core_deliver_req; try apply Core_upd_request; try done;
    core_same.
Qed.

Lemma Core_onRequest u st : Core st → Core (onRequest u st).
Proof.
  intros HC. unfold onRequest. destruct (String.eqb u "/"); [core_same|].
  cbn [waterfallCounter set_waterfallCounter restarting set_requests
       vite_server requests].
  assert (∀ st1 b,
    Core st1 →
    Core (match b, restarting st1 with
          | true, Some p => await_promise p (ForReq (length (requests st))) st1
          | _, _ => bind (length (requests st)) (vite_server st) st1
          end)) as Hrest.
  { intros st1 b H1. destruct b; [|by apply Core_bind].
    destruct (restarting st1); [by apply Core_await_promise|by apply Core_bind]. }
  apply Hrest. destruct (_ =? _).
  - set (st2 := set_requests _ _).
    assert (Core st2) as H2 by core_same.
    pose proof (Core_restartVite st2 H2) as H3.
    destruct (restartVite st2) as [st' p]. cbn in H3. core_same.
  - core_same.
Qed.

(** *** The continuation of the module body *)

(** While the server listens, nothing is left of the module body: no
    continuation of it is queued and it awaits no promise. *)
Definition LM (st : St) : Prop :=
  main st = Listening ∧ mains (microtasks st) = [] ∧
  ∀ p f ws, promises st !! p = Some (Pending f ws) → ¬ In ForMain ws.

Definition lview (st : St) := (main st, mains (microtasks st), promises st).

Lemma LM_ext st st' : lview st' = lview st → LM st → LM st'.
Proof. unfold lview, LM. intros [= -> -> ->]. done. Qed.

Lemma LM_waiters st p f ws :
  LM st → promises st !! p = Some (Pending f ws) → ¬ In ForMain ws.
Proof. intros (_ & _ & H). apply H. Qed.

Ltac lm_from H :=
  eapply LM_ext; [|exact H]; unfold lview; wf_simpl;
  rewrite ?mains_app, ?app_nil_r; reflexivity.
Ltac lm_same :=
  match goal with H : LM _ |- _ => lm_from H end.

Lemma LM_enqueue_req r st : LM st → LM (enqueue (JReq r) st).
Proof. intros HL. lm_same. Qed.

Lemma LM_enqueue_restart p st : LM st → LM (enqueue (JRestart p) st).
Proof. intros HL. lm_same. Qed.

Lemma LM_upd_request r g st : LM st → LM (upd_request r g st).
Proof. intros HL. lm_same. Qed.

Lemma LM_deliver_req res r st : LM st → LM (deliver_req res r st).
Proof. intros HL. lm_same. Qed.

Lemma LM_insert p x st :
  LM st → (∀ f ws, x = Pending f ws → ¬ In ForMain ws) →
  LM (set_promises (<[p := x]> (promises st)) st).
Proof.
  intros (H0 & H1 & H2) Hx. split; [done|]. split; [done|]. wf_simpl.
  intros p' f ws [(-> & -> & _)|(Hne & Hl)]%list_lookup_insert_Some; eauto.
Qed.

Lemma LM_foldl_wake ok ws st :
  LM st → ¬ In ForMain ws → LM (foldl (wake ok) st ws).
Proof.
  revert st. induction ws as [|w ws IH]; intros st HL Hn; [done|].
  cbn [foldl]. apply IH.
  - destruct w as [|r]; [destruct Hn; by left|]. by apply LM_deliver_req.
  - intros ?. apply Hn. by right.
Qed.

Lemma LM_settle p f ok ws st :
  LM st → promises st !! p = Some (Pending f ws) → LM (settle p ok ws st).
Proof.
  intros HL Hl. unfold settle. apply LM_foldl_wake.
  - apply LM_insert; [done|]. by destruct ok.
  - by apply (LM_waiters st p f ws).
Qed.

Lemma LM_await_promise p r st : LM st → LM (await_promise p (ForReq r) st).
Proof.
  intros HL. unfold await_promise.
  destruct (promises st !! p) as [[f ws| |]|] eqn:Hl; [| | |done].
  - apply LM_insert; [done|]. intros f' ws' [= <- <-].
    intros [Hin|[[=]|[]]]%in_app_iff. by apply (LM_waiters st p f ws).
  - by apply LM_deliver_req.
  - by apply LM_deliver_req.
Qed.

Lemma LM_restartVite st : LM st → LM (restartVite st).1.
Proof.
  intros (H0 & H1 & H2). unfold restartVite. split; [done|]. split; [done|].
  wf_simpl. intros p f ws [Hl|[_ Hl]]%lookup_app_Some; [eauto|].
  destruct (p - length (promises st)) as [|n]; [|done].
  injection Hl as <- <-. by intros [].
Qed.

Lemma LM_suspend p f pc i ws st :
  LM st → promises st !! p = Some (Pending f ws) → LM (suspend p pc i ws st).
Proof.
  intros HL Hl. apply LM_insert; [done|]. intros f' ws' [= <- <-].
  by apply (LM_waiters st p f ws).
Qed.

Lemma LM_restart_step p f ws res st :
  LM st → promises st !! p = Some (Pending f ws) →
  LM (restart_step p f ws res st).
Proof.
  intros HL Hl. unfold restart_step, getServerBuild.
  assert (LM (settle p false ws st)) as Hrej by (by eapply LM_settle).
  destruct (fpc f) as [|port hmrPort|n|n].
  - destruct res; try done. by eapply LM_suspend.
  - destruct res as [| v |]; try done.
    cbn [serverBuildCache set_vite_server set_serverIdMap set_serverIdCounter
         serverIdCounter serverIdMap].
    set (st3 := set_vite_server _ _).
    assert (LM st3) as H3 by lm_same.
    destruct (serverBuildCache st !! S (serverIdCounter st)).
    + apply LM_enqueue_restart. by eapply LM_suspend.
    + by eapply LM_suspend.
  - destruct res as [| build |].
    + apply LM_enqueue_restart. by eapply LM_suspend.
    + apply LM_enqueue_restart. eapply (LM_suspend p f); [lm_same|done].
    + apply LM_enqueue_restart. by eapply LM_suspend.
  - destruct res; try done. by eapply LM_settle.
Qed.

Lemma LM_bind r s st : LM st → LM (bind r s st).
Proof.
  intros HL. unfold bind, getServerBuild. destruct s as [s|]; [|lm_same].
  wf_simpl. destruct (serverBuildCache st !! s); lm_same.
Qed.

Lemma LM_bind_slash r st : LM st → LM (bind_slash r st).
Proof.
  intros HL. unfold bind_slash, getServerBuild.
  destruct (vite_server st) as [s|]; [|lm_same].
  wf_simpl. destruct (serverBuildCache st !! s); lm_same.
Qed.

Lemma LM_restart_await r pc st :
  LM st →
  LM (let '(st1, p) := restartVite st in
      await_promise p (ForReq r) (upd_request r (set_qpc pc) st1)).
Proof.
  intros HL. pose proof (LM_restartVite st HL) as H1.
  destruct (restartVite st) as [st1 p]. cbn in H1.
  by apply LM_await_promise, LM_upd_request.
Qed.

Lemma LM_req_step r q res st : LM st → LM (req_step r q res st).
Proof.
  intros HL. unfold req_step.
  destruct (qpc q); destruct res as [? ?|[|v]|];
    try apply LM_restart_await; try apply LM_bind; try apply LM_bind_slash;
    try apply LM_deliver_req; try apply LM_upd_request; try done;
    lm_same.
Qed.

Lemma LM_onRequest u st : LM st → LM (onRequest u st).
Proof.
  intros HL. unfold onRequest. destruct (String.eqb u "/"); [lm_same|].
  cbn [waterfallCounter set_waterfallCounter restarting set_requests
       vite_server requests].
  assert (∀ st1 b,
    LM st1 →
    LM (match b, restarting st1 with
        | true, Some p => await_promise p (ForReq (length (requests st))) st1
        | _, _ => bind (length (requests st)) (vite_server st) st1
        end)) as Hrest.
  { intros st1 b H1. destruct b; [|by apply LM_bind].
    destruct (restarting st1); [by apply LM_await_promise|by apply LM_bind]. }
  apply Hrest. destruct (_ =? _).
  - set (st2 := set_requests _ _).
    assert (LM st2) as H2 by lm_same.
    pose proof (LM_restartVite st2 H2) as H3.
    destruct (restartVite st2) as [st' p]. cbn in H3. lm_same.
  - lm_same.
Qed.

(** *** The requests *)

Definition Reqs (st : St) : Prop :=
  ∀ r q, requests st !! r = Some q → req_has_server q.

Lemma Reqs_ext st st' : requests st' = requests st → Reqs st → Reqs st'.
Proof. unfold Reqs. by intros ->. Qed.

Lemma Reqs_upd r g st :
  Reqs st →
  (∀ q, requests st !! r = Some q → req_has_server q → req_has_server (g q)) →
  Reqs (upd_request r g st).
Proof.
  intros HR Hg r' q'. wf_simpl. destruct (decide (r = r')) as [<-|Hne].
  - rewrite list_lookup_alter_eq.
    destruct (requests st !! r) as [q|] eqn:Hq; [|done]. intros [= <-]. eauto.
  - rewrite list_lookup_alter_ne by done. apply HR.
Qed.

Lemma req_has_server_inbox i q :
  req_has_server q → req_has_server (set_qinbox i q).
Proof. done. Qed.

Lemma Reqs_deliver_req res r st : Reqs st → Reqs (deliver_req res r st).
Proof.
  intros HR. eapply Reqs_ext; [|apply (Reqs_upd r (set_qinbox (Some res)) st HR)];
    [done|]. intros q _. apply req_has_server_inbox.
Qed.

Lemma Reqs_wake ok st w : Reqs st → Reqs (wake ok st w).
Proof. intros HR. destruct w; [done|]. by apply Reqs_deliver_req. Qed.

Lemma Reqs_foldl_wake ok ws st : Reqs st → Reqs (foldl (wake ok) st ws).
Proof.
  revert st. induction ws as [|w ws IH]; intros st HR; [done|].
  cbn [foldl]. by apply IH, Reqs_wake.
Qed.

Lemma Reqs_settle p ok ws st : Reqs st → Reqs (settle p ok ws st).
Proof. intros HR. unfold settle. by apply Reqs_foldl_wake. Qed.

Lemma Reqs_await_promise p w st : Reqs st → Reqs (await_promise p w st).
Proof.
  intros HR. unfold await_promise.
  destruct (promises st !! p) as [[f ws| |]|]; try done; by apply Reqs_wake.
Qed.

Lemma Reqs_restart_step p f ws res st :
  Reqs st → Reqs (restart_step p f ws res st).
Proof.
  intros HR. unfold restart_step, getServerBuild.
  destruct (fpc f); destruct res; try apply Reqs_settle; try done.
  cbn [serverBuildCache set_vite_server set_serverIdMap set_serverIdCounter].
  by destruct (serverBuildCache st !! S (serverIdCounter st)).
Qed.

(** Lines 116-117 and 121-122. *)
Lemma Reqs_bind r s st :
  Reqs st → Reqs (bind r s st).
Proof.
  intros HR. unfold bind, getServerBuild. destruct s as [s|].
  - wf_simpl.
    assert (Reqs (upd_request r (set_viteServer (Some s)) st)) as H1.
    { apply Reqs_upd; [done|]. intros q _ [Hc Hpc]. split; [done|]. cbn.
      destruct (qpc q); try done; try (destruct Hpc; split); eauto. }
    destruct (serverBuildCache st !! s).
    + apply Reqs_deliver_req, Reqs_upd; [done|]. intros q Hq [Hc _].
      split; [done|]. cbn. cbn [requests upd_request set_requests] in Hq.
      rewrite list_lookup_alter_eq in Hq.
      destruct (requests st !! r); [|done]. injection Hq as <-. cbn. eauto.
    + apply Reqs_upd; [done|]. intros q Hq [Hc _].
      split; [done|]. cbn. cbn [requests upd_request set_requests] in Hq.
      rewrite list_lookup_alter_eq in Hq.
      destruct (requests st !! r); [|done]. injection Hq as <-. cbn. eauto.
  - apply Reqs_upd; [done|]. by intros q _ [Hc _].
Qed.

Lemma Reqs_bind_slash r st : Reqs st → Reqs (bind_slash r st).
Proof.
  intros HR. unfold bind_slash, getServerBuild.
  destruct (vite_server st) as [s|].
  - wf_simpl.
    assert (Reqs (upd_request r (set_viteServer (Some s)) st)) as H1.
    { apply Reqs_upd; [done|]. intros q _ [Hc Hpc]. split; [done|]. cbn.
      destruct (qpc q); try done; try (destruct Hpc; split); eauto. }
    destruct (serverBuildCache st !! s).
    + apply Reqs_deliver_req, Reqs_upd; [done|]. intros q Hq [Hc _].
      split; [done|]. cbn. cbn [requests upd_request set_requests] in Hq.
      rewrite list_lookup_alter_eq in Hq.
      destruct (requests st !! r); [|done]. injection Hq as <-. cbn. eauto.
    + apply Reqs_upd; [done|]. intros q Hq [Hc _].
      split; [done|]. cbn. cbn [requests upd_request set_requests] in Hq.
      rewrite list_lookup_alter_eq in Hq.
      destruct (requests st !! r); [|done]. injection Hq as <-. cbn. eauto.
  - apply Reqs_upd; [done|]. by intros q _ [Hc _].
Qed.

Lemma Reqs_restart_await r pc st :
  Reqs st →
  match pc with AtRestart => True | _ => False end →
  Reqs (let '(st1, p) := restartVite st in
        await_promise p (ForReq r) (upd_request r (set_qpc pc) st1)).
Proof.
  intros HR Hpc. unfold restartVite.
  apply Reqs_await_promise, Reqs_upd; [done|]. intros q _ [Hc _].
  split; [done|]. cbn. by destruct pc.
Qed.

Lemma Reqs_req_step r q res st :
  Reqs st → requests st !! r = Some q → Reqs (req_step r q res st).
Proof.
  intros HR Hq. destruct (HR r q Hq) as [Hc Hpc]. unfold req_step.
  assert (∀ g, (∀ q0, req_has_server q0 → qpc q0 = qpc q →
                      viteServer q0 = viteServer q → req_has_server (g q0)) →
               ∀ st', requests st' = requests st → Reqs st' →
               Reqs (upd_request r g st')) as Hupd.
  { intros g Hg st' E HR'. apply Reqs_upd; [done|]. intros q0. rewrite E, Hq.
    intros [= <-] ?. by apply Hg. }
  destruct (qpc q) eqn:Epc; destruct res as [? ?|[|v]|];
    try (by apply Reqs_restart_await);
    try (by apply Reqs_bind); try done;
    try (apply Reqs_deliver_req);
    try (apply Hupd; [|done|done]; intros q0 [Hc0 _] E1 E2; split; [done|]; cbn;
         wf_simpl; rewrite ?E2; by eauto).
  - apply Reqs_bind_slash. by eapply Reqs_ext.
  - apply Reqs_bind_slash. by eapply Reqs_ext.
Qed.

Lemma Reqs_onRequest u st :
  Reqs st → is_Some (vite_server st) → Reqs (onRequest u st).
Proof.
  intros HR Hv. unfold onRequest.
  assert (∀ b pos pc, match pc with AtStat | AtRestarting => True | _ => False end →
            Reqs (set_requests
                    (requests st ++
                     [mkRequest u (vite_server st) b pos None None pc None]) st))
    as Hnew.
  { intros b pos pc Hpc r q. wf_simpl.
    intros [Hq|[_ Hq]]%lookup_app_Some; [by eapply HR|].
    destruct (r - length (requests st)) as [|n]; [|done].
    injection Hq as <-. split; [done|]. cbn. by destruct pc. }
  destruct (String.eqb u "/"); [by apply Hnew|].
  cbn [waterfallCounter set_waterfallCounter restarting set_requests
       vite_server requests].
  assert (∀ st1 b,
    Reqs st1 →
    Reqs (match b, restarting st1 with
          | true, Some p => await_promise p (ForReq (length (requests st))) st1
          | _, _ => bind (length (requests st)) (vite_server st) st1
          end)) as Hrest.
  { intros st1 b H1. destruct b; [|by apply Reqs_bind].
    destruct (restarting st1); [by apply Reqs_await_promise|by apply Reqs_bind]. }
  apply Hrest. destruct (_ =? _).
  - unfold restartVite. wf_simpl.
    eapply Reqs_ext; [|eapply (Hnew _ _ AtRestarting); exact I]. reflexivity.
  - eapply Reqs_ext; [|eapply (Hnew _ _ AtRestarting); exact I]. reflexivity.
Qed.

(** *** One step *)

Lemma Core_step i st st' :
  Core st →
  (∀ mt, microtasks st = JMain true :: mt → 1 ≤ serverIdCounter st) →
  step i st = Some st' → Core st'.
Proof.
  intros HC Hm. destruct i as [| |u|p res|r res]; cbn [step].
  - destruct (microtasks st) as [|j mt]; [done|]. intros [= <-].
    assert (Core (set_microtasks mt st)) as HC' by core_same.
    destruct j as [p|r|ok]; cbn.
    + destruct (promises st !! p) as [[f ws| |]|] eqn:Hl; try done.
      destruct (finbox f); [|done]. by apply Core_restart_step.
    + destruct (requests st !! r) as [q|]; [|done].
      destruct (qinbox q); [|done]. by apply Core_req_step.
    + destruct HC as [A B C D]. split; try done. wf_simpl.
      destruct ok; [|done]. intros _. by eapply Hm.
  - destruct (main st); try done.
    pose proof (Core_restartVite st HC) as H1.
    destruct (restartVite st) as [st1 p]. cbn in H1. intros [= <-].
    apply Core_await_promise.
    destruct H1 as [A B C D]. split; try done.
  - destruct (main st), (microtasks st); try done. intros [= <-].
    by apply Core_onRequest.
  - destruct (promises st !! p) as [[f ws| |]|] eqn:Hl; try done.
    destruct (frame_awaits_io f); [|done]. intros [= <-].
    apply Core_enqueue, Core_suspend; [done|]. apply (co_frames _ HC _ _ _ Hl).
  - destruct (requests st !! r) as [q|]; [|done].
    destruct (req_awaits_io q); [|done]. intros [= <-].
    by apply Core_deliver_req.
Qed.

Lemma Reqs_step i st st' :
  Reqs st → (main st = Listening → is_Some (vite_server st)) →
  step i st = Some st' → Reqs st'.
Proof.
  intros HR Hv. destruct i as [| |u|p res|r res]; cbn [step].
  - destruct (microtasks st) as [|j mt]; [done|]. intros [= <-].
    destruct j as [p|r|ok]; cbn; [| |done].
    + destruct (promises st !! p) as [[f ws| |]|]; try done.
      destruct (finbox f); [|done]. by apply Reqs_restart_step.
    + destruct (requests st !! r) as [q|] eqn:Hq; [|done].
      destruct (qinbox q); [|done]. by apply Reqs_req_step.
  - destruct (main st); try done. unfold restartVite. intros [= <-].
    by apply Reqs_await_promise.
  - destruct (main st) eqn:Hm; try done. destruct (microtasks st); try done.
    intros [= <-]. apply Reqs_onRequest; auto.
  - destruct (promises st !! p) as [[f ws| |]|]; try done.
    destruct (frame_awaits_io f); [|done]. by intros [= <-].
  - destruct (requests st !! r) as [q|]; [|done].
    destruct (req_awaits_io q); [|done]. intros [= <-].
    by apply Reqs_deliver_req.
Qed.

Lemma LM_step i st st' : LM st → step i st = Some st' → LM st'.
Proof.
  intros HL. pose proof HL as (Hm & Hmt & _).
  destruct i as [| |u|p res|r res]; cbn [step].
  - destruct (microtasks st) as [|j mt] eqn:Ej; [done|]. intros [= <-].
    destruct j as [p|r|ok]; [| |done].
    + assert (LM (set_microtasks mt st)) as HL'.
      { destruct HL as (A & B & C). by split. }
      cbn. destruct (promises st !! p) as [[f ws| |]|] eqn:Hl; try done.
      destruct (finbox f); [|done]. by apply LM_restart_step.
    + assert (LM (set_microtasks mt st)) as HL'.
      { destruct HL as (A & B & C). by split. }
      cbn. destruct (requests st !! r) as [q|]; [|done].
      destruct (qinbox q); [|done]. by apply LM_req_step.
  - by rewrite Hm.
  - rewrite Hm. destruct (microtasks st); [|done]. intros [= <-].
    by apply LM_onRequest.
  - destruct (promises st !! p) as [[f ws| |]|] eqn:Hl; try done.
    destruct (frame_awaits_io f); [|done]. intros [= <-].
    apply LM_enqueue_restart. by eapply LM_suspend.
  - destruct (requests st !! r) as [q|]; [|done].
    destruct (req_awaits_io q); [|done]. intros [= <-].
    by apply LM_deliver_req.
Qed.

(** *** The module body (lines 129-137) *)

Definition MainOk (st : St) : Prop :=
  match main st with
  | NotStarted =>
      promises st = [] ∧ microtasks st = [] ∧ requests st = []
  | Starting =>
      requests st = [] ∧
      ((∃ f, promises st = [Pending f [ForMain]] ∧
             (microtasks st = [] ∨
              microtasks st = [JRestart 0] ∧ frame_awaits_io f = false)) ∨
       (∃ ok, promises st = [settled ok] ∧ microtasks st = [JMain ok]))
  | Listening => LM st
  | Crashed =>
      requests st = [] ∧ microtasks st = [] ∧ promises st = [Rejected]
  end.

Lemma Starting_restart_step f res st :
  main st = Starting → requests st = [] →
  promises st = [Pending f [ForMain]] → microtasks st = [] →
  MainOk (restart_step 0 f [ForMain] res st).
Proof.
  destruct st as [v c n m rs w mn ps qs mt]. cbn. intros -> -> -> ->.
  destruct f as [pc i]. unfold restart_step, MainOk.
  destruct pc, res; cbn [fpc];
    try (split; [done|right; by exists false]);
    try (split; [done|right; by exists true]);
    try (split; [done|left; eexists; split; [done|]; by auto]).
  destruct (getServerBuild _ _);
    (split; [done|left; eexists; split; [done|]; by auto]).
Qed.

Lemma MainOk_step i st st' :
  MainOk st → step i st = Some st' → MainOk st'.
Proof.
  unfold MainOk at 1. destruct (main st) eqn:Hm.
  - intros (Hp & Hmt & Hr).
    destruct i as [| |u|p res|r res]; cbn [step];
      rewrite ?Hm, ?Hmt, ?Hp, ?Hr; try done.
    unfold restartVite, await_promise. rewrite Hp. cbn. intros [= <-].
    unfold MainOk. cbn. split; [done|]. left. eexists. split; [done|]. by left.
  - intros (Hr & HS). destruct i as [| |u|p res|r res]; cbn [step];
      rewrite ?Hm, ?Hr; try done.
    + destruct HS as [(f & Hp & [Hmt|[Hmt Hf]])|(ok & Hp & Hmt)];
        rewrite Hmt; [done| |].
      * intros [= <-]. cbn [run_job]. wf_simpl. rewrite Hp. cbn [lookup list_lookup].
        destruct (finbox f) as [res|].
        -- by apply Starting_restart_step.
        -- unfold MainOk. wf_simpl. rewrite Hm. split; [done|]. left.
           exists f. split; [done|]. by left.
      * intros [= <-]. cbn [run_job]. unfold MainOk. wf_simpl.
        destruct ok; cbn [settled] in Hp.
        -- unfold LM. wf_simpl. split; [done|]. split; [done|]. rewrite Hp.
           intros [|p] f ws; [done|by destruct p].
        -- done.
    + destruct HS as [(f & Hp & [Hmt|[Hmt Hf]])|(ok & Hp & Hmt)]; rewrite Hp.
      * destruct p as [|p]; [|by destruct p]. cbn [lookup list_lookup].
        destruct (frame_awaits_io f) eqn:Hf; [|done]. intros [= <-].
        unfold MainOk. wf_simpl. rewrite Hm, Hp, Hmt. split; [done|]. left.
        eexists. split; [done|]. right. split; [done|].
        unfold frame_awaits_io. cbn. by destruct (fpc f).
      * destruct p as [|p]; [|by destruct p]. cbn [lookup list_lookup].
        by rewrite Hf.
      * destruct p as [|p]; [|by destruct p]. by destruct ok.
  - intros HL Hs. pose proof (LM_step _ _ _ HL Hs) as HL'.
    unfold MainOk. by rewrite (proj1 HL').
  - intros (Hr & Hmt & Hp). destruct i as [| |u|p res|r res]; cbn [step];
      rewrite ?Hm, ?Hmt, ?Hp, ?Hr; try done.
    destruct p as [|p]; [done|by destruct p].
Qed.

(** *** From the load of the module on *)

Definition Boot (st : St) : Prop := Core st ∧ Reqs st ∧ MainOk st.

Lemma Boot_init : Boot init.
Proof.
  split; [|split]; [|by intros r q|done].
  split; try done; by intros p.
Qed.

Lemma Boot_listening st :
  Boot st → main st = Listening →
  vite_server st = Some (serverIdCounter st) ∧ 1 ≤ serverIdCounter st.
Proof.
  intros (HC & _ & _) Hm. pose proof (co_listening _ HC Hm) as Hn.
  rewrite (co_server _ HC). destruct (serverIdCounter st); [lia|done].
Qed.

Lemma Boot_step i st st' : Boot st → step i st = Some st' → Boot st'.
Proof.
  intros HB Hs. pose proof HB as (HC & HR & HM). split; [|split].
  - eapply Core_step; [done| |done]. intros mt Hmt.
    unfold MainOk in HM. destruct (main st) eqn:Hm.
    + destruct HM as (_ & E & _). by rewrite E in Hmt.
    + destruct HM as (_ & [(f & _ & [E|[E _]])|(ok & Hp & E)]);
        rewrite E in Hmt; try done.
      injection Hmt as ->. apply (co_fulfilled _ HC 0). by rewrite Hp.
    + by apply (co_listening _ HC).
    + destruct HM as (_ & E & _). by rewrite E in Hmt.
  - eapply Reqs_step; [done| |done]. intros Hm.
    rewrite (proj1 (Boot_listening _ HB Hm)). by eexists.
  - by eapply MainOk_step.
Qed.

Lemma run_Boot_from tr st st' : Boot st → run tr st = Some st' → Boot st'.
Proof.
  revert st. induction tr as [|i tr IH]; intros st HB; cbn [run].
  - by intros [= <-].
  - destruct (step i st) as [st1|] eqn:Hs; [|done].
    apply IH. by eapply Boot_step.
Qed.

Lemma run_Boot tr st : run tr init = Some st → Boot st.
Proof. apply run_Boot_from, Boot_init. Qed.

(** X11.  However the module is loaded and whatever arrives afterwards, a
    request never sees the placeholder that [vite.server] holds at line 20:
    once the program listens, [vite.server] is the newest server and at least
    one server has been created; every request has captured a server at
    line 70; a request whose hook has returned carries a server and a build;
    and as long as the program does not listen there is no request at all. *)
Theorem requests_never_see_the_placeholder tr st :
  run tr init = Some st →
  (main st = Listening →
   vite_server st = Some (serverIdCounter st) ∧ 1 ≤ serverIdCounter st) ∧
  (∀ r q, requests st !! r = Some q →
     is_Some (capturedViteServer q) ∧
     (qpc q = Done → is_Some (viteServer q) ∧ is_Some (serverBuild q))) ∧
  (main st ≠ Listening → requests st = []).
Proof.
  intros Hrun. pose proof (run_Boot _ _ Hrun) as HB.
  split; [by apply Boot_listening|]. split.
  - intros r q Hq. destruct HB as (_ & HR & _).
    destruct (HR r q Hq) as [Hc Hpc]. split; [done|].
    intros E. by rewrite E in Hpc.
  - intros Hm. destruct HB as (_ & _ & HM). unfold MainOk in HM.
    destruct (main st); try done; by destruct HM as (? & ? & ?) || apply HM.
Qed.

Lemma requests_never_see_the_placeholder_witness :
  (main (state_after (boot ++ thirty_nine)) = Listening →
   vite_server (state_after (boot ++ thirty_nine)) =
     Some (serverIdCounter (state_after (boot ++ thirty_nine))) ∧
   1 ≤ serverIdCounter (state_after (boot ++ thirty_nine))) ∧
  (∀ r q, requests (state_after (boot ++ thirty_nine)) !! r = Some q →
     is_Some (capturedViteServer q) ∧
     (qpc q = Done → is_Some (viteServer q) ∧ is_Some (serverBuild q))) ∧
  (main (state_after (boot ++ thirty_nine)) ≠ Listening →
   requests (state_after (boot ++ thirty_nine)) = []).
Proof.
  apply (requests_never_see_the_placeholder (boot ++ thirty_nine)).
  vm_compute. reflexivity.
Defined.

(** The first [restartVite] fails at once. *)
Definition failed_boot : list Input :=
  [Start; InRestartIO 0 WErr; Tick; Tick].

(** X12.  When the [restartVite] of line 129 fails, the module body stops
    there: [fastify.listen] is never reached, no other restart has been
    started, there is no request, and the program takes no further step. *)
Theorem failed_start_is_final tr st :
  run tr init = Some st → main st = Crashed →
  promises st = [Rejected] ∧ requests st = [] ∧
  ∀ i, step i st = None.
Proof.
  intros Hrun Hm. destruct (run_Boot _ _ Hrun) as (_ & _ & HM).
  unfold MainOk in HM. rewrite Hm in HM. destruct HM as (Hr & Hmt & Hp).
  split; [done|]. split; [done|].
  intros [| |u|p res|r res]; cbn [step]; rewrite ?Hm, ?Hmt, ?Hp, ?Hr; try done.
  destruct p as [|p]; [done|by destruct p].
Qed.

Lemma failed_start_is_final_witness :
  promises (state_after failed_boot) = [Rejected] ∧
  requests (state_after failed_boot) = [] ∧
  ∀ i, step i (state_after failed_boot) = None.
Proof.
  apply (failed_start_is_final failed_boot); vm_compute; reflexivity.
Defined.

End Waterfall.

(** * The requests that are passed on

    Two places turn the request that Node parsed into a request for someone
    else: the plugin [fastify-react-router] builds the [Request] of React
    Router from it, and the HMR proxy of the hold-and-drain server writes it
    out again for the HMR server of Vite. *)

Module Http.

(** A field of [request.headers]: [string | string[] | undefined]. *)
Inductive HeaderValue :=
| HUndefined
| HString (s : string)
| HArray (vs : list string).

(** [Object.entries(request.headers)]: the fields in the order of the
    object, every key once. *)
Definition IncomingHttpHeaders := list (string * HeaderValue).

(** [Array.prototype.join] on an array of strings. *)
Fixpoint join (sep : string) (l : list string) : string :=
  match l with
  | [] => ""
  | x :: l' =>
      match l' with
      | [] => x
      | _ :: _ => x +:+ sep +:+ join sep l'
      end
  end.

Lemma append_assoc (a b c : string) : (a +:+ b) +:+ c = a +:+ (b +:+ c).
Proof.
  induction a as [|x a IH]; [done|].
  change (String x ((a +:+ b) +:+ c) = String x (a +:+ b +:+ c)).
  by rewrite IH.
Qed.

Lemma append_nil_r (a : string) : a +:+ "" = a.
Proof.
  induction a as [|x a IH]; [done|].
  change (String x (a +:+ "") = String x a). by rewrite IH.
Qed.

End Http.

(** ** The plugin [fastify-react-router] *)

Module Plugin.
Import Http.


(** A [Headers] object is its header list.  Node hands the names over in
    lower case and the values without surrounding white space, so that
    [Headers] stores them as they come. *)
Definition Headers := list (string * string).

(** [headers.append(key, value)] *)
Definition append (key value : string) (h : Headers) : Headers :=
  h ++ [(key, value)].

(** [headers.set(key, value)]: the first field of that name takes the value
    and the others go; without such a field the pair is appended. *)
Fixpoint set (key value : string) (h : Headers) : Headers :=
  match h with
  | [] => [(key, value)]
  | (k, v) :: h' =>
      if String.eqb k key
      then (k, value) :: @filter _ (list (string * string)) _ (λ e, e.1 ≠ key) _ h'
      else (k, v) :: set key value h'
  end.




(** The events of [reply.raw] that line 91 and line 92 listen to. *)
Inductive ReplyEvent := Finish | Close.

(** The variable [controller] of line 69 ([None] for [null]) and the flag
    [aborted] of the signal that line 88 hands to the [Request]. *)
Record Abort := mkAbort { controller : option unit; aborted : bool }.

Definition created : Abort := mkAbort (Some ()) false.

Definition on_event (a : Abort) (e : ReplyEvent) : Abort :=
  match e with
  | Finish => mkAbort None (aborted a)
  | Close =>
      match controller a with
      | Some _ => mkAbort (controller a) true
      | None => a
      end
  end.

Definition after (evs : list ReplyEvent) : Abort := foldl on_event created evs.
















Lemma after_snoc evs e : after (evs ++ [e]) = on_event (after evs) e.
Proof. unfold after. by rewrite foldl_app. Qed.

Lemma controller_after evs :
  controller (after evs) = None ↔ Finish ∈ evs.
Proof.
  induction evs as [|e evs IH] using rev_ind.
  - split; [done|]. by intros ?%elem_of_nil.
  - rewrite after_snoc, elem_of_app, list_elem_of_singleton, <- IH.
    destruct e; cbn.
    + split; [by right|done].
    + destruct (controller (after evs)) eqn:E; cbn;
        [|rewrite E; split; [by left|done]].
      split; [done|]. by intros [|].
Qed.

(** X14.  The request handed to React Router is aborted exactly when
    [reply.raw] emits [close] before it has emitted any [finish]: a
    connection that closes after the response was finished aborts nothing. *)
Theorem aborted_iff_closed_before_finish evs :
  aborted (after evs) = true ↔
  ∃ pre post, evs = pre ++ Close :: post ∧ Finish ∉ pre.
Proof.
  induction evs as [|e evs IH] using rev_ind.
  - split; [done|]. intros (pre & post & E & _). by destruct pre.
  - rewrite after_snoc. split.
    + destruct e; cbn.
      * intros (pre & post & -> & Hn)%IH. exists pre, (post ++ [Finish]).
        by rewrite <- app_assoc.
      * destruct (controller (after evs)) as [[]|] eqn:Hc.
        -- intros _. exists evs, []. split; [done|].
           intros Hin%controller_after. by rewrite Hin in Hc.
        -- intros (pre & post & -> & Hn)%IH. exists pre, (post ++ [Close]).
           by rewrite <- app_assoc.
    + intros (pre & post & E & Hn).
      destruct post as [|x post _] using rev_ind.
      * apply app_inj_tail in E as [-> ->]. cbn.
        destruct (controller (after pre)) eqn:Hc; [done|].
        by apply controller_after in Hc.
      * rewrite app_comm_cons, app_assoc in E.
        apply app_inj_tail in E as [-> ->].
        assert (aborted (after (pre ++ Close :: post)) = true) as Ha
          by (apply IH; eauto).
        destruct x; cbn; [done|].
        by destruct (controller (after (pre ++ Close :: post))).
Qed.

End Plugin.

(** ** The upgrade request that the HMR proxy passes on *)

Module HmrProxy.
Import Http.

Definition CRLF : string :=
  String (Ascii.ascii_of_nat 13) (String (Ascii.ascii_of_nat 10) EmptyString).

(** [`${value}`], line 344. *)
Definition to_string (value : HeaderValue) : string :=
  match value with
  | HUndefined => "undefined"
  | HString s => s
  | HArray vs => join "," vs
  end.

(** Line 342. *)
Definition requestLine (method url : string) : string :=
  method +:+ " " +:+ url +:+ " HTTP/1.1" +:+ CRLF.

(** Lines 343-345. *)
Definition headers (hs : IncomingHttpHeaders) : string :=
  join CRLF (map (λ e, e.1 +:+ ": " +:+ to_string e.2) hs).

(** What line 347 writes to the target socket. *)
Definition upgrade_request (method url : string) (hs : IncomingHttpHeaders) : string :=
  (requestLine method url +:+ headers hs) +:+ CRLF +:+ CRLF.

(** The header fields, every one on a line of its own. *)
Fixpoint header_lines (hs : IncomingHttpHeaders) : string :=
  match hs with
  | [] => ""
  | e :: hs => e.1 +:+ ": " +:+ to_string e.2 +:+ CRLF +:+ header_lines hs
  end.

Lemma headers_lines e hs :
  headers (e :: hs) +:+ CRLF = header_lines (e :: hs).
Proof.
  revert e. induction hs as [|e' hs IH]; intros e.
  - cbn [headers map join header_lines]. rewrite !append_assoc.
    by rewrite append_nil_r.
  - change (headers (e :: e' :: hs))
      with ((e.1 +:+ ": " +:+ to_string e.2) +:+ CRLF +:+ headers (e' :: hs)).
    change (header_lines (e :: e' :: hs))
      with (e.1 +:+ ": " +:+ to_string e.2 +:+ CRLF +:+ header_lines (e' :: hs)).
    rewrite <- (IH e'). by rewrite !append_assoc.
Qed.

(** X15.  With at least one header field, the text that the proxy writes to
    the HMR server is the request line, the fields line by line, and one
    empty line.  Without any field it ends in two empty lines. *)
Theorem upgrade_request_is_a_request_head method url hs :
  upgrade_request method url hs =
  requestLine method url +:+ header_lines hs +:+
  match hs with
  | [] => CRLF +:+ CRLF
  | _ :: _ => CRLF
  end.
Proof.
  unfold upgrade_request. destruct hs as [|e hs].
  - cbn [headers map join header_lines]. by rewrite !append_assoc.
  - rewrite <- headers_lines. by rewrite !append_assoc.
Qed.

End HmrProxy.
